(** * numkit: network_flow/max_flow.py

    A shallow embedding of the [MaximumFlow] class (Edmonds-Karp and Dinic
    on a residual edge store) and the properties of its specification.

    Python integers are [Z].  List subscripts follow Python: a negative
    subscript counts from the end, a subscript out of range raises
    [IndexError].  The methods mutate [self]; they are computations in a
    state-and-exception monad over the instance.  A [while] loop carries a
    fuel argument: running out of it is the outcome [Fuel], a loop that is
    still going.  The recursive methods carry the number of nested calls
    the interpreter still allows; a call beyond it raises
    [RecursionError].

    Capacities and flows are Python integers here.  The same methods on
    any Python number, [float] capacities included, which the source
    accepts as well, are the module [PyNumber] below; on integer
    capacities the two agree ([integers_among_python_numbers]). *)

From Stdlib Require Import ZArith List Bool Lia.
From Stdlib Require PrimFloat FloatOps SpecFloat.
Import ListNotations.
Open Scope Z_scope.

(** ** Numbers *)

(** A flow bound is an integer or [float('inf')] (the default of [f]). *)
Inductive number : Type :=
| Fin (z : Z)
| INF.

(** [min(f, x)] for an integer [x]. *)
Definition nmin (f : number) (x : Z) : number :=
  match f with
  | Fin a => Fin (Z.min a x)
  | INF => Fin x
  end.

(** [mf + f]. *)
Definition nadd (a b : number) : number :=
  match a, b with
  | Fin x, Fin y => Fin (x + y)
  | _, _ => INF
  end.

(** [f == 0]. *)
Definition is_zero (f : number) : bool :=
  match f with
  | Fin z => z =? 0
  | INF => false
  end.

(** ** Python lists *)

Definition py_index (len : nat) (i : Z) : option nat :=
  if (0 <=? i) && (i <? Z.of_nat len) then Some (Z.to_nat i)
  else if (- Z.of_nat len <=? i) && (i <? 0) then Some (Z.to_nat (Z.of_nat len + i))
  else None.

Definition py_get {X : Type} (l : list X) (i : Z) : option X :=
  match py_index (length l) i with
  | Some k => nth_error l k
  | None => None
  end.

Fixpoint replace_nth {X : Type} (k : nat) (x : X) (l : list X) : list X :=
  match l, k with
  | [], _ => []
  | _ :: tl, O => x :: tl
  | y :: tl, S k' => y :: replace_nth k' x tl
  end.

Definition py_set {X : Type} (l : list X) (i : Z) (x : X) : option (list X) :=
  match py_index (length l) i with
  | Some k => Some (replace_nth k x l)
  | None => None
  end.

(** [range(a, b)]. *)
Definition py_range (a b : Z) : list Z :=
  map (fun k => a + Z.of_nat k) (seq 0 (Z.to_nat (b - a))).

(** ** The instance *)

(** An entry [[v, capacity, flow]] of [edge_list]. *)
Record edge : Type := mkEdge {
  e_v : Z;
  e_cap : Z;
  e_flow : Z
}.

Definition with_flow (e : edge) (x : Z) : edge :=
  mkEdge (e_v e) (e_cap e) x.

(** The attributes set by [__init__].  [history] is a ghost field, absent
    from the source: it collects the edge store after every flow update,
    so that statements about all intermediate stores can be made. *)
Record MaximumFlow : Type := mkMaximumFlow {
  vertices : Z;
  edge_list : list edge;
  adjacency_list : list (list Z);
  distances : list Z;
  last : list Z;
  points : list (Z * Z);
  has_been_run : bool;
  history : list (list edge)
}.

Definition set_edge_list (x : list edge) (g : MaximumFlow) : MaximumFlow :=
  mkMaximumFlow (vertices g) x (adjacency_list g) (distances g) (last g)
                (points g) (has_been_run g) (history g).

Definition set_adjacency_list (x : list (list Z)) (g : MaximumFlow) : MaximumFlow :=
  mkMaximumFlow (vertices g) (edge_list g) x (distances g) (last g)
                (points g) (has_been_run g) (history g).

Definition set_distances (x : list Z) (g : MaximumFlow) : MaximumFlow :=
  mkMaximumFlow (vertices g) (edge_list g) (adjacency_list g) x (last g)
                (points g) (has_been_run g) (history g).

Definition set_last (x : list Z) (g : MaximumFlow) : MaximumFlow :=
  mkMaximumFlow (vertices g) (edge_list g) (adjacency_list g) (distances g) x
                (points g) (has_been_run g) (history g).

Definition set_points (x : list (Z * Z)) (g : MaximumFlow) : MaximumFlow :=
  mkMaximumFlow (vertices g) (edge_list g) (adjacency_list g) (distances g)
                (last g) x (has_been_run g) (history g).

Definition set_has_been_run (x : bool) (g : MaximumFlow) : MaximumFlow :=
  mkMaximumFlow (vertices g) (edge_list g) (adjacency_list g) (distances g)
                (last g) (points g) x (history g).

Definition set_history (x : list (list edge)) (g : MaximumFlow) : MaximumFlow :=
  mkMaximumFlow (vertices g) (edge_list g) (adjacency_list g) (distances g)
                (last g) (points g) (has_been_run g) x.

(** [MaximumFlow(vertices)]: [range] and [[x] * n] of a negative count are empty. *)
Definition init (V : Z) : MaximumFlow :=
  mkMaximumFlow V [] (repeat [] (Z.to_nat V)) [] [] [] false [].

(** ** The monad *)

Inductive exn : Type :=
| IndexError           (* a list subscript out of range *)
| RerunError           (* the Exception of assert_has_not_already_been_run *)
| NonIntegerFlow       (* float('inf') would be stored as a flow: outside the integers *)
| RecursionError.      (* more nested calls than the interpreter allows *)

Inductive res (A : Type) : Type :=
| Val (a : A)
| Exn (e : exn)
| Fuel.
Arguments Val {A} a.
Arguments Exn {A} e.
Arguments Fuel {A}.

Definition M (A : Type) : Type := MaximumFlow -> res A * MaximumFlow.

Definition ret {A} (a : A) : M A := fun g => (Val a, g).

Definition bind {A B} (m : M A) (k : A -> M B) : M B :=
  fun g =>
    match m g with
    | (Val a, g') => k a g'
    | (Exn e, g') => (Exn e, g')
    | (Fuel, g') => (Fuel, g')
    end.

Definition raise {A} (e : exn) : M A := fun g => (Exn e, g).
Definition out_of_fuel {A} : M A := fun g => (Fuel, g).
Definition gets {X} (f : MaximumFlow -> X) : M X := fun g => (Val (f g), g).
Definition modify (f : MaximumFlow -> MaximumFlow) : M unit := fun g => (Val tt, f g).

Notation "x <- m ;; k" := (bind m (fun x => k))
  (at level 61, m at next level, right associativity).
Notation "m ;;; k" := (bind m (fun _ => k))
  (at level 61, right associativity).

Definition of_option {X} (o : option X) : M X :=
  match o with
  | Some x => ret x
  | None => raise IndexError
  end.

(** [l[i]] and [l[i] = x]. *)
Definition getitem {X} (l : list X) (i : Z) : M X := of_option (py_get l i).
Definition setitem {X} (l : list X) (i : Z) (x : X) : M (list X) := of_option (py_set l i x).

(** The integer added to a stored flow. *)
Definition as_int (p : number) : M Z :=
  match p with
  | Fin z => ret z
  | INF => raise NonIntegerFlow
  end.

(** [self.edge_list[idx][2] = x]. *)
Definition store_flow (idx x : Z) : M unit :=
  el <- gets edge_list ;;
  e <- getitem el idx ;;
  el' <- setitem el idx (with_flow e x) ;;
  modify (set_edge_list el').

(** [self.edge_list[idx][2] -= p]. *)
Definition sub_flow (idx p : Z) : M unit :=
  el <- gets edge_list ;;
  e <- getitem el idx ;;
  el' <- setitem el idx (with_flow e (e_flow e - p)) ;;
  modify (set_edge_list el').

(** Ghost: record the edge store reached by a flow update. *)
Definition snapshot : M unit :=
  modify (fun g => set_history (edge_list g :: history g) g).

(** [self.adjacency_list[u][i]]. *)
Definition adj_at (u i : Z) : M Z :=
  al <- gets adjacency_list ;;
  a <- getitem al u ;;
  getitem a i.

(** ** BFS *)

(** The body of [for idx in self.adjacency_list[u]], threading the queue. *)
Fixpoint BFS_for (u : Z) (adj : list Z) (q : list Z) : M (list Z) :=
  match adj with
  | [] => ret q
  | idx :: rest =>
      el <- gets edge_list ;;
      e <- getitem el idx ;;
      b <- (if 0 <? e_cap e - e_flow e
            then ds <- gets distances ;; dv <- getitem ds (e_v e) ;; ret (dv =? -1)
            else ret false) ;;
      q' <- (if b : bool
             then
               ds <- gets distances ;;
               du <- getitem ds u ;;
               ds' <- setitem ds (e_v e) (du + 1) ;;
               modify (set_distances ds') ;;;
               ps <- gets points ;;
               ps' <- setitem ps (e_v e) (u, idx) ;;
               modify (set_points ps') ;;;
               ret (q ++ [e_v e])
             else ret q) ;;
      BFS_for u rest q'
  end.

(** [while len(q) != 0]. *)
Fixpoint BFS_while (fuel : nat) (q : list Z) (t : Z) : M unit :=
  match fuel with
  | O => out_of_fuel
  | S fuel' =>
      match q with
      | [] => ret tt
      | u :: q' =>
          if u =? t then ret tt
          else
            al <- gets adjacency_list ;;
            adj <- getitem al u ;;
            q'' <- BFS_for u adj q' ;;
            BFS_while fuel' q'' t
      end
  end.

Definition BFS (fuel : nat) (s t : Z) : M bool :=
  V <- gets vertices ;;
  modify (set_distances (repeat (-1) (Z.to_nat V))) ;;;
  ds <- gets distances ;;
  ds' <- setitem ds s 0 ;;
  modify (set_distances ds') ;;;
  modify (set_points (repeat (-1, -1) (Z.to_nat V))) ;;;
  BFS_while fuel [s] t ;;;
  ds <- gets distances ;;
  dt <- getitem ds t ;;
  ret (negb (dt =? -1)).

(** ** send_one_flow *)

(** [lim] is the number of nested calls the interpreter still allows when
    the method is called (in CPython, [sys.getrecursionlimit()] less the
    frames in use). *)
Fixpoint send_one_flow (lim : nat) (s t : Z) (f : number) : M number :=
  match lim with
  | O => raise RecursionError
  | S lim' =>
      if s =? t then ret f
      else
        ps <- gets points ;;
        ui <- getitem ps t ;;
        let '(u, idx) := ui in
        el <- gets edge_list ;;
        e <- getitem el idx ;;
        pushed <- send_one_flow lim' s u (nmin f (e_cap e - e_flow e)) ;;
        p <- as_int pushed ;;
        store_flow idx (e_flow e + p) ;;;
        sub_flow (Z.lxor idx 1) p ;;;
        snapshot ;;;
        ret pushed
  end.

(** ** DFS *)

(** The [for i in range(...)] loop of [DFS]; [rec] is the recursive call. *)
Fixpoint DFS_for (rec : Z -> Z -> number -> M number)
         (u t : Z) (f : number) (js : list Z) : M number :=
  match js with
  | [] => ret (Fin 0)
  | i :: rest =>
      ls <- gets last ;;
      ls' <- setitem ls u i ;;
      modify (set_last ls') ;;;
      idx <- adj_at u i ;;
      el <- gets edge_list ;;
      e <- getitem el idx ;;
      ds <- gets distances ;;
      dv <- getitem ds (e_v e) ;;
      du <- getitem ds u ;;
      if negb (dv =? du + 1) then DFS_for rec u t f rest
      else
        pushed <- rec (e_v e) t (nmin f (e_cap e - e_flow e)) ;;
        if is_zero pushed then DFS_for rec u t f rest
        else
          p <- as_int pushed ;;
          idx1 <- adj_at u i ;;
          store_flow idx1 (e_flow e + p) ;;;
          idx2 <- adj_at u i ;;
          sub_flow (Z.lxor idx2 1) p ;;;
          snapshot ;;;
          ret pushed
  end.

Fixpoint DFS (lim : nat) (u t : Z) (f : number) : M number :=
  match lim with
  | O => raise RecursionError
  | S lim' =>
      if (u =? t) || is_zero f then ret f
      else
        ls <- gets last ;;
        lu <- getitem ls u ;;
        al <- gets adjacency_list ;;
        a <- getitem al u ;;
        DFS_for (DFS lim') u t f (py_range lu (Z.of_nat (length a)))
  end.

(** ** add_edge *)

Definition add_edge (u v capacity : Z) (directed : bool) : M unit :=
  if u =? v then ret tt
  else
    modify (fun g => set_edge_list (edge_list g ++ [mkEdge v capacity 0]) g) ;;;
    al <- gets adjacency_list ;;
    a <- getitem al u ;;
    el <- gets edge_list ;;
    al' <- setitem al u (a ++ [Z.of_nat (length el) - 1]) ;;
    modify (set_adjacency_list al') ;;;
    modify (fun g => set_edge_list
                       (edge_list g ++ [mkEdge u (if directed then 0 else capacity) 0]) g) ;;;
    al <- gets adjacency_list ;;
    a <- getitem al v ;;
    el <- gets edge_list ;;
    al' <- setitem al v (a ++ [Z.of_nat (length el) - 1]) ;;
    modify (set_adjacency_list al').

(** ** The run entry points *)

Definition assert_has_not_already_been_run : M unit :=
  b <- gets has_been_run ;;
  if b : bool then raise RerunError
  else modify (set_has_been_run true).

(** [while self.BFS(s, t)] of [edmonds_karp]; [k] bounds its iterations,
    [fuel] those of the loop of [BFS], [lim] the depth of [send_one_flow]. *)
Fixpoint ek_while (lim fuel k : nat) (s t : Z) (mf : number) : M number :=
  match k with
  | O => out_of_fuel
  | S k' =>
      b <- BFS fuel s t ;;
      if b : bool
      then
        f <- send_one_flow lim s t INF ;;
        if is_zero f then ret mf
        else ek_while lim fuel k' s t (nadd mf f)
      else ret mf
  end.

Definition edmonds_karp (lim fuel : nat) (s t : Z) : M number :=
  assert_has_not_already_been_run ;;;
  ek_while lim fuel fuel s t (Fin 0).

(** [while f != 0] of [dinic]. *)
Fixpoint dinic_inner (lim k : nat) (s t : Z) (f mf : number) : M number :=
  match k with
  | O => out_of_fuel
  | S k' =>
      if is_zero f then ret mf
      else
        f' <- DFS lim s t INF ;;
        dinic_inner lim k' s t f' (nadd mf f)
  end.

(** [while self.BFS(s, t)] of [dinic]. *)
Fixpoint dinic_while (lim fuel k : nat) (s t : Z) (mf : number) : M number :=
  match k with
  | O => out_of_fuel
  | S k' =>
      b <- BFS fuel s t ;;
      if b : bool
      then
        V <- gets vertices ;;
        modify (set_last (repeat 0 (Z.to_nat V))) ;;;
        f <- DFS lim s t INF ;;
        mf' <- dinic_inner lim fuel s t f mf ;;
        dinic_while lim fuel k' s t mf'
      else ret mf
  end.

Definition dinic (lim fuel : nat) (s t : Z) : M number :=
  assert_has_not_already_been_run ;;;
  dinic_while lim fuel fuel s t (Fin 0).

(** ** Building a graph *)

(** One [add_edge(u, v, capacity, directed)] call. *)
Record call : Type := mkCall {
  c_u : Z;
  c_v : Z;
  c_cap : Z;
  c_directed : bool
}.

(** The calls of a list in order, on one instance. *)
Fixpoint add_edges (cs : list call) : M unit :=
  match cs with
  | [] => ret tt
  | c :: rest =>
      add_edge (c_u c) (c_v c) (c_cap c) (c_directed c) ;;;
      add_edges rest
  end.

(** The graph of the docstring: [add_edge(0, 1, 3)], [add_edge(0, 2, 3)], [add_edge(1, 2, 3)]. *)
Definition example_calls : list call :=
  [mkCall 0 1 3 true; mkCall 0 2 3 true; mkCall 1 2 3 true].

Definition example_graph : MaximumFlow :=
  snd (add_edges example_calls (init 3)).

(** That instance after [edmonds_karp(0, 2)] has returned. *)
Definition example_done : MaximumFlow :=
  snd (edmonds_karp 5 5 0 2 example_graph).

(** The docstring graph after [BFS(0, 2)], and at the start of the first
    phase of [dinic(0, 2)], when [last] has been reset. *)
Definition example_labelled : MaximumFlow :=
  snd (BFS 4 0 2 example_graph).

Definition example_phase : MaximumFlow :=
  set_last (repeat 0 3) example_labelled.

(** And after the first [DFS(0, 2)] of that phase. *)
Definition example_pushed : MaximumFlow :=
  snd (DFS 4 0 2 INF example_phase).


(** The path 0 -> 1 -> ... -> [n], every edge of capacity 1; the one of
    1001 vertices. *)
Definition path_calls (n : Z) : list call :=
  map (fun i => mkCall i (i + 1) 1 true) (py_range 0 n).

Definition deep_graph : MaximumFlow :=
  snd (add_edges (path_calls 1000) (init 1001)).


(** * Reading the store *)

(** Total readers, meaningful at subscripts in range. *)
Definition zn {X} (d : X) (l : list X) (i : Z) : X := nth (Z.to_nat i) l d.

Definition dummy_edge : edge := mkEdge 0 0 0.
Definition zlen {X} (l : list X) : Z := Z.of_nat (length l).
Definition ev (el : list edge) (i : Z) : Z := e_v (zn dummy_edge el i).
Definition ecap (el : list edge) (i : Z) : Z := e_cap (zn dummy_edge el i).
Definition eflow (el : list edge) (i : Z) : Z := e_flow (zn dummy_edge el i).

(** The paired entry [i ^ 1], and the etail of entry [i]: the head of its pair. *)
Definition mate (i : Z) : Z := Z.lxor i 1.
Definition etail (el : list edge) (i : Z) : Z := ev el (mate i).

(** Head and capacity of every entry: what a run never changes. *)
Definition strip (el : list edge) : list (Z * Z) :=
  map (fun e => (e_v e, e_cap e)) el.

Definition dist (g : MaximumFlow) (v : Z) : Z := zn (-1) (distances g) v.
Definition lastp (g : MaximumFlow) (v : Z) : Z := zn 0 (last g) v.
Definition adj (g : MaximumFlow) (u : Z) : list Z := zn [] (adjacency_list g) u.


(** ** Sums over the store *)

(** [zsum F n] is F 0 + ... + F (n - 1). *)
Fixpoint zsum (F : Z -> Z) (n : nat) : Z :=
  match n with
  | O => 0
  | S k => zsum F k + F (Z.of_nat k)
  end.

(** Net flow out of vertex [v]: the flow summed over the entries whose etail is [v]. *)
Definition net (el : list edge) (v : Z) : Z :=
  zsum (fun i => if etail el i =? v then eflow el i else 0) (length el).

(** ** Well-formed stores *)

(** The shape [add_edge] builds: entries come in pairs, heads are vertices,
    and the adjacency list of [u] holds exactly the entries with etail [u]. *)
Record wf (g : MaximumFlow) : Prop := mkWf {
  wf_V : 0 <= vertices g;
  wf_adj_len : zlen (adjacency_list g) = vertices g;
  wf_even : Z.even (zlen (edge_list g)) = true;
  wf_head : forall i, 0 <= i < zlen (edge_list g) ->
                      0 <= ev (edge_list g) i < vertices g;
  wf_adj : forall u i, 0 <= u < vertices g ->
                       (In i (adj g u) <->
                        0 <= i < zlen (edge_list g) /\ etail (edge_list g) i = u)
}.

(** [flow[i] == -flow[i ^ 1]] for every entry. *)
Definition antisym (el : list edge) : Prop :=
  forall i, 0 <= i < zlen el -> eflow el i + eflow el (mate i) = 0.

(** [flow[i] <= capacity[i]] for every entry. *)
Definition capok (el : list edge) : Prop :=
  forall i, 0 <= i < zlen el -> eflow el i <= ecap el i.

(** The invariants of a store; [c] says whether the capacity bound is tracked. *)
Definition good (c : bool) (el : list edge) : Prop :=
  antisym el /\ (c = true -> capok el).

(** Flow is conserved at every vertex except [s] and [t]. *)
Definition conserved (g : MaximumFlow) (s t : Z) : Prop :=
  forall v, 0 <= v < vertices g -> v <> s -> v <> t -> net (edge_list g) v = 0.

(** ** What BFS establishes *)

Fixpoint count_unreached (ds : list Z) : Z :=
  match ds with
  | [] => 0
  | d :: r => (if d =? -1 then 1 else 0) + count_unreached r
  end.

(** [points[v]] is an entry with residual capacity from a labelled vertex one level up. *)
Definition tree_edge (g : MaximumFlow) (v : Z) : Prop :=
  let '(u, idx) := zn (-1, -1) (points g) v in
  0 <= u < vertices g /\ 0 <= dist g u /\ dist g v = dist g u + 1 /\
  0 <= idx < zlen (edge_list g) /\ etail (edge_list g) idx = u /\
  ev (edge_list g) idx = v /\ 0 < ecap (edge_list g) idx - eflow (edge_list g) idx.

Record bfs_inv (g : MaximumFlow) (s : Z) : Prop := mkBfsInv {
  bi_dlen : zlen (distances g) = vertices g;
  bi_plen : zlen (points g) = vertices g;
  bi_src : dist g s = 0;
  bi_lo : forall v, 0 <= v < vertices g -> -1 <= dist g v;
  bi_hi : forall v, 0 <= v < vertices g ->
                    dist g v + count_unreached (distances g) + 1 <= vertices g;
  bi_tree : forall v, 0 <= v < vertices g -> v <> s -> dist g v <> -1 -> tree_edge g v
}.

(** Every entry with residual capacity leaving [v] reaches a labelled vertex. *)
Definition closed (g : MaximumFlow) (v : Z) : Prop :=
  forall i, 0 <= i < zlen (edge_list g) -> etail (edge_list g) i = v ->
            0 < ecap (edge_list g) i - eflow (edge_list g) i ->
            dist g (ev (edge_list g) i) <> -1.

(** The labelled vertices form a cut that no residual entry leaves. *)
Definition saturated_cut (g : MaximumFlow) (s t : Z) : Prop :=
  dist g s <> -1 /\ dist g t = -1 /\
  forall v, 0 <= v < vertices g -> dist g v <> -1 -> closed g v.

(** ** Numbers as bounds *)

Definition num_le (p f : number) : Prop :=
  match p, f with
  | Fin a, Fin b => a <= b
  | _, INF => True
  | INF, Fin _ => False
  end.

Definition num_pos (f : number) : Prop :=
  match f with
  | Fin a => 0 < a
  | INF => True
  end.

Definition num_nonneg (f : number) : Prop :=
  match f with
  | Fin a => 0 <= a
  | INF => True
  end.

Definition num_val (p : number) : Z :=
  match p with
  | Fin z => z
  | INF => 0
  end.

Definition is_fin (p : number) : Prop := exists z, p = Fin z.

(** BFS writes [distances] and [points] only. *)
Definition bfs_touch (g g' : MaximumFlow) : Prop :=
  exists ds ps, g' = set_points ps (set_distances ds g).

(** Labelling a fresh vertex [v] through entry [idx] out of [u]. *)
Definition label (g : MaximumFlow) (u idx v : Z) : MaximumFlow :=
  set_points (replace_nth (Z.to_nat v) (u, idx) (points g))
    (set_distances (replace_nth (Z.to_nat v) (dist g u + 1) (distances g)) g).

(** ** One flow update *)

(** The edge store after [edge_list[idx][2] = x] and [edge_list[idx ^ 1][2] -= p]. *)
Definition push_el (el : list edge) (idx x p : Z) : list edge :=
  let el1 := replace_nth (Z.to_nat idx) (with_flow (zn dummy_edge el idx) x) el in
  replace_nth (Z.to_nat (mate idx))
              (with_flow (zn dummy_edge el1 (mate idx)) (eflow el1 (mate idx) - p)) el1.

(** The instance after that update and its ghost snapshot. *)
Definition pushed (g : MaximumFlow) (idx x p : Z) : MaximumFlow :=
  set_history (push_el (edge_list g) idx x p :: history g)
              (set_edge_list (push_el (edge_list g) idx x p) g).

(** The history grew by stores of the same shape that satisfy the invariants. *)
Definition hist_ext (c : bool) (g g' : MaximumFlow) : Prop :=
  exists new, history g' = new ++ history g /\
              Forall (fun el => strip el = strip (edge_list g) /\ good c el) new.

(** An augmentation writes [edge_list] (and the ghost [history]) only. *)
Definition flow_touch (g g' : MaximumFlow) : Prop :=
  exists el h, g' = set_history h (set_edge_list el g).

(** A run keeps the vertices, the adjacency lists, the flag and every head and capacity. *)
Definition run_touch (g g' : MaximumFlow) : Prop :=
  vertices g' = vertices g /\ adjacency_list g' = adjacency_list g /\
  has_been_run g' = has_been_run g /\ strip (edge_list g') = strip (edge_list g).

(** The total of the positive capacities: a bound on any net flow. *)
Definition captotal (el : list edge) : Z :=
  zsum (fun i => Z.max 0 (ecap el i)) (length el).

(** ** What DFS establishes *)

(** DFS writes [last] and [edge_list] (and the ghost [history]) only. *)
Definition dfs_touch (g g' : MaximumFlow) : Prop :=
  exists el h l, g' = set_history h (set_last l (set_edge_list el g)).

Record dfs_pre (c : bool) (g : MaximumFlow) : Prop := mkDfsPre {
  dp_wf : wf g;
  dp_dlen : zlen (distances g) = vertices g;
  dp_llen : zlen (last g) = vertices g;
  dp_last : forall v, 0 <= v < vertices g -> 0 <= lastp g v;
  dp_good : good c (edge_list g)
}.

(** The outcome [r] and final instance [g'] of [DFS(u, t, f)] started on [g]. *)
Definition dfs_post (c : bool) (t u : Z) (f : number)
           (g : MaximumFlow) (r : res number) (g' : MaximumFlow) : Prop :=
  dfs_touch g g' /\ dfs_pre c g' /\
  strip (edge_list g') = strip (edge_list g) /\
  hist_ext c g g' /\
  (forall i, 0 <= i < zlen (edge_list g) ->
             dist g (etail (edge_list g) i) < dist g u \/
             dist g (ev (edge_list g) i) < dist g u ->
             eflow (edge_list g') i = eflow (edge_list g) i) /\
  (forall x, 0 <= x < vertices g -> dist g x < dist g u -> lastp g' x = lastp g x) /\
  ((r = Exn RecursionError /\ edge_list g' = edge_list g /\ history g' = history g) \/
   exists p, r = Val p /\
             (is_fin f \/ u <> t -> is_fin p) /\
             (c = true -> num_nonneg f -> num_le p f /\ num_nonneg p) /\
             (forall v, net (edge_list g') v =
                        net (edge_list g) v + (if v =? u then num_val p else 0)
                        - (if v =? t then num_val p else 0)) /\
             (is_zero p = true ->
              edge_list g' = edge_list g /\ history g' = history g)).

(** A path to [t] in the level graph that current-arc DFS can still take:
    every step uses an adjacency position at or after the cursor [last],
    over an entry with residual capacity, to a vertex one level further. *)
Inductive lpath (g : MaximumFlow) (t : Z) : Z -> Prop :=
| lpath_sink : lpath g t t
| lpath_step (u i : Z) :
    0 <= u < vertices g ->
    lastp g u <= i < zlen (adj g u) ->
    0 < ecap (edge_list g) (zn 0 (adj g u) i) - eflow (edge_list g) (zn 0 (adj g u) i) ->
    dist g (ev (edge_list g) (zn 0 (adj g u) i)) = dist g u + 1 ->
    lpath g t (ev (edge_list g) (zn 0 (adj g u) i)) ->
    lpath g t u.

(** What a [DFS(u, t, f)] that returns zero tells: the cursors moved only
    at vertices without such a path, and [u] has none. *)
Definition live_post (t u : Z) (f : number)
           (g : MaximumFlow) (r : res number) (g' : MaximumFlow) : Prop :=
  forall p, r = Val p -> is_zero p = true ->
            (forall x, 0 <= x < vertices g ->
                       lastp g' x = lastp g x \/ (dist g u <= dist g x /\ ~ lpath g t x)) /\
            (num_pos f -> ~ lpath g t u).

(** Position [j] of [u]'s adjacency list starts a path DFS can take. *)
Definition usable (g : MaximumFlow) (t u j : Z) : Prop :=
  0 < ecap (edge_list g) (zn 0 (adj g u) j) - eflow (edge_list g) (zn 0 (adj g u) j) /\
  dist g (ev (edge_list g) (zn 0 (adj g u) j)) = dist g u + 1 /\
  lpath g t (ev (edge_list g) (zn 0 (adj g u) j)).

(** ** Graphs built by add_edge *)

(** Both endpoints of the call are vertices of the instance. *)
Definition valid_call (V : Z) (c : call) : Prop :=
  0 <= c_u c < V /\ 0 <= c_v c < V.

(** [g] is [MaximumFlow(V)] after the calls [cs], each one returning normally. *)
Definition built (V : Z) (cs : list call) (g : MaximumFlow) : Prop :=
  Forall (valid_call V) cs /\ add_edges cs (init V) = (Val tt, g).

(** An instance no run has touched. *)
Record fresh (g : MaximumFlow) : Prop := mkFresh {
  fr_wf : wf g;
  fr_run : has_been_run g = false;
  fr_hist : history g = [];
  fr_flow : Forall (fun e => e_flow e = 0) (edge_list g)
}.

(** The instance after [add_edge(u, v, capacity, directed)] with [u != v] in range. *)
Definition added (g : MaximumFlow) (u v capacity : Z) (directed : bool) : MaximumFlow :=
  let el1 := edge_list g ++ [mkEdge v capacity 0] in
  let al1 := replace_nth (Z.to_nat u) (adj g u ++ [zlen el1 - 1]) (adjacency_list g) in
  let el2 := el1 ++ [mkEdge u (if directed then 0 else capacity) 0] in
  let al2 := replace_nth (Z.to_nat v) (zn [] al1 v ++ [zlen el2 - 1]) al1 in
  set_adjacency_list al2 (set_edge_list el2 g).

(** No call and no entry has a negative capacity. *)
Definition nonneg_calls (cs : list call) : Prop := Forall (fun c => 0 <= c_cap c) cs.
Definition nonneg_caps (g : MaximumFlow) : Prop := Forall (fun e => 0 <= e_cap e) (edge_list g).

(** Fuel that suffices for a run on [g]. *)
Definition enough_fuel (g : MaximumFlow) : nat :=
  S (Z.to_nat (vertices g + captotal (edge_list g))).

(** The run did not return: its loops are still going when they are cut
    off, or a nested call went beyond what the interpreter allows. *)
Definition stopped {A} (r : res A) : Prop := r = Fuel \/ r = Exn RecursionError.

(** What a completed or interrupted run leaves behind; [c] as in [good]. *)
Definition run_post (c : bool) (s t : Z) (lim n : nat)
           (g : MaximumFlow) (r : res number) (g' : MaximumFlow) : Prop :=
  vertices g' = vertices g /\ adjacency_list g' = adjacency_list g /\
  strip (edge_list g') = strip (edge_list g) /\ has_been_run g' = true /\
  good c (edge_list g') /\
  Forall (fun el => strip el = strip (edge_list g) /\ good c el) (history g') /\
  conserved g' s t /\
  (stopped r \/ exists x, r = Val x) /\
  (vertices g <= Z.of_nat lim -> r <> Exn RecursionError) /\
  (s <> t ->
   (forall x, r = Val x -> x = Fin (net (edge_list g') s) /\ saturated_cut g' s t) /\
   (c = true -> (enough_fuel g <= n)%nat -> r <> Fuel)).

(** A computation that never writes [has_been_run] and never raises the rerun error. *)
Definition keeps_flag {A} (m : M A) : Prop :=
  forall g, has_been_run (snd (m g)) = has_been_run g /\ fst (m g) <> Exn RerunError.

(** ** Flow into and out of a vertex *)

(** Each [add_edge(u, v, ...)] call stores its edge [u -> v] at an even
    subscript; the odd entry after it is the residual twin.  The flow
    leaving [v] is summed over the edges with tail [v], the flow entering
    [v] over the edges with head [v]. *)
Definition out_flow (el : list edge) (v : Z) : Z :=
  zsum (fun i => if Z.even i && (etail el i =? v) then eflow el i else 0) (length el).

Definition in_flow (el : list edge) (v : Z) : Z :=
  zsum (fun i => if Z.even i && (ev el i =? v) then eflow el i else 0) (length el).


(** [flow[i] <= capacity[i]] at every subscript of a store. *)
Definition residual_ok (el : list edge) : Prop :=
  forall i, 0 <= i < zlen el -> 0 <= ecap el i - eflow el i.

(** [-capacity[i ^ 1] <= flow[i] <= capacity[i]] at every subscript of a store. *)
Definition within_caps (el : list edge) : Prop :=
  forall i, 0 <= i < zlen el -> - ecap el (Z.lxor i 1) <= eflow el i <= ecap el i.

(** [0 <= flow[i] <= capacity[i]] at every subscript of a store. *)
Definition between_zero_and_cap (el : list edge) : Prop :=
  forall i, 0 <= i < zlen el -> 0 <= eflow el i <= ecap el i.

(** ** Instances as objects *)

(** The objects of a program: an instance is named by its position.
    [copy] is [deepcopy(self)]: a new object with an equal value, which
    shares nothing with the original because every list of an instance is
    created by its own methods. *)
Definition heap : Type := list MaximumFlow.

Definition copy (r : nat) (h : heap) : option (nat * heap) :=
  match nth_error h r with
  | Some g => Some (length h, h ++ [g])
  | None => None
  end.

(** Calling a method on the object at [r]. *)
Definition invoke {A} (r : nat) (m : M A) (h : heap) : option (res A * heap) :=
  match nth_error h r with
  | Some g => Some (fst (m g), replace_nth r (snd (m g)) h)
  | None => None
  end.

(** * Further notions *)

(** ** Subscripts out of range *)

(** [i] is no subscript of a list of length [n]: [l[i]] raises [IndexError]. *)
Definition out_of_range (n i : Z) : Prop := i < - n \/ n <= i.

(** The two entries [add_edge(u, v, capacity, directed)] appends when [u != v]. *)
Definition forward_entry (v capacity : Z) : edge := mkEdge v capacity 0.
Definition reverse_entry (u capacity : Z) (directed : bool) : edge :=
  mkEdge u (if directed then 0 else capacity) 0.

(** The entries a list of calls appends, in the order of the calls. *)
Definition entries_of (cs : list call) : list edge :=
  flat_map (fun c => if c_u c =? c_v c then []
                     else [forward_entry (c_v c) (c_cap c);
                           reverse_entry (c_u c) (c_cap c) (c_directed c)]) cs.

(** ** Residual paths *)

(** [rpath el u w]: [w] can be reached from [u] over entries of [el] that
    have residual capacity left. *)
Inductive rpath (el : list edge) : Z -> Z -> Prop :=
| rpath_here (u : Z) : rpath el u u
| rpath_step (u i w : Z) :
    0 <= i < zlen el -> etail el i = u -> 0 < ecap el i - eflow el i ->
    rpath el (ev el i) w -> rpath el u w.

(** [rpath_len el u w k]: such a path of exactly [k] entries. *)
Inductive rpath_len (el : list edge) : Z -> Z -> nat -> Prop :=
| rpath_len_here (u : Z) : rpath_len el u u 0
| rpath_len_step (u i w : Z) (k : nat) :
    0 <= i < zlen el -> etail el i = u -> 0 < ecap el i - eflow el i ->
    rpath_len el (ev el i) w k -> rpath_len el u w (S k).

(** The queue of [BFS] holds its vertices in the order of their distances. *)
Fixpoint nondecr (g : MaximumFlow) (q : list Z) : Prop :=
  match q with
  | [] => True
  | x :: r => (forall y, In y r -> dist g x <= dist g y) /\ nondecr g r
  end.

(** The levels of a search whose queue is [q]: a labelled vertex is at most
    one level beyond any queued one, and every residual entry out of a
    labelled vertex that has left the queue leads to a labelled vertex at
    most one level further. *)
Definition levels (g : MaximumFlow) (q : list Z) : Prop :=
  (forall x y, In x q -> 0 <= y < vertices g -> dist g y <> -1 ->
               dist g y <= dist g x + 1) /\
  (forall x i, 0 <= x < vertices g -> dist g x <> -1 -> ~ In x q ->
               0 <= i < zlen (edge_list g) -> etail (edge_list g) i = x ->
               0 < ecap (edge_list g) i - eflow (edge_list g) i ->
               dist g (ev (edge_list g) i) <> -1 /\
               dist g (ev (edge_list g) i) <= dist g x + 1).

(** The vertex reached from [v] by following [points[.][0]] back [k] times. *)
Fixpoint back (g : MaximumFlow) (k : nat) (v : Z) : Z :=
  match k with
  | O => v
  | S k' => back g k' (fst (zn (-1, -1) (points g) v))
  end.

(** ** Flows and cuts *)

(** [el] assigns a flow to the network of [g]: the heads and capacities of
    [g], antisymmetric flows within the capacities, conserved at every
    vertex but [s] and [t]. *)
Definition feasible (g : MaximumFlow) (s t : Z) (el : list edge) : Prop :=
  strip el = strip (edge_list g) /\ antisym el /\ capok el /\
  forall v, 0 <= v < vertices g -> v <> s -> v <> t -> net el v = 0.

(** [v] was labelled by the last [BFS]. *)
Definition labelled (g : MaximumFlow) (v : Z) : bool := negb (dist g v =? -1).

(** The capacity of the cut between the labelled vertices and the others. *)
Definition cut_capacity (g : MaximumFlow) : Z :=
  zsum (fun i => if labelled g (etail (edge_list g) i) &&
                    negb (labelled g (ev (edge_list g) i))
                 then ecap (edge_list g) i else 0)
       (length (edge_list g)).

(** * The command-line driver *)

(** [main] reads [maxflow_in.txt].  The file is given by the integers of
    its lines, as [map(int, fp.readline().strip().split())] yields them;
    [readline] past the last line yields no integer.  Text that [int]
    rejects is outside this model. *)

(** [for i in range(k)]: the pairs [v, w] of the line of vertex [u]. *)
Fixpoint main_pairs (u : Z) (tkn : list Z) (js : list Z) : M unit :=
  match js with
  | [] => ret tt
  | i :: rest =>
      v <- getitem tkn (2 * i + 1) ;;
      w <- getitem tkn (2 * i + 2) ;;
      add_edge u v w true ;;;
      main_pairs u tkn rest
  end.

(** [for u in range(V)]: one line for each vertex. *)
Fixpoint main_lines (us : list Z) (lines : list (list Z)) : M unit :=
  match us with
  | [] => ret tt
  | u :: rest =>
      k <- getitem (hd [] lines) 0 ;;
      main_pairs u (hd [] lines) (py_range 0 k) ;;;
      main_lines rest (tl lines)
  end.

(** What [main] ends with: [ValueError] when the first line does not hold
    exactly three integers; otherwise the outcome of
    [mf.dinic(s, t)], whose value is printed, or the exception raised on
    the way, together with the instance [mf]. *)
Inductive main_result : Type :=
| ValueError
| Finished (r : res number) (mf : MaximumFlow).

Definition main (lim fuel : nat) (file : list (list Z)) : main_result :=
  match hd [] file with
  | [V; s; t] =>
      let out := (main_lines (py_range 0 V) (tl file) ;;; dinic lim fuel s t) (init V) in
      Finished (fst out) (snd out)
  | _ => ValueError
  end.

(** The [add_edge] calls a line stands for: [k] and then [k] pairs [v, w],
    each a directed edge from the vertex of the line. *)
Definition line_calls (u : Z) (tkn : list Z) : list call :=
  map (fun i => mkCall u (zn 0 tkn (2 * i + 1)) (zn 0 tkn (2 * i + 2)) true)
      (py_range 0 (zn 0 tkn 0)).

Fixpoint file_calls (u : Z) (lines : list (list Z)) : list call :=
  match lines with
  | [] => []
  | l :: rest => line_calls u l ++ file_calls (u + 1) rest
  end.

(** A line holds its count and at least that many pairs. *)
Definition line_ok (tkn : list Z) : Prop :=
  0 < zlen tkn /\ 2 * zn 0 tkn 0 < zlen tkn.

(** The flow over the entries that lead from the vertex set [inS] to its
    complement. *)
Definition cut_flow (el : list edge) (inS : Z -> bool) : Z :=
  zsum (fun i => if inS (etail el i) && negb (inS (ev el i)) then eflow el i else 0)
       (length el).

(** * The methods on Python numbers *)

(** [add_edge] takes a capacity of type [Number], and the class docstring
    allows [float].  This module embeds the same methods with capacities
    and flows that are any Python [int] or [float]: an [int] is a [Z], a
    [float] an IEEE 754 binary64 value with the operations of the
    processor.  Arithmetic and comparisons mix the two types as Python
    does. *)
Module PyNumber.

Import PrimFloat.

(** ** Numbers *)

Inductive num : Type :=
| PInt (z : Z)
| PFloat (x : float).

(** [INF = float('inf')]. *)
Definition INF : num := PFloat infinity.

(** [float(z)], rounding to the nearest value, ties to even; [None] is
    [OverflowError], raised for an integer beyond the range of [float]. *)
Definition float_of_int (z : Z) : option float :=
  match SpecFloat.binary_normalize FloatOps.prec FloatOps.emax z 0 false with
  | SpecFloat.S754_infinity _ => None
  | sf => Some (FloatOps.SF2Prim sf)
  end.

(** [a + b] and [a - b]: two integers give an integer; otherwise an
    integer operand is converted to [float] first. *)
Definition arith (fz : Z -> Z -> Z) (ff : float -> float -> float) (a b : num) : option num :=
  match a, b with
  | PInt x, PInt y => Some (PInt (fz x y))
  | PFloat x, PFloat y => Some (PFloat (ff x y))
  | PInt x, PFloat y =>
      match float_of_int x with
      | Some x' => Some (PFloat (ff x' y))
      | None => None
      end
  | PFloat x, PInt y =>
      match float_of_int y with
      | Some y' => Some (PFloat (ff x y'))
      | None => None
      end
  end.

Definition num_add : num -> num -> option num := arith Z.add add.
Definition num_sub : num -> num -> option num := arith Z.sub sub.

(** The order of a [float] and an integer, which Python decides on their
    exact values; [None] for a NaN, which compares false with everything. *)
Definition float_cmp_int (x : float) (z : Z) : option comparison :=
  match FloatOps.Prim2SF x with
  | SpecFloat.S754_nan => None
  | SpecFloat.S754_infinity false => Some Gt
  | SpecFloat.S754_infinity true => Some Lt
  | SpecFloat.S754_zero _ => Some (0 ?= z)
  | SpecFloat.S754_finite s m e =>
      let v := if s then Z.neg m else Z.pos m in
      Some (if 0 <=? e then v * 2 ^ e ?= z else v ?= z * 2 ^ (- e))
  end.

(** [a < b]. *)
Definition num_lt (a b : num) : bool :=
  match a, b with
  | PInt x, PInt y => x <? y
  | PFloat x, PFloat y => ltb x y
  | PFloat x, PInt y =>
      match float_cmp_int x y with Some Lt => true | _ => false end
  | PInt x, PFloat y =>
      match float_cmp_int y x with Some Gt => true | _ => false end
  end.

(** [a == b]. *)
Definition num_eq (a b : num) : bool :=
  match a, b with
  | PInt x, PInt y => x =? y
  | PFloat x, PFloat y => eqb x y
  | PFloat x, PInt y =>
      match float_cmp_int x y with Some Eq => true | _ => false end
  | PInt x, PFloat y =>
      match float_cmp_int y x with Some Eq => true | _ => false end
  end.

(** [min(a, b)]: the first argument unless the second is smaller. *)
Definition num_min (a b : num) : num := if num_lt b a then b else a.

(** ** The instance *)

Record edge : Type := mkEdge {
  e_v : Z;
  e_cap : num;
  e_flow : num
}.

Definition with_flow (e : edge) (x : num) : edge :=
  mkEdge (e_v e) (e_cap e) x.

Record MaximumFlow : Type := mkMaximumFlow {
  vertices : Z;
  edge_list : list edge;
  adjacency_list : list (list Z);
  distances : list Z;
  last : list Z;
  points : list (Z * Z);
  has_been_run : bool
}.

Definition set_edge_list (x : list edge) (g : MaximumFlow) : MaximumFlow :=
  mkMaximumFlow (vertices g) x (adjacency_list g) (distances g) (last g)
                (points g) (has_been_run g).

Definition set_adjacency_list (x : list (list Z)) (g : MaximumFlow) : MaximumFlow :=
  mkMaximumFlow (vertices g) (edge_list g) x (distances g) (last g)
                (points g) (has_been_run g).

Definition set_distances (x : list Z) (g : MaximumFlow) : MaximumFlow :=
  mkMaximumFlow (vertices g) (edge_list g) (adjacency_list g) x (last g)
                (points g) (has_been_run g).

Definition set_last (x : list Z) (g : MaximumFlow) : MaximumFlow :=
  mkMaximumFlow (vertices g) (edge_list g) (adjacency_list g) (distances g) x
                (points g) (has_been_run g).

Definition set_points (x : list (Z * Z)) (g : MaximumFlow) : MaximumFlow :=
  mkMaximumFlow (vertices g) (edge_list g) (adjacency_list g) (distances g)
                (last g) x (has_been_run g).

Definition set_has_been_run (x : bool) (g : MaximumFlow) : MaximumFlow :=
  mkMaximumFlow (vertices g) (edge_list g) (adjacency_list g) (distances g)
                (last g) (points g) x.

Definition init (V : Z) : MaximumFlow :=
  mkMaximumFlow V [] (repeat [] (Z.to_nat V)) [] [] [] false.

(** ** The monad *)

Inductive exn : Type :=
| IndexError
| RerunError
| RecursionError
| OverflowError.       (* an integer too large to convert to float *)

Inductive res (A : Type) : Type :=
| Val (a : A)
| Exn (e : exn)
| Fuel.
Arguments Val {A} a.
Arguments Exn {A} e.
Arguments Fuel {A}.

Definition M (A : Type) : Type := MaximumFlow -> res A * MaximumFlow.

Definition ret {A} (a : A) : M A := fun g => (Val a, g).

Definition bind {A B} (m : M A) (k : A -> M B) : M B :=
  fun g =>
    match m g with
    | (Val a, g') => k a g'
    | (Exn e, g') => (Exn e, g')
    | (Fuel, g') => (Fuel, g')
    end.

Definition raise {A} (e : exn) : M A := fun g => (Exn e, g).
Definition out_of_fuel {A} : M A := fun g => (Fuel, g).
Definition gets {X} (f : MaximumFlow -> X) : M X := fun g => (Val (f g), g).
Definition modify (f : MaximumFlow -> MaximumFlow) : M unit := fun g => (Val tt, f g).

#[warnings="-notation-overridden"]
Notation "x <- m ;; k" := (bind m (fun x => k))
  (at level 61, m at next level, right associativity).
#[warnings="-notation-overridden"]
Notation "m ;;; k" := (bind m (fun _ => k))
  (at level 61, right associativity).

Definition or_raise {X} (e : exn) (o : option X) : M X :=
  match o with
  | Some x => ret x
  | None => raise e
  end.

Definition getitem {X} (l : list X) (i : Z) : M X := or_raise IndexError (py_get l i).
Definition setitem {X} (l : list X) (i : Z) (x : X) : M (list X) :=
  or_raise IndexError (py_set l i x).

Definition py_add (a b : num) : M num := or_raise OverflowError (num_add a b).
Definition py_sub (a b : num) : M num := or_raise OverflowError (num_sub a b).

(** [self.edge_list[idx][2] = x]. *)
Definition store_flow (idx : Z) (x : num) : M unit :=
  el <- gets edge_list ;;
  e <- getitem el idx ;;
  el' <- setitem el idx (with_flow e x) ;;
  modify (set_edge_list el').

(** [self.edge_list[idx][2] -= p]. *)
Definition sub_flow (idx : Z) (p : num) : M unit :=
  el <- gets edge_list ;;
  e <- getitem el idx ;;
  x <- py_sub (e_flow e) p ;;
  el' <- setitem el idx (with_flow e x) ;;
  modify (set_edge_list el').

(** [self.adjacency_list[u][i]]. *)
Definition adj_at (u i : Z) : M Z :=
  al <- gets adjacency_list ;;
  a <- getitem al u ;;
  getitem a i.

(** ** BFS *)

Fixpoint BFS_for (u : Z) (adj : list Z) (q : list Z) : M (list Z) :=
  match adj with
  | [] => ret q
  | idx :: rest =>
      el <- gets edge_list ;;
      e <- getitem el idx ;;
      r <- py_sub (e_cap e) (e_flow e) ;;
      b <- (if num_lt (PInt 0) r
            then ds <- gets distances ;; dv <- getitem ds (e_v e) ;; ret (dv =? -1)
            else ret false) ;;
      q' <- (if b : bool
             then
               ds <- gets distances ;;
               du <- getitem ds u ;;
               ds' <- setitem ds (e_v e) (du + 1) ;;
               modify (set_distances ds') ;;;
               ps <- gets points ;;
               ps' <- setitem ps (e_v e) (u, idx) ;;
               modify (set_points ps') ;;;
               ret (q ++ [e_v e])
             else ret q) ;;
      BFS_for u rest q'
  end.

Fixpoint BFS_while (fuel : nat) (q : list Z) (t : Z) : M unit :=
  match fuel with
  | O => out_of_fuel
  | S fuel' =>
      match q with
      | [] => ret tt
      | u :: q' =>
          if u =? t then ret tt
          else
            al <- gets adjacency_list ;;
            adj <- getitem al u ;;
            q'' <- BFS_for u adj q' ;;
            BFS_while fuel' q'' t
      end
  end.

Definition BFS (fuel : nat) (s t : Z) : M bool :=
  V <- gets vertices ;;
  modify (set_distances (repeat (-1) (Z.to_nat V))) ;;;
  ds <- gets distances ;;
  ds' <- setitem ds s 0 ;;
  modify (set_distances ds') ;;;
  modify (set_points (repeat (-1, -1) (Z.to_nat V))) ;;;
  BFS_while fuel [s] t ;;;
  ds <- gets distances ;;
  dt <- getitem ds t ;;
  ret (negb (dt =? -1)).

(** ** send_one_flow *)

Fixpoint send_one_flow (lim : nat) (s t : Z) (f : num) : M num :=
  match lim with
  | O => raise RecursionError
  | S lim' =>
      if s =? t then ret f
      else
        ps <- gets points ;;
        ui <- getitem ps t ;;
        let '(u, idx) := ui in
        el <- gets edge_list ;;
        e <- getitem el idx ;;
        r <- py_sub (e_cap e) (e_flow e) ;;
        pushed <- send_one_flow lim' s u (num_min f r) ;;
        flow <- py_add (e_flow e) pushed ;;
        store_flow idx flow ;;;
        sub_flow (Z.lxor idx 1) pushed ;;;
        ret pushed
  end.

(** ** DFS *)

Fixpoint DFS_for (rec : Z -> Z -> num -> M num)
         (u t : Z) (f : num) (js : list Z) : M num :=
  match js with
  | [] => ret (PInt 0)
  | i :: rest =>
      ls <- gets last ;;
      ls' <- setitem ls u i ;;
      modify (set_last ls') ;;;
      idx <- adj_at u i ;;
      el <- gets edge_list ;;
      e <- getitem el idx ;;
      ds <- gets distances ;;
      dv <- getitem ds (e_v e) ;;
      du <- getitem ds u ;;
      if negb (dv =? du + 1) then DFS_for rec u t f rest
      else
        r <- py_sub (e_cap e) (e_flow e) ;;
        pushed <- rec (e_v e) t (num_min f r) ;;
        if num_eq pushed (PInt 0) then DFS_for rec u t f rest
        else
          flow <- py_add (e_flow e) pushed ;;
          idx1 <- adj_at u i ;;
          store_flow idx1 flow ;;;
          idx2 <- adj_at u i ;;
          sub_flow (Z.lxor idx2 1) pushed ;;;
          ret pushed
  end.

Fixpoint DFS (lim : nat) (u t : Z) (f : num) : M num :=
  match lim with
  | O => raise RecursionError
  | S lim' =>
      if (u =? t) || num_eq f (PInt 0) then ret f
      else
        ls <- gets last ;;
        lu <- getitem ls u ;;
        al <- gets adjacency_list ;;
        a <- getitem al u ;;
        DFS_for (DFS lim') u t f (py_range lu (Z.of_nat (length a)))
  end.

(** ** add_edge *)

Definition add_edge (u v : Z) (capacity : num) (directed : bool) : M unit :=
  if u =? v then ret tt
  else
    modify (fun g => set_edge_list (edge_list g ++ [mkEdge v capacity (PInt 0)]) g) ;;;
    al <- gets adjacency_list ;;
    a <- getitem al u ;;
    el <- gets edge_list ;;
    al' <- setitem al u (a ++ [Z.of_nat (length el) - 1]) ;;
    modify (set_adjacency_list al') ;;;
    modify (fun g => set_edge_list
                       (edge_list g ++
                        [mkEdge u (if directed then PInt 0 else capacity) (PInt 0)]) g) ;;;
    al <- gets adjacency_list ;;
    a <- getitem al v ;;
    el <- gets edge_list ;;
    al' <- setitem al v (a ++ [Z.of_nat (length el) - 1]) ;;
    modify (set_adjacency_list al').

(** ** The run entry points *)

Definition assert_has_not_already_been_run : M unit :=
  b <- gets has_been_run ;;
  if b : bool then raise RerunError
  else modify (set_has_been_run true).

Fixpoint ek_while (lim fuel k : nat) (s t : Z) (mf : num) : M num :=
  match k with
  | O => out_of_fuel
  | S k' =>
      b <- BFS fuel s t ;;
      if b : bool
      then
        f <- send_one_flow lim s t INF ;;
        if num_eq f (PInt 0) then ret mf
        else
          mf' <- py_add mf f ;;
          ek_while lim fuel k' s t mf'
      else ret mf
  end.

Definition edmonds_karp (lim fuel : nat) (s t : Z) : M num :=
  assert_has_not_already_been_run ;;;
  ek_while lim fuel fuel s t (PInt 0).

Fixpoint dinic_inner (lim k : nat) (s t : Z) (f mf : num) : M num :=
  match k with
  | O => out_of_fuel
  | S k' =>
      if num_eq f (PInt 0) then ret mf
      else
        mf' <- py_add mf f ;;
        f' <- DFS lim s t INF ;;
        dinic_inner lim k' s t f' mf'
  end.

Fixpoint dinic_while (lim fuel k : nat) (s t : Z) (mf : num) : M num :=
  match k with
  | O => out_of_fuel
  | S k' =>
      b <- BFS fuel s t ;;
      if b : bool
      then
        V <- gets vertices ;;
        modify (set_last (repeat 0 (Z.to_nat V))) ;;;
        f <- DFS lim s t INF ;;
        mf' <- dinic_inner lim fuel s t f mf ;;
        dinic_while lim fuel k' s t mf'
      else ret mf
  end.

Definition dinic (lim fuel : nat) (s t : Z) : M num :=
  assert_has_not_already_been_run ;;;
  dinic_while lim fuel fuel s t (PInt 0).

(** ** A graph with capacities of type float *)

(** The values of the Python literals [0.3], [0.6] and [0.9], and the two
    neighbours of [0.9], which Python prints as [0.8999999999999999] and
    [0.9000000000000001]. *)
#[warnings="-inexact-float"]
Definition f03 : num := PFloat 0.3%float.

#[warnings="-inexact-float"]
Definition f06 : num := PFloat 0.6%float.

#[warnings="-inexact-float"]
Definition f09 : num := PFloat 0.9%float.

#[warnings="-inexact-float"]
Definition f09_below : num := PFloat 0.8999999999999999%float.

#[warnings="-inexact-float"]
Definition f09_above : num := PFloat 0.9000000000000001%float.

(** [mf = MaximumFlow(4)], then [mf.add_edge(0, 1, 0.9)],
    [mf.add_edge(1, 3, 0.3)], [mf.add_edge(1, 2, 1.0)] and
    [mf.add_edge(2, 3, 1.0)]. *)
Definition float_graph : MaximumFlow :=
  snd ((add_edge 0 1 f09 true ;;;
        add_edge 1 3 f03 true ;;;
        add_edge 1 2 (PFloat 1.0%float) true ;;;
        add_edge 2 3 (PFloat 1.0%float) true) (init 4)).

(** That instance after [edmonds_karp(0, 3)], and after [dinic(0, 3)]. *)
Definition float_after_edmonds_karp : MaximumFlow :=
  snd (edmonds_karp 8 8 0 3 float_graph).

Definition float_after_dinic : MaximumFlow :=
  snd (dinic 8 8 0 3 float_graph).

(** The docstring graph, with its integer capacities. *)
Definition example_graph : MaximumFlow :=
  snd ((add_edge 0 1 (PInt 3) true ;;;
        add_edge 0 2 (PInt 3) true ;;;
        add_edge 1 2 (PInt 3) true) (init 3)).

(** ** Reading the store *)

Definition cap_at (el : list edge) (i : nat) : num :=
  e_cap (nth i el (mkEdge 0 (PInt 0) (PInt 0))).

Definition flow_at (el : list edge) (i : nat) : num :=
  e_flow (nth i el (mkEdge 0 (PInt 0) (PInt 0))).

(** The flows of the edges that leave [v], and of those that enter it:
    [add_edge(u, v, ...)] stores its edge at an even subscript [i], with
    head [v], and its tail [u] is the head of entry [i + 1]. *)
Fixpoint out_flows (el : list edge) (v : Z) : list num :=
  match el with
  | e :: e' :: rest =>
      (if e_v e' =? v then [e_flow e] else []) ++ out_flows rest v
  | _ => []
  end.

Fixpoint in_flows (el : list edge) (v : Z) : list num :=
  match el with
  | e :: e' :: rest =>
      (if e_v e =? v then [e_flow e] else []) ++ in_flows rest v
  | _ => []
  end.

(** The numbers of a list added up with Python's [+], from the left and
    starting from the integer 0. *)
Fixpoint add_up_from (acc : num) (l : list num) : option num :=
  match l with
  | [] => Some acc
  | x :: rest =>
      match num_add acc x with
      | Some acc' => add_up_from acc' rest
      | None => None
      end
  end.

Definition add_up (l : list num) : option num := add_up_from (PInt 0) l.

(** The exact value of a finite number, in units of [2 ^ -1074] (every
    finite [float] is a multiple of that unit). *)
Definition exact_value (a : num) : option Z :=
  match a with
  | PInt z => Some (z * 2 ^ 1074)
  | PFloat x =>
      match FloatOps.Prim2SF x with
      | SpecFloat.S754_zero _ => Some 0
      | SpecFloat.S754_finite s m e =>
          Some ((if s then Z.neg m else Z.pos m) * 2 ^ (e + 1074))
      | _ => None
      end
  end.

(** The exact sum of finite numbers, in the same units. *)
Fixpoint exact_sum (l : list num) : option Z :=
  match l with
  | [] => Some 0
  | x :: rest =>
      match exact_value x, exact_sum rest with
      | Some a, Some b => Some (a + b)
      | _, _ => None
      end
  end.

End PyNumber.

(** ** Integers among the Python numbers *)

(** An instance with integer capacities and flows, as an instance over
    Python numbers: every capacity and flow [z] is the [int] [z]; the ghost
    [history] has no counterpart. *)
Definition py_number (x : number) : PyNumber.num :=
  match x with
  | Fin z => PyNumber.PInt z
  | INF => PyNumber.INF
  end.

Definition py_edge (e : edge) : PyNumber.edge :=
  PyNumber.mkEdge (e_v e) (PyNumber.PInt (e_cap e)) (PyNumber.PInt (e_flow e)).

Definition py_instance (g : MaximumFlow) : PyNumber.MaximumFlow :=
  PyNumber.mkMaximumFlow (vertices g) (map py_edge (edge_list g)) (adjacency_list g)
                         (distances g) (last g) (points g) (has_been_run g).

(** The outcome over Python numbers that an outcome over the integers
    stands for.  [NonIntegerFlow] stands for none: there Python stores
    [float('inf')] as a flow and goes on. *)
Definition py_res {A B} (f : A -> B) (r : res A) : option (PyNumber.res B) :=
  match r with
  | Val a => Some (PyNumber.Val (f a))
  | Exn IndexError => Some (PyNumber.Exn PyNumber.IndexError)
  | Exn RerunError => Some (PyNumber.Exn PyNumber.RerunError)
  | Exn RecursionError => Some (PyNumber.Exn PyNumber.RecursionError)
  | Exn NonIntegerFlow => None
  | Fuel => Some PyNumber.Fuel
  end.

(** [m'] over Python numbers does on integers what [m] does: from the
    image of any instance it ends with the image of the outcome of [m]
    in the image of the instance [m] ends in. *)
Definition refines {A B} (f : A -> B) (m : M A) (m' : PyNumber.M B) : Prop :=
  forall g,
    match py_res f (fst (m g)) with
    | Some r' => m' (py_instance g) = (r', py_instance (snd (m g)))
    | None => True
    end.

(** The calls of a list in order, with their capacities as Python integers. *)
Fixpoint py_add_edges (cs : list call) : PyNumber.M unit :=
  match cs with
  | [] => PyNumber.ret tt
  | c :: rest =>
      PyNumber.bind
        (PyNumber.add_edge (c_u c) (c_v c) (PyNumber.PInt (c_cap c)) (c_directed c))
        (fun _ => py_add_edges rest)
  end.

(** What a computation returns, when it returns. *)
Definition returns {A} (P : A -> Prop) (m : M A) : Prop :=
  forall g a g', m g = (Val a, g') -> P a.

(** The bound a top-level [send_one_flow(s, t)] or [DFS(s, t)] returns,
    and the total [mf] of a run: with [s == t] the bound comes back as it
    is, [float('inf')], and the total is 0 or [float('inf')]; otherwise
    both are integers. *)
Definition pushed_ok (s t : Z) (f : number) : Prop :=
  (s = t -> f = INF) /\ (s <> t -> is_fin f).

Definition total_ok (s t : Z) (mf : number) : Prop :=
  (s = t -> mf = Fin 0 \/ mf = INF) /\ (s <> t -> is_fin mf).
(** ** Subscripts in range *)

Lemma py_index_in (len : nat) (i : Z) :
  0 <= i < Z.of_nat len -> py_index len i = Some (Z.to_nat i).
Proof.
  intros H. unfold py_index.
  destruct (0 <=? i) eqn:E1; [|lia]. destruct (i <? Z.of_nat len) eqn:E2; [|lia].
  reflexivity.
Qed.

Lemma py_index_nonneg (len : nat) (i : Z) (k : nat) :
  0 <= i -> py_index len i = Some k -> i < Z.of_nat len /\ k = Z.to_nat i.
Proof.
  intros H. unfold py_index.
  destruct (0 <=? i) eqn:E1; [|lia]. destruct (i <? Z.of_nat len) eqn:E2; simpl.
  - intros [= <-]. lia.
  - destruct (- Z.of_nat len <=? i); simpl; try discriminate.
    destruct (i <? 0) eqn:E3; [lia|discriminate].
Qed.

Lemma py_get_in {X} (d : X) (l : list X) (i : Z) :
  0 <= i < zlen l -> py_get l i = Some (zn d l i).
Proof.
  intros H. unfold py_get, zn, zlen in *. rewrite py_index_in by lia.
  apply nth_error_nth'. lia.
Qed.

Lemma py_get_nonneg {X} (d : X) (l : list X) (i : Z) (x : X) :
  0 <= i -> py_get l i = Some x -> i < zlen l /\ x = zn d l i.
Proof.
  intros H. unfold py_get.
  destruct (py_index (length l) i) as [k|] eqn:E; [|discriminate].
  apply py_index_nonneg in E; auto. destruct E as [E1 ->]. intros E.
  split; auto. unfold zn. symmetry. now apply nth_error_nth.
Qed.

Lemma py_set_in {X} (l : list X) (i : Z) (x : X) :
  0 <= i < zlen l -> py_set l i x = Some (replace_nth (Z.to_nat i) x l).
Proof.
  intros H. unfold py_set, zlen in *. now rewrite py_index_in by lia.
Qed.

Lemma replace_nth_length {X} (k : nat) (x : X) (l : list X) :
  length (replace_nth k x l) = length l.
Proof.
  revert k. induction l as [|y l IH]; intros [|k]; simpl; auto.
Qed.

Lemma nth_replace_nth {X} (d : X) (k j : nat) (x : X) (l : list X) :
  (k < length l)%nat ->
  nth j (replace_nth k x l) d = if Nat.eqb j k then x else nth j l d.
Proof.
  revert k j. induction l as [|y l IH]; intros [|k] [|j]; simpl; intros H; try lia; auto.
  apply IH. lia.
Qed.

Lemma zlen_replace {X} (k : nat) (x : X) (l : list X) :
  zlen (replace_nth k x l) = zlen l.
Proof. unfold zlen. now rewrite replace_nth_length. Qed.

Lemma zn_replace {X} (d : X) (i j : Z) (x : X) (l : list X) :
  0 <= i < zlen l -> 0 <= j ->
  zn d (replace_nth (Z.to_nat i) x l) j = if j =? i then x else zn d l j.
Proof.
  intros Hi Hj. unfold zn, zlen in *. rewrite nth_replace_nth by lia.
  destruct (j =? i) eqn:E.
  - apply Z.eqb_eq in E. subst. now rewrite Nat.eqb_refl.
  - apply Z.eqb_neq in E. destruct (Nat.eqb (Z.to_nat j) (Z.to_nat i)) eqn:E2; auto.
    apply Nat.eqb_eq in E2. lia.
Qed.

Lemma zn_repeat {X} (d x : X) (n : nat) (i : Z) :
  0 <= i < Z.of_nat n -> zn d (repeat x n) i = x.
Proof.
  intros H. unfold zn. apply nth_repeat_lt. lia.
Qed.

Lemma zlen_repeat {X} (x : X) (n : nat) : zlen (repeat x n) = Z.of_nat n.
Proof. unfold zlen. now rewrite repeat_length. Qed.

Lemma zn_app_l {X} (d : X) (l l' : list X) (i : Z) :
  0 <= i < zlen l -> zn d (l ++ l') i = zn d l i.
Proof. intros H. unfold zn, zlen in *. apply app_nth1. lia. Qed.

Lemma zn_app_r {X} (d : X) (l l' : list X) (i : Z) :
  zlen l <= i -> zn d (l ++ l') i = zn d l' (i - zlen l).
Proof.
  intros H. unfold zn, zlen in *. rewrite app_nth2 by lia.
  f_equal. lia.
Qed.

Lemma zlen_app {X} (l l' : list X) : zlen (l ++ l') = zlen l + zlen l'.
Proof. unfold zlen. rewrite length_app. lia. Qed.

Lemma zlen_nonneg {X} (l : list X) : 0 <= zlen l.
Proof. unfold zlen. lia. Qed.

Lemma in_py_range (a b i : Z) : In i (py_range a b) <-> a <= i < b.
Proof.
  unfold py_range. rewrite in_map_iff. split.
  - intros (k & <- & Hk). apply in_seq in Hk. lia.
  - intros H. exists (Z.to_nat (i - a)). split; [lia|]. apply in_seq. lia.
Qed.

(** ** The paired entry *)

Lemma mate_even (j : Z) : mate (2 * j) = 2 * j + 1.
Proof.
  unfold mate. rewrite <- Z.add_nocarry_lxor; auto.
  apply Z.bits_inj'. intros n Hn. rewrite Z.land_spec, Z.bits_0.
  destruct (Z.eq_dec n 0) as [->|Hne].
  - rewrite Z.testbit_even_0. reflexivity.
  - rewrite (Z.bits_above_log2 1 n); [apply andb_false_r|lia|simpl; lia].
Qed.

Lemma mate_involutive (i : Z) : mate (mate i) = i.
Proof.
  unfold mate. rewrite Z.lxor_assoc. rewrite Z.lxor_nilpotent. apply Z.lxor_0_r.
Qed.

Lemma mate_odd (j : Z) : mate (2 * j + 1) = 2 * j.
Proof. rewrite <- mate_even. apply mate_involutive. Qed.

Lemma mate_cases (i : Z) : (Z.even i = true /\ mate i = i + 1) \/ (Z.even i = false /\ mate i = i - 1).
Proof.
  destruct (Z.even i) eqn:E.
  - left. split; auto. apply Z.even_spec in E. destruct E as [j ->]. apply mate_even.
  - right. split; auto. rewrite <- Z.negb_odd in E. apply negb_false_iff in E.
    apply Z.odd_spec in E. destruct E as [j ->]. rewrite mate_odd. lia.
Qed.

Lemma mate_neq (i : Z) : mate i <> i.
Proof. destruct (mate_cases i) as [[_ H]|[_ H]]; lia. Qed.

Lemma mate_range (n i : Z) : Z.even n = true -> 0 <= i < n -> 0 <= mate i < n.
Proof.
  intros Hn Hi. destruct (mate_cases i) as [[E H]|[E H]]; rewrite H.
  - apply Z.even_spec in Hn, E. destruct Hn as [a ->], E as [b ->]. lia.
  - rewrite <- Z.negb_odd in E. apply negb_false_iff in E.
    apply Z.odd_spec in E. destruct E as [b ->]. lia.
Qed.

(** ** Finite sums *)

Lemma zsum_ext (F G : Z -> Z) (n : nat) :
  (forall i, 0 <= i < Z.of_nat n -> F i = G i) -> zsum F n = zsum G n.
Proof.
  induction n as [|n IH]; intros H; simpl; auto.
  rewrite IH, H; auto; intros; try apply H; lia.
Qed.

Lemma zsum_add (F G : Z -> Z) (n : nat) :
  zsum (fun i => F i + G i) n = zsum F n + zsum G n.
Proof. induction n as [|n IH]; simpl; lia. Qed.

Lemma zsum_opp (F : Z -> Z) (n : nat) :
  zsum (fun i => - F i) n = - zsum F n.
Proof. induction n as [|n IH]; simpl; lia. Qed.

Lemma zsum_add_sub (F G H : Z -> Z) (n : nat) :
  zsum F n + zsum G n - zsum H n = zsum (fun i => F i + G i - H i) n.
Proof. induction n as [|n IH]; simpl; lia. Qed.

Lemma zsum_zero (F : Z -> Z) (n : nat) :
  (forall i, 0 <= i < Z.of_nat n -> F i = 0) -> zsum F n = 0.
Proof.
  induction n as [|n IH]; intros H; simpl; auto.
  rewrite IH, H; auto; intros; try apply H; lia.
Qed.

Lemma zsum_le (F G : Z -> Z) (n : nat) :
  (forall i, 0 <= i < Z.of_nat n -> F i <= G i) -> zsum F n <= zsum G n.
Proof.
  induction n as [|n IH]; intros H; simpl; [lia|].
  assert (F (Z.of_nat n) <= G (Z.of_nat n)) by (apply H; lia).
  assert (zsum F n <= zsum G n) by (apply IH; intros; apply H; lia). lia.
Qed.

Lemma zsum_single (F : Z -> Z) (n : nat) (a : Z) :
  0 <= a < Z.of_nat n ->
  (forall i, 0 <= i < Z.of_nat n -> i <> a -> F i = 0) ->
  zsum F n = F a.
Proof.
  induction n as [|n IH]; intros Ha H; [lia|]. simpl.
  destruct (Z.eq_dec a (Z.of_nat n)) as [->|Hne].
  - rewrite zsum_zero; [lia|]. intros i Hi. apply H; lia.
  - rewrite IH; [|lia|intros; apply H; lia]. rewrite (H (Z.of_nat n)); lia.
Qed.

Lemma zsum_swap (F : Z -> Z -> Z) (n m : nat) :
  zsum (fun i => zsum (fun j => F i j) m) n = zsum (fun j => zsum (fun i => F i j) n) m.
Proof.
  induction n as [|n IH]; simpl.
  - symmetry. now apply zsum_zero.
  - rewrite IH. now rewrite <- zsum_add.
Qed.

Lemma zsum_S (F : Z -> Z) (k : nat) : zsum F (S k) = zsum F k + F (Z.of_nat k).
Proof. reflexivity. Qed.

Lemma zsum_pairs (F : Z -> Z) (m : nat) :
  zsum F (2 * m) = zsum (fun j => F (2 * j) + F (2 * j + 1)) m.
Proof.
  induction m as [|m IH]; auto.
  replace (2 * S m)%nat with (S (S (2 * m))) by lia.
  rewrite !zsum_S, IH.
  replace (Z.of_nat (2 * m)) with (2 * Z.of_nat m) by lia.
  replace (Z.of_nat (S (2 * m))) with (2 * Z.of_nat m + 1) by lia. lia.
Qed.

(** Summing over the entries and over their pairs is the same. *)
Lemma zsum_mate (F : Z -> Z) (n : nat) :
  Z.even (Z.of_nat n) = true -> zsum (fun i => F (mate i)) n = zsum F n.
Proof.
  intros H. apply Z.even_spec in H. destruct H as [k Hk].
  assert (n = (2 * Z.to_nat k)%nat) as -> by lia.
  rewrite !zsum_pairs. apply zsum_ext. intros j _.
  rewrite mate_even, mate_odd. lia.
Qed.

Lemma strip_length (el el' : list edge) : strip el' = strip el -> length el' = length el.
Proof.
  intros H. apply (f_equal (@length _)) in H. unfold strip in H. now rewrite !length_map in H.
Qed.

Lemma strip_zlen (el el' : list edge) : strip el' = strip el -> zlen el' = zlen el.
Proof. intros H. unfold zlen. now rewrite (strip_length _ _ H). Qed.

Lemma nth_strip (el : list edge) (k : nat) :
  nth k (strip el) (0, 0) = (e_v (nth k el dummy_edge), e_cap (nth k el dummy_edge)).
Proof. exact (map_nth (fun e => (e_v e, e_cap e)) el dummy_edge k). Qed.

Lemma strip_ev_cap (el el' : list edge) (i : Z) :
  strip el' = strip el -> ev el' i = ev el i /\ ecap el' i = ecap el i.
Proof.
  intros H. unfold ev, ecap, zn.
  assert (nth (Z.to_nat i) (strip el') (0, 0) = nth (Z.to_nat i) (strip el) (0, 0)) as E
      by now rewrite H.
  rewrite !nth_strip in E. injection E as E1 E2. split; assumption.
Qed.

Lemma strip_ev (el el' : list edge) (i : Z) : strip el' = strip el -> ev el' i = ev el i.
Proof. intros H. apply strip_ev_cap, H. Qed.

Lemma strip_ecap (el el' : list edge) (i : Z) : strip el' = strip el -> ecap el' i = ecap el i.
Proof. intros H. apply strip_ev_cap, H. Qed.

Lemma strip_tail (el el' : list edge) (i : Z) : strip el' = strip el -> etail el' i = etail el i.
Proof. intros H. unfold etail. now apply strip_ev. Qed.

(** The net flow after one push of [p] over entry [idx]. *)
Lemma net_push (el el' : list edge) (idx p v : Z) :
  strip el' = strip el ->
  Z.even (zlen el) = true ->
  0 <= idx < zlen el ->
  eflow el' idx = eflow el idx + p ->
  eflow el' (mate idx) = eflow el (mate idx) - p ->
  (forall i, 0 <= i < zlen el -> i <> idx -> i <> mate idx -> eflow el' i = eflow el i) ->
  net el' v = net el v + (if etail el idx =? v then p else 0) - (if ev el idx =? v then p else 0).
Proof.
  intros Hs He Hi H1 H2 H3. unfold net. rewrite (strip_length _ _ Hs).
  pose proof (mate_range _ _ He Hi) as Hm. pose proof (mate_neq idx) as Hn.
  unfold zlen in *.
  assert ((if etail el idx =? v then p else 0) =
          zsum (fun i => if i =? idx then if etail el idx =? v then p else 0 else 0)
               (length el)) as ->.
  { rewrite (zsum_single _ _ idx); auto.
    - now rewrite Z.eqb_refl.
    - intros i _ Hne. apply Z.eqb_neq in Hne. now rewrite Hne. }
  assert ((if ev el idx =? v then p else 0) =
          zsum (fun i => if i =? mate idx then if ev el idx =? v then p else 0 else 0)
               (length el)) as ->.
  { rewrite (zsum_single _ _ (mate idx)); auto.
    - now rewrite Z.eqb_refl.
    - intros i _ Hne. apply Z.eqb_neq in Hne. now rewrite Hne. }
  rewrite zsum_add_sub.
  apply zsum_ext. intros i Hr. rewrite (strip_tail _ _ _ Hs).
  destruct (Z.eq_dec i idx) as [->|E1].
  - rewrite Z.eqb_refl, H1. apply Z.eqb_neq in Hn. rewrite Z.eqb_sym in Hn. rewrite Hn.
    destruct (etail el idx =? v); lia.
  - destruct (Z.eq_dec i (mate idx)) as [->|E2].
    + rewrite Z.eqb_refl, H2. apply Z.eqb_neq in E1. rewrite E1.
      unfold etail. rewrite mate_involutive. destruct (ev el idx =? v); lia.
    + rewrite H3; auto. apply Z.eqb_neq in E1, E2. rewrite E1, E2. lia.
Qed.

(** ** Running the monad *)

Lemma bind_val {A B} (m : M A) (k : A -> M B) (g g1 : MaximumFlow) (a : A) :
  m g = (Val a, g1) -> bind m k g = k a g1.
Proof. intros H. unfold bind. now rewrite H. Qed.

Lemma bind_exn {A B} (m : M A) (k : A -> M B) (g g1 : MaximumFlow) (e : exn) :
  m g = (Exn e, g1) -> bind m k g = (Exn e, g1).
Proof. intros H. unfold bind. now rewrite H. Qed.

Lemma bind_fuel {A B} (m : M A) (k : A -> M B) (g g1 : MaximumFlow) :
  m g = (Fuel, g1) -> bind m k g = (Fuel, g1).
Proof. intros H. unfold bind. now rewrite H. Qed.

Lemma bind_getitem {A B} (d : A) (l : list A) (i : Z) (k : A -> M B) (g : MaximumFlow) :
  0 <= i < zlen l -> bind (getitem l i) k g = k (zn d l i) g.
Proof.
  intros H. apply bind_val. unfold getitem. now rewrite (py_get_in d).
Qed.

Lemma bind_setitem {A B} (l : list A) (i : Z) (x : A) (k : list A -> M B) (g : MaximumFlow) :
  0 <= i < zlen l -> bind (setitem l i x) k g = k (replace_nth (Z.to_nat i) x l) g.
Proof.
  intros H. apply bind_val. unfold setitem. now rewrite py_set_in.
Qed.

Lemma getitem_in {A} (d : A) (l : list A) (i : Z) (g : MaximumFlow) :
  0 <= i < zlen l -> getitem l i g = (Val (zn d l i), g).
Proof. intros H. unfold getitem. now rewrite (py_get_in d). Qed.

(** One step of a computation whose first action is a field read, a field
    write or a return. *)
Ltac mstep_in H :=
  match type of H with
  | bind (gets ?f) ?k ?g = _ => change (bind (gets f) k g) with (k (f g) g) in H; cbv beta in H
  | bind (modify ?f) ?k ?g = _ => change (bind (modify f) k g) with (k tt (f g)) in H; cbv beta in H
  | bind (ret ?a) ?k ?g = _ => change (bind (ret a) k g) with (k a g) in H; cbv beta in H
  end.

Ltac msteps_in H := repeat mstep_in H.

Ltac mstep :=
  match goal with
  | |- bind (gets ?f) ?k ?g = _ => change (bind (gets f) k g) with (k (f g) g); cbv beta
  | |- bind (modify ?f) ?k ?g = _ => change (bind (modify f) k g) with (k tt (f g)); cbv beta
  | |- bind (ret ?a) ?k ?g = _ => change (bind (ret a) k g) with (k a g); cbv beta
  end.

Ltac fields := cbn [vertices edge_list adjacency_list distances last points has_been_run
                    history set_edge_list set_adjacency_list set_distances set_last
                    set_points set_has_been_run set_history] in *.

(** ** Small facts on the invariants *)

Lemma wf_static (g g' : MaximumFlow) :
  wf g -> vertices g' = vertices g -> adjacency_list g' = adjacency_list g ->
  strip (edge_list g') = strip (edge_list g) -> wf g'.
Proof.
  intros [H1 H2 H3 H4 H5] Ev Ea Es.
  pose proof (strip_zlen _ _ Es) as El.
  constructor; rewrite ?Ev, ?Ea, ?El; auto.
  - intros i Hi. rewrite (strip_ev _ _ _ Es). auto.
  - intros u i Hu. unfold adj. rewrite Ea. rewrite (strip_tail _ _ _ Es). now apply H5.
Qed.

Lemma count_unreached_bounds (ds : list Z) : 0 <= count_unreached ds <= zlen ds.
Proof.
  unfold zlen. induction ds as [|d ds IH]; cbn [length count_unreached]; [lia|].
  destruct (d =? -1); lia.
Qed.

Lemma count_unreached_replace (ds : list Z) (k : nat) (x : Z) :
  (k < length ds)%nat -> nth k ds (-1) = -1 -> x <> -1 ->
  count_unreached (replace_nth k x ds) = count_unreached ds - 1.
Proof.
  revert k. induction ds as [|d ds IH]; intros [|k] Hk Hn Hx;
    cbn [length nth replace_nth count_unreached] in *; try lia.
  - subst d. apply Z.eqb_neq in Hx. rewrite Hx. rewrite Z.eqb_refl. lia.
  - rewrite IH; auto; lia.
Qed.

Lemma count_unreached_repeat (n : nat) : count_unreached (repeat (-1) n) = Z.of_nat n.
Proof.
  induction n as [|n IH]; cbn [repeat count_unreached]; [reflexivity|].
  rewrite Z.eqb_refl. lia.
Qed.

Lemma bind_assoc {A B C} (m : M A) (k1 : A -> M B) (k2 : B -> M C) (g : MaximumFlow) :
  bind (bind m k1) k2 g = bind m (fun a => bind (k1 a) k2) g.
Proof.
  unfold bind. destruct (m g) as [[a|e|] g1]; reflexivity.
Qed.

Lemma bfs_touch_refl (g : MaximumFlow) : bfs_touch g g.
Proof. exists (distances g), (points g). now destruct g. Qed.

Lemma bfs_touch_trans (g1 g2 g3 : MaximumFlow) :
  bfs_touch g1 g2 -> bfs_touch g2 g3 -> bfs_touch g1 g3.
Proof. intros (d1 & p1 & ->) (d2 & p2 & ->). now exists d2, p2. Qed.

Lemma bfs_touch_fields (g g' : MaximumFlow) :
  bfs_touch g g' ->
  vertices g' = vertices g /\ edge_list g' = edge_list g /\
  adjacency_list g' = adjacency_list g /\ last g' = last g /\
  has_been_run g' = has_been_run g /\ history g' = history g.
Proof. intros (d & p & ->). repeat split. Qed.

Lemma wf_bfs_touch (g g' : MaximumFlow) : wf g -> bfs_touch g g' -> wf g'.
Proof.
  intros H T. apply bfs_touch_fields in T. destruct T as (E1 & E2 & E3 & _).
  apply (wf_static g); auto. now rewrite E2.
Qed.

Ltac conj := repeat match goal with |- _ /\ _ => split end.

Ltac fold_edge :=
  repeat (change (e_cap (zn dummy_edge ?el ?i)) with (ecap el i) in * ||
          change (e_flow (zn dummy_edge ?el ?i)) with (eflow el i) in * ||
          change (e_v (zn dummy_edge ?el ?i)) with (ev el i) in *).

Ltac mnorm_in H := repeat (rewrite bind_assoc in H || mstep_in H).

Ltac fgoal := cbn [vertices edge_list adjacency_list distances last points has_been_run
                   history set_edge_list set_adjacency_list set_distances set_last
                   set_points set_has_been_run set_history].

(** ** BFS *)

Lemma dist_label (g : MaximumFlow) (u idx v x : Z) :
  0 <= v < zlen (distances g) -> 0 <= x ->
  dist (label g u idx v) x = if x =? v then dist g u + 1 else dist g x.
Proof. intros Hv Hx. unfold dist, label. fields. now apply zn_replace. Qed.

Lemma bfs_inv_label (g : MaximumFlow) (s u idx v : Z) :
  wf g -> bfs_inv g s -> 0 <= s < vertices g ->
  0 <= u < vertices g -> 0 <= dist g u ->
  0 <= idx < zlen (edge_list g) -> etail (edge_list g) idx = u ->
  ev (edge_list g) idx = v -> dist g v = -1 ->
  0 < ecap (edge_list g) idx - eflow (edge_list g) idx ->
  bfs_inv (label g u idx v) s /\
  count_unreached (distances (label g u idx v)) = count_unreached (distances g) - 1.
Proof.
  intros Hwf [D1 D2 D3 D4 D5 D6] Hs Hu Hdu Hidx Ht He Hdv Hres.
  assert (Hv : 0 <= v < vertices g) by (subst v; now apply wf_head).
  assert (Hvd : 0 <= v < zlen (distances g)) by lia.
  assert (Hc : count_unreached (distances (label g u idx v)) = count_unreached (distances g) - 1).
  { unfold label. fields. apply count_unreached_replace.
    - unfold zlen in Hvd. lia.
    - exact Hdv.
    - lia. }
  split; auto. constructor.
  - unfold label; fields. now rewrite zlen_replace.
  - unfold label; fields. now rewrite zlen_replace.
  - rewrite dist_label by lia. destruct (s =? v) eqn:E; auto.
    apply Z.eqb_eq in E. subst. lia.
  - intros x Hx. change (vertices (label g u idx v)) with (vertices g) in Hx.
    rewrite dist_label by lia. destruct (x =? v); auto. lia.
  - intros x Hx. change (vertices (label g u idx v)) with (vertices g) in *.
    rewrite Hc, dist_label by lia. destruct (x =? v).
    + specialize (D5 u Hu). lia.
    + specialize (D5 x Hx). lia.
  - intros x Hx Hxs. change (vertices (label g u idx v)) with (vertices g) in *.
    rewrite dist_label by lia. unfold tree_edge.
    change (edge_list (label g u idx v)) with (edge_list g).
    change (vertices (label g u idx v)) with (vertices g).
    change (points (label g u idx v)) with (replace_nth (Z.to_nat v) (u, idx) (points g)).
    rewrite zn_replace by lia.
    assert (Huv : (u =? v) = false) by (apply Z.eqb_neq; intros ->; lia).
    destruct (x =? v) eqn:E.
    + intros _. apply Z.eqb_eq in E. subst x. rewrite !dist_label by lia.
      rewrite Huv, Z.eqb_refl. conj; auto; lia.
    + intros Hr. specialize (D6 x Hx Hxs Hr). unfold tree_edge in D6.
      destruct (zn (-1, -1) (points g) x) as [u' idx'].
      destruct D6 as (A1 & A2 & A3 & A4 & A5 & A6 & A7).
      rewrite !dist_label by lia. rewrite E.
      assert ((u' =? v) = false) as -> by (apply Z.eqb_neq; intros ->; lia).
      conj; auto; lia.
Qed.

Lemma BFS_for_spec (s u : Z) (adj0 : list Z) :
  forall q g r g',
    BFS_for u adj0 q g = (r, g') ->
    wf g -> bfs_inv g s -> 0 <= s < vertices g ->
    0 <= u < vertices g -> 0 <= dist g u ->
    (forall idx, In idx adj0 ->
                 0 <= idx < zlen (edge_list g) /\ etail (edge_list g) idx = u) ->
    exists new,
      r = Val (q ++ new) /\ bfs_touch g g' /\ bfs_inv g' s /\
      (forall v, 0 <= v < vertices g -> dist g v <> -1 -> dist g' v = dist g v) /\
      (forall v, 0 <= v < vertices g -> dist g' v <> -1 -> dist g v <> -1 \/ In v new) /\
      (forall x, In x new -> 0 <= x < vertices g /\ dist g' x <> -1) /\
      count_unreached (distances g') + zlen new = count_unreached (distances g) /\
      (forall idx, In idx adj0 ->
                   0 < ecap (edge_list g) idx - eflow (edge_list g) idx ->
                   dist g' (ev (edge_list g) idx) <> -1).
Proof.
  induction adj0 as [|idx rest IH]; intros q g r g' H Hwf Hinv Hs Hu Hdu Hadj.
  - cbn [BFS_for] in H. injection H as <- <-. exists []. rewrite app_nil_r.
    conj; auto using bfs_touch_refl; try (intros; contradiction).
    unfold zlen. cbn [length]. lia.
  - cbn [BFS_for] in H. mstep_in H.
    destruct (Hadj idx (or_introl eq_refl)) as [Hidx Htl].
    rewrite (bind_getitem dummy_edge) in H by assumption. fold_edge.
    assert (Hv : 0 <= ev (edge_list g) idx < vertices g) by now apply wf_head.
    pose proof (bi_dlen _ _ Hinv) as Hdl. pose proof (bi_plen _ _ Hinv) as Hpl.
    assert (Hrest : forall i, In i rest ->
                0 <= i < zlen (edge_list g) /\ etail (edge_list g) i = u)
      by (intros; apply Hadj; now right).
    destruct (0 <? ecap (edge_list g) idx - eflow (edge_list g) idx) eqn:Eres.
    + mnorm_in H. rewrite (bind_getitem (-1)) in H by lia. mnorm_in H.
      change (zn (-1) (distances g) (ev (edge_list g) idx))
        with (dist g (ev (edge_list g) idx)) in H.
      destruct (dist g (ev (edge_list g) idx) =? -1) eqn:Edv.
      * mnorm_in H. rewrite (bind_getitem (-1)) in H by lia.
        rewrite bind_assoc, bind_setitem in H by lia. mnorm_in H.
        rewrite bind_setitem in H by (fields; lia). mnorm_in H.
        set (v := ev (edge_list g) idx) in *.
        match type of H with BFS_for _ _ _ ?g1 = _ => change g1 with (label g u idx v) in H end.
        apply Z.eqb_eq in Edv. apply Z.ltb_lt in Eres.
        destruct (bfs_inv_label g s u idx v) as [Hinv1 Hc1]; auto.
        assert (Ht1 : bfs_touch g (label g u idx v)) by (eexists; eexists; reflexivity).
        assert (Hd1 : forall x, 0 <= x -> dist (label g u idx v) x =
                                if x =? v then dist g u + 1 else dist g x)
          by (intros; apply dist_label; lia).
        apply IH in H; auto; try (eapply wf_bfs_touch; eassumption).
        destruct H as (new & -> & T & I & P1 & P2 & P3 & P4 & P5).
        change (vertices (label g u idx v)) with (vertices g) in *.
        change (edge_list (label g u idx v)) with (edge_list g) in *.
        exists (v :: new). rewrite <- app_assoc. conj; auto.
        -- intros x Hx Hr. rewrite P1; auto; rewrite Hd1 by lia.
           ++ destruct (x =? v) eqn:E; auto. apply Z.eqb_eq in E. congruence.
           ++ destruct (x =? v); lia.
        -- intros x Hx Hr. destruct (P2 x Hx Hr) as [Hr1|Hin]; [|right; now right].
           rewrite Hd1 in Hr1 by lia. destruct (x =? v) eqn:E; auto.
           apply Z.eqb_eq in E. right. now left.
        -- intros x [<-|Hin]; auto. split; auto. rewrite P1; auto; rewrite Hd1 by lia;
           rewrite Z.eqb_refl; lia.
        -- unfold zlen in *. cbn [length] in *. lia.
        -- intros i [<-|Hin] Hres; auto.
           fold v. rewrite P1; auto; rewrite Hd1 by lia; rewrite Z.eqb_refl; lia.
        -- rewrite Hd1 by lia. destruct (u =? v); lia.
      * mnorm_in H. apply Z.eqb_neq in Edv.
        apply IH in H; auto. destruct H as (new & -> & T & I & P1 & P2 & P3 & P4 & P5).
        exists new. conj; auto.
        intros i [<-|Hin] Hres; auto. rewrite P1; auto.
    + mnorm_in H. apply Z.ltb_ge in Eres.
      apply IH in H; auto. destruct H as (new & -> & T & I & P1 & P2 & P3 & P4 & P5).
      exists new. conj; auto.
      intros i [<-|Hin] Hres; auto. lia.
Qed.

Lemma closed_mono (g g' : MaximumFlow) (v : Z) :
  wf g -> bfs_touch g g' ->
  (forall x, 0 <= x < vertices g -> dist g x <> -1 -> dist g' x = dist g x) ->
  closed g v -> closed g' v.
Proof.
  intros Hwf T Hd Hc. apply bfs_touch_fields in T. destruct T as (_ & Ee & _).
  unfold closed. rewrite Ee. intros i Hi Ht Hr.
  specialize (Hc i Hi Ht Hr). rewrite Hd; auto. now apply wf_head.
Qed.

Lemma BFS_while_spec (s t : Z) (n : nat) :
  forall q g r g',
    BFS_while n q t g = (r, g') ->
    wf g -> bfs_inv g s -> 0 <= s < vertices g ->
    (forall x, In x q -> 0 <= x < vertices g /\ dist g x <> -1) ->
    (forall v, 0 <= v < vertices g -> dist g v <> -1 -> In v q \/ closed g v) ->
    bfs_touch g g' /\ bfs_inv g' s /\ (r = Val tt \/ r = Fuel) /\
    (count_unreached (distances g) + zlen q < Z.of_nat n -> r = Val tt) /\
    (r = Val tt ->
     dist g' t <> -1 \/
     (forall v, 0 <= v < vertices g -> dist g' v <> -1 -> closed g' v)).
Proof.
  induction n as [|n IH]; intros q g r g' H Hwf Hinv Hs Hq Hcl.
  - cbn [BFS_while] in H. injection H as <- <-.
    pose proof (count_unreached_bounds (distances g)). pose proof (zlen_nonneg q).
    conj; auto using bfs_touch_refl; try lia. discriminate.
  - cbn [BFS_while] in H. destruct q as [|u q].
    + injection H as <- <-. conj; auto using bfs_touch_refl.
      intros _. right. intros v Hv Hr. destruct (Hcl v Hv Hr) as [[]|]; auto.
    + destruct (Hq u (or_introl eq_refl)) as [Hu Hru].
      destruct (u =? t) eqn:Eut.
      * apply Z.eqb_eq in Eut. subst u. injection H as <- <-.
        conj; auto using bfs_touch_refl.
      * mstep_in H. rewrite (bind_getitem []) in H by (rewrite (wf_adj_len _ Hwf); lia).
        change (zn [] (adjacency_list g) u) with (adj g u) in H.
        destruct (BFS_for u (adj g u) q g) as [r1 g1] eqn:E1.
        pose proof (bi_lo _ _ Hinv u Hu) as Hlo.
        pose proof E1 as E1'.
        apply (BFS_for_spec s) in E1'; auto; try lia.
        2:{ intros i Hi. now apply (wf_adj _ Hwf). }
        destruct E1' as (new & -> & T & I & P1 & P2 & P3 & P4 & P5).
        rewrite (bind_val _ _ _ _ _ E1) in H.
        pose proof (bfs_touch_fields _ _ T) as (Ev & Ee & _).
        apply IH in H; auto.
        -- destruct H as (T2 & I2 & R & F & C). rewrite Ev in C.
           conj; auto.
           ++ eapply bfs_touch_trans; eauto.
           ++ intros Hm. apply F. rewrite zlen_app. unfold zlen in *. cbn [length] in Hm. lia.
        -- eapply wf_bfs_touch; eauto.
        -- now rewrite Ev.
        -- rewrite Ev. intros x Hx. apply in_app_or in Hx. destruct Hx as [Hx|Hx]; auto.
           destruct (Hq x (or_intror Hx)) as [A B]. split; auto. rewrite P1; auto.
        -- rewrite Ev. intros v Hv Hr. destruct (P2 v Hv Hr) as [Hr0|Hin].
           ++ destruct (Hcl v Hv Hr0) as [[<-|Hin]|Hc].
              ** right. unfold closed. rewrite Ee. intros i Hi Ht Hres. apply P5; auto.
                 now apply (wf_adj _ Hwf).
              ** left. apply in_or_app. now left.
              ** right. eapply closed_mono; eauto.
           ++ left. apply in_or_app. now right.
Qed.

Lemma BFS_spec (n : nat) (s t : Z) (g : MaximumFlow) (r : res bool) (g' : MaximumFlow) :
  BFS n s t g = (r, g') ->
  wf g -> 0 <= s < vertices g -> 0 <= t < vertices g ->
  bfs_touch g g' /\ (r = Fuel \/ exists b, r = Val b) /\
  (vertices g < Z.of_nat n -> exists b, r = Val b) /\
  (forall b, r = Val b ->
             bfs_inv g' s /\ b = negb (dist g' t =? -1) /\
             (b = false -> saturated_cut g' s t)).
Proof.
  intros H Hwf Hs Ht. unfold BFS in H. mnorm_in H.
  pose proof (wf_V _ Hwf) as HV.
  rewrite bind_setitem in H by (fields; rewrite zlen_repeat; lia). mnorm_in H. fields.
  match type of H with bind _ _ ?g0 = _ => set (g0' := g0) in H end.
  assert (T0 : bfs_touch g g0') by (eexists; eexists; reflexivity).
  assert (Hd0 : forall x, 0 <= x < vertices g -> dist g0' x = if x =? s then 0 else -1).
  { intros x Hx. unfold dist, g0'. fields. rewrite zn_replace by (rewrite ?zlen_repeat; lia).
    destruct (x =? s); auto. apply zn_repeat. lia. }
  assert (Hc0 : count_unreached (distances g0') = vertices g - 1).
  { unfold g0'. fields. rewrite count_unreached_replace.
    - rewrite count_unreached_repeat. lia.
    - rewrite repeat_length. lia.
    - apply nth_repeat_lt. lia.
    - lia. }
  assert (I0 : bfs_inv g0' s).
  { constructor; change (vertices g0') with (vertices g).
    - unfold g0'. fields. rewrite zlen_replace, zlen_repeat. lia.
    - unfold g0'. fields. rewrite zlen_repeat. lia.
    - rewrite Hd0 by lia. now rewrite Z.eqb_refl.
    - intros v Hv. rewrite Hd0 by lia. destruct (v =? s); lia.
    - intros v Hv. rewrite Hd0, Hc0 by lia. destruct (v =? s); lia.
    - intros v Hv Hne. rewrite Hd0 by lia. apply Z.eqb_neq in Hne. rewrite Hne. congruence. }
  destruct (BFS_while n [s] t g0') as [r1 g1] eqn:E1.
  pose proof E1 as E1'.
  apply (BFS_while_spec s) in E1'; auto.
  - destruct E1' as (T1 & I1 & R1 & F1 & C1).
    pose proof (bfs_touch_trans _ _ _ T0 T1) as T.
    pose proof (bfs_touch_fields _ _ T) as (Ev & Ee & _).
    destruct R1 as [-> | ->].
    + rewrite (bind_val _ _ _ _ _ E1) in H. mnorm_in H.
      rewrite (bind_getitem (-1)) in H by (rewrite (bi_dlen _ _ I1); lia).
      injection H as <- <-. change (zn (-1) (distances g1) t) with (dist g1 t).
      conj; eauto.
      intros b [= <-]. conj; auto. intros Hb. apply negb_false_iff, Z.eqb_eq in Hb.
      destruct (C1 eq_refl) as [C|C]; [congruence|].
      change (vertices g0') with (vertices g) in C.
      unfold saturated_cut. rewrite Ev. conj; auto.
      rewrite (bi_src _ _ I1). lia.
    + rewrite (bind_fuel _ _ _ _ E1) in H. injection H as <- <-.
      conj; auto. intros Hn. assert (@Fuel unit = Val tt); [|discriminate].
      apply F1. rewrite Hc0. unfold zlen. cbn [length]. lia.
      discriminate.
  - eapply wf_bfs_touch; eauto.
  - intros x [<-|[]]. change (vertices g0') with (vertices g). split; auto.
    rewrite Hd0 by lia. rewrite Z.eqb_refl. lia.
  - change (vertices g0') with (vertices g). intros v Hv Hr. left. left.
    rewrite Hd0 in Hr by lia. destruct (v =? s) eqn:E; [|congruence].
    apply Z.eqb_eq in E. auto.
Qed.

(** ** One flow update *)

Lemma eflow_replace (el : list edge) (i j x : Z) :
  0 <= i < zlen el -> 0 <= j ->
  eflow (replace_nth (Z.to_nat i) (with_flow (zn dummy_edge el i) x) el) j =
  if j =? i then x else eflow el j.
Proof.
  intros Hi Hj. unfold eflow. rewrite zn_replace by lia. now destruct (j =? i).
Qed.

Lemma strip_replace (el : list edge) (k : nat) (x : Z) :
  strip (replace_nth k (with_flow (nth k el dummy_edge) x) el) = strip el.
Proof.
  revert k. induction el as [|e el IH]; intros [|k]; cbn [replace_nth strip map nth]; auto.
  - f_equal. apply IH.
Qed.

Lemma strip_push (el : list edge) (idx x p : Z) : strip (push_el el idx x p) = strip el.
Proof.
  unfold push_el. unfold zn at 1. rewrite strip_replace. unfold zn. apply strip_replace.
Qed.

Lemma eflow_push (el : list edge) (idx x p i : Z) :
  Z.even (zlen el) = true -> 0 <= idx < zlen el -> 0 <= i < zlen el ->
  eflow (push_el el idx x p) i =
  if i =? mate idx then eflow el (mate idx) - p else if i =? idx then x else eflow el i.
Proof.
  intros He Hidx Hi. pose proof (mate_range _ _ He Hidx) as Hm.
  pose proof (mate_neq idx) as Hne. unfold push_el.
  rewrite eflow_replace by (rewrite ?zlen_replace; lia).
  destruct (i =? mate idx) eqn:E.
  - rewrite eflow_replace by lia. apply Z.eqb_neq in Hne. now rewrite Hne.
  - now rewrite eflow_replace by lia.
Qed.

Lemma push_run {B} (g : MaximumFlow) (idx x p : Z) (k : M B) :
  Z.even (zlen (edge_list g)) = true -> 0 <= idx < zlen (edge_list g) ->
  (store_flow idx x ;;; sub_flow (Z.lxor idx 1) p ;;; snapshot ;;; k) g =
  k (pushed g idx x p).
Proof.
  intros He Hidx. pose proof (mate_range _ _ He Hidx) as Hm.
  unfold store_flow, sub_flow, snapshot. rewrite bind_assoc. mstep.
  rewrite bind_assoc, (bind_getitem dummy_edge) by lia.
  rewrite bind_assoc, bind_setitem by lia. mstep.
  rewrite bind_assoc. mstep. fields.
  rewrite bind_assoc, (bind_getitem dummy_edge) by (unfold mate in Hm; rewrite zlen_replace; lia).
  rewrite bind_assoc, bind_setitem by (unfold mate in Hm; rewrite zlen_replace; lia).
  mstep. mstep. reflexivity.
Qed.

Lemma good_push (c : bool) (el : list edge) (idx p : Z) :
  Z.even (zlen el) = true -> 0 <= idx < zlen el -> good c el ->
  (c = true -> 0 <= p <= ecap el idx - eflow el idx) ->
  good c (push_el el idx (eflow el idx + p) p).
Proof.
  intros He Hidx [Ha Hc] Hp. pose proof (mate_range _ _ He Hidx) as Hm.
  pose proof (mate_neq idx) as Hne.
  pose proof (strip_push el idx (eflow el idx + p) p) as Hs.
  split.
  - intros i Hi. rewrite (strip_zlen _ _ Hs) in Hi.
    pose proof (mate_range _ _ He Hi) as Hmi.
    rewrite !eflow_push by (try assumption; lia).
    destruct (Z.eq_dec i idx) as [->|E1].
    + rewrite !Z.eqb_refl. apply Z.eqb_neq in Hne. rewrite Z.eqb_sym in Hne. rewrite Hne.
      specialize (Ha idx Hidx). lia.
    + destruct (Z.eq_dec i (mate idx)) as [->|E2].
      * rewrite Z.eqb_refl, mate_involutive, Z.eqb_refl.
        apply Z.eqb_neq in Hne. rewrite Z.eqb_sym, Hne.
        specialize (Ha idx Hidx). lia.
      * assert (mate i <> mate idx) by (intros E; apply E1; rewrite <- (mate_involutive i), E;
                                        apply mate_involutive).
        assert (mate i <> idx) by (intros E; apply E2; rewrite <- E; symmetry;
                                   apply mate_involutive).
        apply Z.eqb_neq in E1, E2, H, H0. rewrite E1, E2, H, H0. auto.
  - intros Hct i Hi. rewrite (strip_zlen _ _ Hs) in Hi. rewrite (strip_ecap _ _ _ Hs).
    rewrite eflow_push by (try assumption; lia). specialize (Hc Hct). specialize (Hp Hct).
    destruct (i =? mate idx) eqn:E1.
    + apply Z.eqb_eq in E1. subst i. specialize (Hc _ Hm). lia.
    + destruct (i =? idx) eqn:E2.
      * apply Z.eqb_eq in E2. subst i. lia.
      * auto.
Qed.

Lemma net_push_el (el : list edge) (idx p v : Z) :
  Z.even (zlen el) = true -> 0 <= idx < zlen el ->
  net (push_el el idx (eflow el idx + p) p) v =
  net el v + (if etail el idx =? v then p else 0) - (if ev el idx =? v then p else 0).
Proof.
  intros He Hidx. pose proof (mate_range _ _ He Hidx) as Hm.
  pose proof (mate_neq idx) as Hne.
  apply net_push; auto using strip_push.
  - rewrite eflow_push by (try assumption; lia). rewrite Z.eqb_refl.
    apply Z.eqb_neq in Hne. rewrite Z.eqb_sym in Hne. now rewrite Hne.
  - rewrite eflow_push by (try assumption; lia). now rewrite Z.eqb_refl.
  - intros i Hi E1 E2. rewrite eflow_push by (try assumption; lia).
    apply Z.eqb_neq in E1, E2. now rewrite E1, E2.
Qed.

Lemma hist_ext_refl (c : bool) (g : MaximumFlow) : hist_ext c g g.
Proof. exists []. split; auto. Qed.

Lemma hist_ext_trans (c : bool) (g1 g2 g3 : MaximumFlow) :
  strip (edge_list g2) = strip (edge_list g1) ->
  hist_ext c g1 g2 -> hist_ext c g2 g3 -> hist_ext c g1 g3.
Proof.
  intros Hs (n1 & E1 & F1) (n2 & E2 & F2). exists (n2 ++ n1). split.
  - rewrite E2, E1. apply app_assoc.
  - apply Forall_app. split; auto.
    eapply Forall_impl; [|exact F2]. cbv beta. intros el [A B]. split; auto. congruence.
Qed.

Lemma hist_ext_pushed (c : bool) (g : MaximumFlow) (idx p : Z) :
  Z.even (zlen (edge_list g)) = true -> 0 <= idx < zlen (edge_list g) ->
  good c (edge_list g) ->
  (c = true -> 0 <= p <= ecap (edge_list g) idx - eflow (edge_list g) idx) ->
  hist_ext c g (pushed g idx (eflow (edge_list g) idx + p) p).
Proof.
  intros He Hidx Hg Hp. exists [push_el (edge_list g) idx (eflow (edge_list g) idx + p) p].
  split; [reflexivity|]. constructor; auto. split.
  - apply strip_push.
  - now apply good_push.
Qed.

Lemma store_flow_run (g : MaximumFlow) (idx x : Z) :
  0 <= idx < zlen (edge_list g) ->
  store_flow idx x g =
  (Val tt, set_edge_list (replace_nth (Z.to_nat idx)
                            (with_flow (zn dummy_edge (edge_list g) idx) x) (edge_list g)) g).
Proof.
  intros H. unfold store_flow. mstep. rewrite (bind_getitem dummy_edge) by lia.
  rewrite bind_setitem by lia. reflexivity.
Qed.

Lemma sub_flow_run (g : MaximumFlow) (idx p : Z) :
  0 <= idx < zlen (edge_list g) ->
  sub_flow idx p g =
  (Val tt, set_edge_list (replace_nth (Z.to_nat idx)
                            (with_flow (zn dummy_edge (edge_list g) idx)
                                       (eflow (edge_list g) idx - p)) (edge_list g)) g).
Proof.
  intros H. unfold sub_flow. mstep. rewrite (bind_getitem dummy_edge) by lia.
  rewrite bind_setitem by lia. reflexivity.
Qed.

(** ** send_one_flow *)

Lemma flow_touch_refl (g : MaximumFlow) : flow_touch g g.
Proof. exists (edge_list g), (history g). now destruct g. Qed.

Lemma flow_touch_trans (g1 g2 g3 : MaximumFlow) :
  flow_touch g1 g2 -> flow_touch g2 g3 -> flow_touch g1 g3.
Proof. intros (d1 & p1 & ->) (d2 & p2 & ->). now exists d2, p2. Qed.

Lemma flow_touch_pushed (g : MaximumFlow) (idx x p : Z) : flow_touch g (pushed g idx x p).
Proof. eexists; eexists; reflexivity. Qed.

Lemma flow_touch_fields (g g' : MaximumFlow) :
  flow_touch g g' ->
  vertices g' = vertices g /\ adjacency_list g' = adjacency_list g /\
  distances g' = distances g /\ last g' = last g /\ points g' = points g /\
  has_been_run g' = has_been_run g.
Proof. intros (d & p & ->). repeat split. Qed.

Lemma num_le_nmin (p f : number) (x : Z) :
  num_le p (nmin f x) -> num_le p f /\ exists z, p = Fin z /\ z <= x.
Proof.
  destruct p as [a|], f as [b|]; cbn [num_le nmin]; intros H; try contradiction;
    split; auto; try lia; exists a; split; auto; lia.
Qed.

Lemma num_pos_nmin (f : number) (x : Z) : num_pos f -> 0 < x -> num_pos (nmin f x).
Proof. destruct f as [b|]; cbn [num_pos nmin]; lia. Qed.

Lemma send_one_flow_spec (c : bool) (s : Z) (n : nat) :
  forall t f g r g',
    send_one_flow n s t f g = (r, g') ->
    wf g -> bfs_inv g s -> 0 <= s < vertices g -> 0 <= t < vertices g ->
    dist g t <> -1 -> good c (edge_list g) -> num_pos f ->
    flow_touch g g' /\ strip (edge_list g') = strip (edge_list g) /\
    good c (edge_list g') /\ hist_ext c g g' /\
    (forall i, 0 <= i < zlen (edge_list g) ->
               dist g t < dist g (ev (edge_list g) i) \/
               dist g t < dist g (etail (edge_list g) i) ->
               eflow (edge_list g') i = eflow (edge_list g) i) /\
    ((r = Exn RecursionError /\ g' = g) \/
     exists p, r = Val p /\ num_le p f /\ num_pos p /\ (s <> t -> is_fin p) /\
               forall v, net (edge_list g') v =
                         net (edge_list g) v + (if v =? s then num_val p else 0)
                         - (if v =? t then num_val p else 0)) /\
    (dist g t < Z.of_nat n -> r <> Exn RecursionError).
Proof.
  induction n as [|n IH]; intros t f g r g' H Hwf Hinv Hs Ht Hrt Hg Hf.
  - cbn [send_one_flow] in H. injection H as <- <-.
    pose proof (bi_lo _ _ Hinv t Ht).
    conj; auto using flow_touch_refl, hist_ext_refl. lia.
  - cbn [send_one_flow] in H. destruct (s =? t) eqn:Est.
    + apply Z.eqb_eq in Est. subst t. injection H as <- <-.
      conj; auto using flow_touch_refl, hist_ext_refl; [|discriminate].
      right. exists f. conj; auto.
      * destruct f; cbn; auto. lia.
      * congruence.
      * intros v. lia.
    + apply Z.eqb_neq in Est. mstep_in H.
      rewrite (bind_getitem (-1, -1)) in H by (rewrite (bi_plen _ _ Hinv); lia).
      pose proof (bi_tree _ _ Hinv t Ht (not_eq_sym Est) Hrt) as Htree.
      unfold tree_edge in Htree.
      destruct (zn (-1, -1) (points g) t) as [u idx].
      destruct Htree as (Hu & Hdu & Hdt & Hidx & Htl & Hhd & Hres).
      mstep_in H. rewrite (bind_getitem dummy_edge) in H by lia. fold_edge.
      set (el := edge_list g) in *.
      destruct (send_one_flow n s u (nmin f (ecap el idx - eflow el idx)) g)
        as [r1 g1] eqn:E1.
      pose proof E1 as E1'. apply IH in E1'; auto using num_pos_nmin; try lia.
      fold el in E1'.
      destruct E1' as (T1 & S1 & G1 & X1 & F1 & R1 & U1).
      destruct R1 as [[-> ->]|(p1 & -> & Le1 & Pos1 & _ & N1)].
      * rewrite (bind_exn _ _ _ _ _ E1) in H. injection H as <- <-.
        conj; auto. intros Hn. exfalso. apply U1; auto. lia.
      * rewrite (bind_val _ _ _ _ _ E1) in H.
        apply num_le_nmin in Le1. destruct Le1 as (Le1 & pz & -> & Lz).
        cbn [num_pos] in Pos1. cbn [as_int] in H. mstep_in H.
        pose proof (wf_even _ Hwf) as Hev. fold el in Hev.
        pose proof (strip_zlen _ _ S1) as Hl1.
        rewrite push_run in H by (rewrite ?Hl1; auto).
        injection H as <- <-.
        assert (Hsame : eflow (edge_list g1) idx = eflow el idx).
        { apply F1; auto. left. rewrite Hhd. lia. }
        rewrite <- Hsame.
        pose proof (strip_push (edge_list g1) idx (eflow (edge_list g1) idx + pz) pz) as S2.
        assert (Hp : c = true ->
                     0 <= pz <= ecap (edge_list g1) idx - eflow (edge_list g1) idx).
        { intros _. rewrite Hsame, (strip_ecap _ _ _ S1). lia. }
        conj.
        -- eapply flow_touch_trans; eauto using flow_touch_pushed.
        -- cbn [pushed edge_list set_history set_edge_list]. congruence.
        -- cbn [pushed edge_list set_history set_edge_list].
           apply good_push; auto; rewrite Hl1; auto.
        -- eapply hist_ext_trans; eauto. apply hist_ext_pushed; auto; rewrite Hl1; auto.
        -- intros i Hi Hd. cbn [pushed edge_list set_history set_edge_list].
           rewrite eflow_push by (rewrite ?Hl1; auto).
           assert (i <> idx) by (intros ->; rewrite Hhd, Htl in Hd; lia).
           assert (i <> mate idx).
           { intros ->. unfold etail in Hd, Htl. rewrite mate_involutive in Hd.
             rewrite Hhd, Htl in Hd. lia. }
           apply Z.eqb_neq in H, H0. rewrite H, H0. apply F1; auto. lia.
        -- right. exists (Fin pz). conj; auto.
           ++ intros _. now exists pz.
           ++ intros v. cbn [pushed edge_list set_history set_edge_list num_val].
              rewrite net_push_el by (rewrite ?Hl1; auto).
              rewrite N1. cbn [num_val]. rewrite (strip_tail _ _ _ S1), (strip_ev _ _ _ S1).
              rewrite Htl, Hhd. rewrite (Z.eqb_sym u v), (Z.eqb_sym t v). lia.
        -- discriminate.
Qed.

(** ** edmonds_karp *)

Lemma run_touch_refl (g : MaximumFlow) : run_touch g g.
Proof. repeat split. Qed.

Lemma run_touch_trans (g1 g2 g3 : MaximumFlow) :
  run_touch g1 g2 -> run_touch g2 g3 -> run_touch g1 g3.
Proof. intros (A1 & A2 & A3 & A4) (B1 & B2 & B3 & B4). repeat split; congruence. Qed.

Lemma run_touch_bfs (g g' : MaximumFlow) : bfs_touch g g' -> run_touch g g'.
Proof. intros (d & p & ->). repeat split. Qed.

Lemma run_touch_flow (g g' : MaximumFlow) :
  flow_touch g g' -> strip (edge_list g') = strip (edge_list g) -> run_touch g g'.
Proof. intros (d & p & ->) H. repeat split. exact H. Qed.

Lemma wf_run_touch (g g' : MaximumFlow) : wf g -> run_touch g g' -> wf g'.
Proof. intros H (A1 & A2 & A3 & A4). now apply (wf_static g). Qed.

Lemma hist_ext_bfs (c : bool) (g g' : MaximumFlow) : bfs_touch g g' -> hist_ext c g g'.
Proof. intros (d & p & ->). exists []. split; auto. Qed.

Lemma captotal_strip (el el' : list edge) : strip el' = strip el -> captotal el' = captotal el.
Proof.
  intros H. unfold captotal. rewrite (strip_length _ _ H). apply zsum_ext.
  intros i _. now rewrite (strip_ecap _ _ _ H).
Qed.

Lemma net_le_captotal (el : list edge) (v : Z) : capok el -> net el v <= captotal el.
Proof.
  intros H. unfold net, captotal. apply zsum_le. intros i Hi.
  specialize (H i Hi). destruct (etail el i =? v); lia.
Qed.

Lemma ek_while_spec (c : bool) (lim fuel : nat) (s t : Z) (k : nat) :
  forall mf g r g',
    ek_while lim fuel k s t mf g = (r, g') ->
    wf g -> 0 <= s < vertices g -> 0 <= t < vertices g ->
    good c (edge_list g) -> conserved g s t ->
    run_touch g g' /\ good c (edge_list g') /\ hist_ext c g g' /\ conserved g' s t /\
    (stopped r \/ exists x, r = Val x) /\
    (vertices g <= Z.of_nat lim -> r <> Exn RecursionError) /\
    (s <> t -> mf = Fin (net (edge_list g) s) ->
     (forall x, r = Val x -> x = Fin (net (edge_list g') s) /\ saturated_cut g' s t) /\
     (c = true -> vertices g < Z.of_nat fuel ->
      captotal (edge_list g) - net (edge_list g) s < Z.of_nat k -> r <> Fuel)).
Proof.
  induction k as [|k IH]; intros mf g r g' H Hwf Hs Ht Hg Hcons.
  - cbn [ek_while] in H. injection H as <- <-.
    conj; auto using run_touch_refl, hist_ext_refl; try discriminate.
    { left. now left. }
    intros Hst Hmf. split; [discriminate|]. intros Hc _ Hk.
    destruct Hg as [_ Hcap]. pose proof (net_le_captotal _ s (Hcap Hc)). lia.
  - cbn [ek_while] in H. destruct (BFS fuel s t g) as [rb g1] eqn:Eb.
    pose proof Eb as Eb'. apply BFS_spec in Eb'; auto.
    destruct Eb' as (Tb & Rb & Fb & Pb).
    pose proof (bfs_touch_fields _ _ Tb) as (Ev1 & Ee1 & _).
    pose proof (run_touch_bfs _ _ Tb) as RT1.
    destruct Rb as [->|[b ->]].
    { rewrite (bind_fuel _ _ _ _ Eb) in H. injection H as <- <-.
      conj; auto using hist_ext_bfs; try congruence; try discriminate.
      - unfold conserved. rewrite Ev1, Ee1. auto.
      - left. now left.
      - intros Hst Hmf. split; [discriminate|]. intros _ Hf _.
        destruct (Fb Hf). discriminate. }
    rewrite (bind_val _ _ _ _ _ Eb) in H.
    destruct (Pb b eq_refl) as (Inv1 & Hb & Hcut).
    assert (Hwf1 : wf g1) by (eapply wf_run_touch; eauto).
    destruct b.
    + symmetry in Hb. apply negb_true_iff, Z.eqb_neq in Hb.
      destruct (send_one_flow lim s t INF g1) as [r2 g2] eqn:E2.
      pose proof E2 as E2'.
      apply (send_one_flow_spec c) in E2'; auto; try (rewrite ?Ev1, ?Ee1; auto; fail);
        [|exact I].
      rewrite Ee1 in E2'.
      destruct E2' as (T2 & S2 & G2 & X2 & _ & R2 & U2).
      assert (RT2 : run_touch g g2).
      { eapply run_touch_trans; eauto. apply run_touch_flow; auto. now rewrite Ee1. }
      assert (HX2 : hist_ext c g g2).
      { eapply hist_ext_trans; [|apply hist_ext_bfs; eauto|]; auto. now rewrite Ee1. }
      destruct R2 as [[-> ->]|(p & -> & _ & Pos & Fin2 & N2)].
      { rewrite (bind_exn _ _ _ _ _ E2) in H. injection H as <- <-.
        conj; auto.
        - unfold conserved. rewrite Ev1, Ee1. auto.
        - left. now right.
        - intros Hl. apply U2.
          pose proof (bi_hi _ _ Inv1 t) as Hhi. rewrite Ev1 in Hhi.
          pose proof (count_unreached_bounds (distances g1)). specialize (Hhi Ht). lia.
        - intros Hst Hmf. split; discriminate. }
      rewrite (bind_val _ _ _ _ _ E2) in H.
      assert (Hz : is_zero p = false).
      { destruct p as [z|]; auto. cbn in Pos |- *. apply Z.eqb_neq. lia. }
      rewrite Hz in H.
      pose proof (flow_touch_fields _ _ T2) as (Ev2 & _).
      assert (Hwf2 : wf g2) by exact (wf_run_touch _ _ Hwf RT2).
      assert (Hcons2 : conserved g2 s t).
      { intros v Hv Hvs Hvt. rewrite N2. apply Z.eqb_neq in Hvs, Hvt. rewrite Hvs, Hvt.
        rewrite Hcons; [lia|congruence|apply Z.eqb_neq; auto|apply Z.eqb_neq; auto]. }
      apply IH in H; auto; try congruence.
      destruct H as (RT3 & G3 & X3 & C3 & R3 & Q3 & L3).
      pose proof RT2 as (A1 & A2 & A3 & A4).
      conj; auto.
      * exact (run_touch_trans _ _ _ RT2 RT3).
      * exact (hist_ext_trans _ _ _ _ A4 HX2 X3).
      * intros Hl. apply Q3. congruence.
      * intros Hst Hmf. destruct (Fin2 Hst) as [pz ->]. cbn [num_val num_pos] in *.
        assert (Hn2 : net (edge_list g2) s = net (edge_list g) s + pz).
        { rewrite N2. rewrite Z.eqb_refl. apply Z.eqb_neq in Hst. rewrite Hst. lia. }
        destruct (L3 Hst) as [L3a L3b].
        { rewrite Hmf, Hn2. reflexivity. }
        split; auto. intros Hc Hf Hk. apply L3b; auto; try congruence.
        rewrite (captotal_strip _ _ A4). lia.
    + injection H as <- <-. conj; auto using hist_ext_bfs; try discriminate.
      * now rewrite Ee1.
      * unfold conserved. rewrite Ev1, Ee1. auto.
      * eauto.
      * intros Hst Hmf. split; [|discriminate]. intros x [= <-]. rewrite Ee1. auto.
Qed.

(** ** DFS *)

Lemma dfs_touch_refl (g : MaximumFlow) : dfs_touch g g.
Proof. exists (edge_list g), (history g), (last g). now destruct g. Qed.

Lemma dfs_touch_trans (g1 g2 g3 : MaximumFlow) :
  dfs_touch g1 g2 -> dfs_touch g2 g3 -> dfs_touch g1 g3.
Proof. intros (a1 & b1 & c1 & ->) (a2 & b2 & c2 & ->). now exists a2, b2, c2. Qed.

Lemma dfs_touch_pushed (g : MaximumFlow) (idx x p : Z) : dfs_touch g (pushed g idx x p).
Proof.
  exists (push_el (edge_list g) idx x p), (push_el (edge_list g) idx x p :: history g), (last g).
  reflexivity.
Qed.

Lemma dfs_touch_fields (g g' : MaximumFlow) :
  dfs_touch g g' ->
  vertices g' = vertices g /\ adjacency_list g' = adjacency_list g /\
  distances g' = distances g /\ points g' = points g /\
  has_been_run g' = has_been_run g.
Proof. intros (a & b & c & ->). repeat split. Qed.

Lemma dfs_touch_dist (g g' : MaximumFlow) (x : Z) : dfs_touch g g' -> dist g' x = dist g x.
Proof. intros (a & b & c & ->). reflexivity. Qed.

Lemma dfs_touch_adj (g g' : MaximumFlow) (x : Z) : dfs_touch g g' -> adj g' x = adj g x.
Proof. intros (a & b & c & ->). reflexivity. Qed.

Lemma run_touch_dfs (g g' : MaximumFlow) :
  dfs_touch g g' -> strip (edge_list g') = strip (edge_list g) -> run_touch g g'.
Proof. intros (a & b & c & ->) H. repeat split. exact H. Qed.

Lemma adj_at_run (g : MaximumFlow) (u i : Z) :
  0 <= u < zlen (adjacency_list g) -> 0 <= i < zlen (adj g u) ->
  adj_at u i g = (Val (zn 0 (adj g u) i), g).
Proof.
  intros Hu Hi. unfold adj_at. mstep. rewrite (bind_getitem []) by lia.
  now apply getitem_in.
Qed.

Lemma zn_In {X} (d : X) (l : list X) (i : Z) : 0 <= i < zlen l -> In (zn d l i) l.
Proof. intros H. unfold zn, zlen in *. apply nth_In. lia. Qed.

Lemma dfs_post_raise (c : bool) (t u : Z) (f : number) (g : MaximumFlow) :
  dfs_pre c g -> dfs_post c t u f g (Exn RecursionError) g.
Proof.
  intros H. unfold dfs_post. conj; auto using dfs_touch_refl, hist_ext_refl.
Qed.

Lemma dfs_post_ret (c : bool) (t u : Z) (f p : number) (g : MaximumFlow) :
  dfs_pre c g -> (is_fin f \/ u <> t -> is_fin p) ->
  (c = true -> num_nonneg f -> num_le p f /\ num_nonneg p) ->
  (u = t \/ num_val p = 0) ->
  dfs_post c t u f g (Val p) g.
Proof.
  intros H H1 H2 H3. unfold dfs_post. conj; auto using dfs_touch_refl, hist_ext_refl.
  right. exists p. conj; auto. intros v. destruct H3 as [-> | ->].
  - lia.
  - destruct (v =? u), (v =? t); lia.
Qed.

(** A state that differs from [g] in [last] only, and there only at or below level [u]. *)
Lemma dfs_post_shift (c : bool) (t u : Z) (f : number) (g : MaximumFlow) (l : list Z)
      (r : res number) (g' : MaximumFlow) :
  (forall x, 0 <= x < vertices g -> dist g x < dist g u ->
             lastp (set_last l g) x = lastp g x) ->
  dfs_post c t u f (set_last l g) r g' -> dfs_post c t u f g r g'.
Proof.
  intros HL (T & P & St & X & F & L & R). unfold dfs_post, dist in *. fields.
  conj; auto.
  intros x Hx Hd. rewrite L; auto.
Qed.

Lemma dfs_touch_last_only (g g' : MaximumFlow) :
  dfs_touch g g' -> edge_list g' = edge_list g -> history g' = history g ->
  g' = set_last (last g') g.
Proof.
  intros (a & b & c & ->). fields. intros -> ->. now destruct g.
Qed.

Lemma num_nonneg_nmin (f : number) (x : Z) : num_nonneg f -> 0 <= x -> num_nonneg (nmin f x).
Proof. destruct f as [b|]; cbn [num_nonneg nmin]; lia. Qed.

Lemma is_zero_fin (p : number) : is_zero p = false -> is_fin p -> exists z, p = Fin z /\ z <> 0.
Proof.
  intros H [z ->]. exists z. split; auto. cbn in H. now apply Z.eqb_neq.
Qed.

Lemma lastp_set (g : MaximumFlow) (u i x : Z) :
  0 <= u < zlen (last g) -> 0 <= x ->
  lastp (set_last (replace_nth (Z.to_nat u) i (last g)) g) x = if x =? u then i else lastp g x.
Proof. intros Hu Hx. unfold lastp. fields. now apply zn_replace. Qed.

Lemma dfs_pre_set_last (c : bool) (g : MaximumFlow) (u i : Z) :
  dfs_pre c g -> 0 <= u < vertices g -> 0 <= i ->
  dfs_pre c (set_last (replace_nth (Z.to_nat u) i (last g)) g).
Proof.
  intros [P1 P2 P3 P4 P5] Hu Hi. constructor; fields; auto.
  - apply (wf_static g); auto.
  - now rewrite zlen_replace.
  - intros v Hv. rewrite lastp_set by lia. destruct (v =? u); auto.
Qed.

Section DFS_loop.
Variables (c : bool) (t : Z) (rec : Z -> Z -> number -> M number).
Hypothesis Hrec :
  forall v f1 g1 r1 g1',
    rec v t f1 g1 = (r1, g1') -> dfs_pre c g1 -> 0 <= v < vertices g1 ->
    (c = true -> num_nonneg f1) -> dfs_post c t v f1 g1 r1 g1'.

Lemma DFS_for_spec (u : Z) (f : number) :
  u <> t -> (c = true -> num_nonneg f) ->
  forall js g r g',
    DFS_for rec u t f js g = (r, g') ->
    dfs_pre c g -> 0 <= u < vertices g ->
    (forall j, In j js -> 0 <= j < zlen (adj g u)) ->
    dfs_post c t u f g r g'.
Proof.
  intros Hut Hf. induction js as [|i rest IH]; intros g r g' H Hpre Hu Hjs.
  - cbn [DFS_for] in H. injection H as <- <-. apply dfs_post_ret; auto.
    + intros _. now exists 0.
    + intros Hc Hn. specialize (Hf Hc). destruct f; cbn in *; lia.
  - cbn [DFS_for] in H. pose proof (Hjs i (or_introl eq_refl)) as Hi1.
    pose proof Hpre as [Hwf Hdl Hll Hlast Hgood].
    mstep_in H. rewrite bind_setitem in H by lia. mstep_in H.
    set (ga := set_last (replace_nth (Z.to_nat u) i (last g)) g) in *.
    assert (Hprea : dfs_pre c ga) by (apply dfs_pre_set_last; auto; lia).
    apply (dfs_post_shift c t u f g (replace_nth (Z.to_nat u) i (last g))).
    { intros x Hx Hd. rewrite lastp_set by lia.
      destruct (x =? u) eqn:E; auto. apply Z.eqb_eq in E. subst. lia. }
    fold ga.
    assert (Hrest : forall j, In j rest -> 0 <= j < zlen (adj ga u))
      by (intros; apply Hjs; now right).
    assert (Hual : 0 <= u < zlen (adjacency_list ga))
      by (unfold ga; fields; rewrite (wf_adj_len _ Hwf); lia).
    rewrite (bind_val _ _ _ _ _ (adj_at_run ga u i Hual Hi1)) in H.
    change (adj ga u) with (adj g u) in H.
    set (idx := zn 0 (adj g u) i) in *.
    assert (Hin : In idx (adj g u)) by now apply zn_In.
    apply (wf_adj _ Hwf u idx Hu) in Hin. destruct Hin as [Hidx Htl].
    mstep_in H. rewrite (bind_getitem dummy_edge) in H by exact Hidx. fold_edge.
    set (el := edge_list g) in *. change (edge_list ga) with el in H.
    pose proof (wf_head _ Hwf idx Hidx) as Hv. fold el in Hv.
    mstep_in H. rewrite (bind_getitem (-1)) in H by (unfold ga; fgoal; lia).
    rewrite (bind_getitem (-1)) in H by (unfold ga; fgoal; lia).
    change (zn (-1) (distances ga) (ev el idx)) with (dist g (ev el idx)) in H.
    change (zn (-1) (distances ga) u) with (dist g u) in H.
    destruct (dist g (ev el idx) =? dist g u + 1) eqn:Elev; cbn [negb] in H.
    2:{ apply IH in H; auto. }
    apply Z.eqb_eq in Elev.
    destruct (rec (ev el idx) t (nmin f (ecap el idx - eflow el idx)) ga)
      as [r1 g1] eqn:E1.
    assert (Hdga : forall x, dist ga x = dist g x) by reflexivity.
    assert (Hres0 : c = true -> 0 <= ecap el idx - eflow el idx).
    { intros Hc. destruct Hgood as [_ Hcap]. specialize (Hcap Hc idx Hidx). lia. }
    pose proof E1 as E1'. apply Hrec in E1'; auto.
    2:{ intros Hc. apply num_nonneg_nmin; auto. }
    destruct E1' as (T1 & P1 & S1 & X1 & F1 & L1 & R1).
    change (edge_list ga) with el in *. change (vertices ga) with (vertices g) in *.
    pose proof (dfs_touch_fields _ _ T1) as (Ev1 & Ea1 & Ed1 & _).
    change (vertices ga) with (vertices g) in Ev1.
    change (adjacency_list ga) with (adjacency_list g) in Ea1.
    destruct R1 as [(-> & Ee1 & Eh1)|(p1 & -> & Fin1 & Le1 & N1 & Z1)].
    { rewrite (bind_exn _ _ _ _ _ E1) in H. injection H as <- <-.
      unfold dfs_post. change (edge_list ga) with el. change (vertices ga) with (vertices g).
      conj; auto.
      - intros j Hj Hd. apply F1; auto. rewrite !Hdga in *. lia.
      - intros x Hx Hd. apply L1; auto. rewrite !Hdga in *. lia. }
    rewrite (bind_val _ _ _ _ _ E1) in H.
    destruct (is_zero p1) eqn:Ez.
    { destruct (Z1 eq_refl) as [Ee1 Eh1].
      pose proof (dfs_touch_last_only _ _ T1 Ee1 Eh1) as Eg1.
      rewrite Eg1 in H. rewrite Eg1 in P1.
      apply IH in H; auto.
      apply dfs_post_shift in H; auto.
      intros x Hx Hd. change (lastp (set_last (last g1) ga) x) with (lastp g1 x).
      apply L1; auto. rewrite !Hdga in *. lia. }
    destruct (is_zero_fin p1 Ez) as (pz & -> & Hpz).
    { apply Fin1. left. destruct f; cbn [nmin]; eexists; reflexivity. }
    cbn [as_int] in H. mstep_in H.
    assert (Hadj1 : adj g1 u = adj g u) by (unfold adj; now rewrite Ea1).
    assert (Hl1 : zlen (edge_list g1) = zlen el) by now apply strip_zlen.
    assert (Hrun : adj_at u i g1 = (Val idx, g1)).
    { unfold idx. rewrite <- Hadj1. apply adj_at_run.
      - rewrite Ea1, (wf_adj_len _ Hwf). lia.
      - now rewrite Hadj1. }
    rewrite (bind_val _ _ _ _ _ Hrun) in H.
    rewrite (bind_val _ _ _ _ _ (store_flow_run g1 idx _ ltac:(lia))) in H.
    match type of H with bind _ _ ?gs = _ => set (g2 := gs) in * end.
    assert (Hadj2 : adj g2 u = adj g u) by exact Hadj1.
    assert (Hrun2 : adj_at u i g2 = (Val idx, g2)).
    { unfold idx. rewrite <- Hadj2. apply (adj_at_run g2).
      - unfold g2; fgoal. rewrite Ea1, (wf_adj_len _ Hwf). lia.
      - now rewrite Hadj2. }
    rewrite (bind_val _ _ _ _ _ Hrun2) in H.
    pose proof (wf_even _ Hwf) as Hev. fold el in Hev.
    pose proof (mate_range _ _ Hev Hidx) as Hm.
    assert (Hm2 : 0 <= Z.lxor idx 1 < zlen (edge_list g2))
      by (unfold g2; fgoal; rewrite zlen_replace, Hl1; exact Hm).
    rewrite (bind_val _ _ _ _ _ (sub_flow_run g2 (Z.lxor idx 1) pz Hm2)) in H.
    unfold snapshot in H. mstep_in H.
    assert (Hsame : eflow (edge_list g1) idx = eflow el idx).
    { apply F1; auto. left. rewrite !Hdga, Htl. lia. }
    clear Hrun2 Hm2 Hadj2. subst g2. rewrite <- Hsame in H.
    match type of H with ret _ ?gs = _ =>
      change gs with (pushed g1 idx (eflow (edge_list g1) idx + pz) pz) in H end.
    injection H as <- <-.
    assert (Hev1 : Z.even (zlen (edge_list g1)) = true) by (rewrite Hl1; exact Hev).
    assert (Hidx1 : 0 <= idx < zlen (edge_list g1)) by lia.
    assert (Hle : c = true -> num_le (Fin pz) f /\ 0 <= pz <= ecap el idx - eflow el idx).
    { intros Hc. destruct (Le1 Hc) as [A B]; [apply num_nonneg_nmin; auto|].
      apply num_le_nmin in A. destruct A as (A & z & [= <-] & Hz). cbn in B. split; auto. }
    assert (Hp : c = true ->
                 0 <= pz <= ecap (edge_list g1) idx - eflow (edge_list g1) idx).
    { intros Hc. rewrite Hsame, (strip_ecap _ _ _ S1). now apply Hle. }
    destruct P1 as [Q1 Q2 Q3 Q4 Q5].
    unfold dfs_post. change (edge_list ga) with el. change (vertices ga) with (vertices g).
    conj.
    + apply (dfs_touch_trans ga g1); auto. apply dfs_touch_pushed.
    + constructor; auto.
      * apply (wf_static g1); auto. apply strip_push.
      * apply good_push; auto.
    + cbn [pushed edge_list set_history set_edge_list]. rewrite strip_push. exact S1.
    + apply (hist_ext_trans c ga g1); auto. now apply hist_ext_pushed.
    + intros j Hj Hd. cbn [pushed edge_list set_history set_edge_list].
      rewrite eflow_push by (try assumption; lia).
      rewrite !Hdga in Hd.
      assert (j <> idx) by (intros ->; rewrite Htl in Hd; lia).
      assert (j <> mate idx).
      { intros ->. unfold etail in Hd, Htl. rewrite mate_involutive in Hd.
        rewrite Htl in Hd. lia. }
      apply Z.eqb_neq in H, H0. rewrite H, H0. apply F1; auto. rewrite !Hdga. lia.
    + intros x Hx Hd. change (lastp (pushed g1 idx (eflow (edge_list g1) idx + pz) pz) x)
        with (lastp g1 x). apply L1; auto. rewrite !Hdga in *. lia.
    + right. exists (Fin pz). conj; auto.
      * intros _. now exists pz.
      * intros Hc Hn. destruct (Hle Hc) as [A B]. split; auto. cbn. lia.
      * intros v. cbn [pushed edge_list set_history set_edge_list num_val].
        rewrite net_push_el by assumption.
        rewrite N1. cbn [num_val]. rewrite (strip_tail _ _ _ S1), (strip_ev _ _ _ S1).
        rewrite Htl. rewrite (Z.eqb_sym u v), (Z.eqb_sym (ev el idx) v). lia.
      * cbn [is_zero]. intros E. apply Z.eqb_eq in E. contradiction.
Qed.
End DFS_loop.

Lemma num_le_refl (f : number) : num_le f f.
Proof. destruct f; cbn; lia. Qed.

Lemma DFS_spec (c : bool) (t : Z) (n : nat) :
  forall u f g r g',
    DFS n u t f g = (r, g') -> dfs_pre c g -> 0 <= u < vertices g ->
    (c = true -> num_nonneg f) -> dfs_post c t u f g r g'.
Proof.
  induction n as [|n IH]; intros u f g r g' H Hpre Hu Hf.
  - cbn [DFS] in H. injection H as <- <-. now apply dfs_post_raise.
  - cbn [DFS] in H. destruct ((u =? t) || is_zero f) eqn:E.
    + injection H as <- <-. apply dfs_post_ret; auto.
      * intros [Hfin|Hne]; auto. apply orb_true_iff in E. destruct E as [E|E].
        -- apply Z.eqb_eq in E. contradiction.
        -- destruct f as [z|]; [now exists z|discriminate].
      * intros Hc Hn. split; auto using num_le_refl.
      * apply orb_true_iff in E. destruct E as [E|E].
        -- left. now apply Z.eqb_eq.
        -- right. destruct f as [z|]; [|discriminate]. cbn in *. now apply Z.eqb_eq.
    + apply orb_false_iff in E. destruct E as [E1 E2]. apply Z.eqb_neq in E1.
      pose proof Hpre as [Hwf Hdl Hll Hlast Hgood].
      mstep_in H. rewrite (bind_getitem 0) in H by lia.
      mstep_in H. rewrite (bind_getitem []) in H by (rewrite (wf_adj_len _ Hwf); lia).
      change (zn [] (adjacency_list g) u) with (adj g u) in H.
      change (zn 0 (last g) u) with (lastp g u) in H.
      eapply DFS_for_spec; eauto.
      intros j Hj. apply in_py_range in Hj. specialize (Hlast u Hu). unfold zlen. lia.
Qed.

(** ** DFS finds a path when there is one *)

(** Cursors that moved only at vertices without a path keep every path. *)
Lemma lpath_keep (g g2 : MaximumFlow) (t x : Z) :
  vertices g2 = vertices g -> edge_list g2 = edge_list g ->
  adjacency_list g2 = adjacency_list g -> distances g2 = distances g ->
  lpath g t x ->
  (forall y, 0 <= y < vertices g -> dist g x <= dist g y ->
             lastp g2 y = lastp g y \/ ~ lpath g t y) ->
  lpath g2 t x.
Proof.
  intros Ev Ee Ea Ed Hp. induction Hp as [|u i Hu Hi Hres Hlev Hp IH]; intros Hy.
  - constructor.
  - assert (Hadj : adj g2 u = adj g u) by (unfold adj; now rewrite Ea).
    assert (Hd : forall y, dist g2 y = dist g y) by (intros; unfold dist; now rewrite Ed).
    assert (Hl : lastp g2 u = lastp g u).
    { destruct (Hy u Hu) as [E|E]; [lia|auto|]. exfalso. apply E.
      eapply lpath_step; eauto. }
    apply (lpath_step g2 t u i); rewrite ?Ev, ?Ee, ?Hadj, ?Hd, ?Hl; auto.
    apply IH. intros y Hyr Hdy. apply Hy; auto. lia.
Qed.

Lemma lpath_level (g : MaximumFlow) (t x : Z) :
  lpath g t x -> x = t \/ (0 <= x < vertices g /\ exists i,
    lastp g x <= i < zlen (adj g x) /\
    0 < ecap (edge_list g) (zn 0 (adj g x) i) - eflow (edge_list g) (zn 0 (adj g x) i) /\
    dist g (ev (edge_list g) (zn 0 (adj g x) i)) = dist g x + 1 /\
    lpath g t (ev (edge_list g) (zn 0 (adj g x) i))).
Proof.
  intros H. destruct H as [|u i Hu Hi Hres Hlev Hp]; auto.
  right. split; auto. exists i. auto.
Qed.

(** The loop body of [DFS] up to the recursive call, on a well-formed instance. *)
Lemma DFS_for_cons (c : bool) (rec : Z -> Z -> number -> M number) (u t : Z) (f : number)
      (i : Z) (rest : list Z) (g : MaximumFlow) :
  dfs_pre c g -> 0 <= u < vertices g -> 0 <= i < zlen (adj g u) ->
  let ga := set_last (replace_nth (Z.to_nat u) i (last g)) g in
  let idx := zn 0 (adj g u) i in
  let el := edge_list g in
  DFS_for rec u t f (i :: rest) g =
  if negb (dist g (ev el idx) =? dist g u + 1) then DFS_for rec u t f rest ga
  else
    (pushed <- rec (ev el idx) t (nmin f (ecap el idx - eflow el idx)) ;;
     if is_zero pushed then DFS_for rec u t f rest
     else
       p <- as_int pushed ;;
       idx1 <- adj_at u i ;;
       store_flow idx1 (eflow el idx + p) ;;;
       idx2 <- adj_at u i ;;
       sub_flow (Z.lxor idx2 1) p ;;;
       snapshot ;;;
       ret pushed) ga.
Proof.
  intros Hpre Hu Hi1 ga idx el. pose proof Hpre as [Hwf Hdl Hll Hlast Hgood].
  cbn [DFS_for]. mstep. rewrite bind_setitem by lia. mstep. fold ga.
  assert (Hual : 0 <= u < zlen (adjacency_list ga))
    by (unfold ga; fgoal; rewrite (wf_adj_len _ Hwf); lia).
  rewrite (bind_val _ _ _ _ _ (adj_at_run ga u i Hual Hi1)).
  change (adj ga u) with (adj g u). fold idx.
  assert (Hin : In idx (adj g u)) by now apply zn_In.
  apply (wf_adj _ Hwf u idx Hu) in Hin. destruct Hin as [Hidx Htl].
  mstep. rewrite (bind_getitem dummy_edge) by exact Hidx. fold_edge.
  change (edge_list ga) with el.
  pose proof (wf_head _ Hwf idx Hidx) as Hv. fold el in Hv.
  mstep. rewrite (bind_getitem (-1)) by (unfold ga; fgoal; lia).
  rewrite (bind_getitem (-1)) by (unfold ga; fgoal; lia).
  change (zn (-1) (distances ga) (ev el idx)) with (dist g (ev el idx)).
  change (zn (-1) (distances ga) u) with (dist g u).
  destruct (negb (dist g (ev el idx) =? dist g u + 1)); reflexivity.
Qed.

(** The flow update that ends a successful iteration. *)
Lemma DFS_push_run (u i pz x : Z) (g1 : MaximumFlow) :
  wf g1 -> 0 <= u < vertices g1 -> 0 <= i < zlen (adj g1 u) ->
  (idx1 <- adj_at u i ;;
   store_flow idx1 x ;;;
   idx2 <- adj_at u i ;;
   sub_flow (Z.lxor idx2 1) pz ;;;
   snapshot ;;;
   ret (Fin pz)) g1 =
  (Val (Fin pz), pushed g1 (zn 0 (adj g1 u) i) x pz).
Proof.
  intros Hwf Hu Hi.
  set (idx := zn 0 (adj g1 u) i).
  assert (Hin : In idx (adj g1 u)) by now apply zn_In.
  apply (wf_adj _ Hwf u idx Hu) in Hin. destruct Hin as [Hidx Htl].
  assert (Hual : 0 <= u < zlen (adjacency_list g1)) by (rewrite (wf_adj_len _ Hwf); lia).
  rewrite (bind_val _ _ _ _ _ (adj_at_run g1 u i Hual Hi)). fold idx.
  rewrite (bind_val _ _ _ _ _ (store_flow_run g1 idx _ Hidx)).
  match goal with |- bind _ _ ?gs = _ => set (g2 := gs) end.
  assert (Hrun2 : adj_at u i g2 = (Val idx, g2)) by (apply (adj_at_run g2); auto).
  rewrite (bind_val _ _ _ _ _ Hrun2).
  pose proof (mate_range _ _ (wf_even _ Hwf) Hidx) as Hm.
  assert (Hm2 : 0 <= Z.lxor idx 1 < zlen (edge_list g2))
    by (unfold g2; fgoal; rewrite zlen_replace; exact Hm).
  rewrite (bind_val _ _ _ _ _ (sub_flow_run g2 (Z.lxor idx 1) pz Hm2)).
  reflexivity.
Qed.

(** ** DFS stays within the recursion limit *)

Section DFS_depth_loop.
Variables (c : bool) (t D lvl : Z) (rec : Z -> Z -> number -> M number).
Hypothesis Hrec :
  forall v f1 g1 r1 g1',
    rec v t f1 g1 = (r1, g1') -> dfs_pre c g1 -> 0 <= v < vertices g1 ->
    (c = true -> num_nonneg f1) -> dfs_post c t v f1 g1 r1 g1'.
Hypothesis Hdeep :
  forall v f1 g1 r1 g1',
    rec v t f1 g1 = (r1, g1') -> dfs_pre c g1 -> 0 <= v < vertices g1 ->
    (c = true -> num_nonneg f1) -> (forall y, 0 <= y < vertices g1 -> dist g1 y < D) ->
    lvl < dist g1 v -> r1 <> Exn RecursionError.

Lemma DFS_for_depth (u : Z) (f : number) :
  (c = true -> num_nonneg f) ->
  forall js g r g',
    DFS_for rec u t f js g = (r, g') -> dfs_pre c g -> 0 <= u < vertices g ->
    dist g u = lvl -> (forall y, 0 <= y < vertices g -> dist g y < D) ->
    (forall j, In j js -> 0 <= j < zlen (adj g u)) ->
    r <> Exn RecursionError.
Proof.
  intros Hf. induction js as [|i rest IH]; intros g r g' H Hpre Hu Hlvl HD Hjs.
  - cbn [DFS_for] in H. injection H as <- <-. discriminate.
  - pose proof (Hjs i (or_introl eq_refl)) as Hi1.
    rewrite (DFS_for_cons c) in H by auto.
    pose proof Hpre as [Hwf Hdl Hll Hlast Hgood].
    set (ga := set_last (replace_nth (Z.to_nat u) i (last g)) g) in *.
    set (idx := zn 0 (adj g u) i) in *. set (el := edge_list g) in *.
    assert (Hprea : dfs_pre c ga) by (apply dfs_pre_set_last; auto; lia).
    assert (Hin : In idx (adj g u)) by now apply zn_In.
    apply (wf_adj _ Hwf u idx Hu) in Hin. destruct Hin as [Hidx Htl].
    pose proof (wf_head _ Hwf idx Hidx) as Hv. fold el in Hv, Hidx, Htl.
    assert (Hrest : forall j, In j rest -> 0 <= j < zlen (adj g u))
      by (intros; apply Hjs; now right).
    destruct (negb (dist g (ev el idx) =? dist g u + 1)) eqn:Elev.
    + apply IH in H; auto.
    + apply negb_false_iff, Z.eqb_eq in Elev.
      destruct (rec (ev el idx) t (nmin f (ecap el idx - eflow el idx)) ga)
        as [r1 g1] eqn:E1.
      assert (Hnn : c = true -> num_nonneg (nmin f (ecap el idx - eflow el idx))).
      { intros Hc. apply num_nonneg_nmin; auto.
        destruct Hgood as [_ Hcap]. specialize (Hcap Hc idx Hidx). fold el in Hcap. lia. }
      pose proof (Hrec _ _ _ _ _ E1 Hprea Hv Hnn) as Hs1.
      pose proof (Hdeep _ _ _ _ _ E1 Hprea Hv Hnn HD) as Hr1.
      assert (Hlv : lvl < dist ga (ev el idx))
        by (change (dist ga (ev el idx)) with (dist g (ev el idx)); lia).
      specialize (Hr1 Hlv).
      destruct Hs1 as (T1 & P1 & S1 & X1 & F1 & L1 & R1).
      destruct R1 as [(-> & _)|(p1 & -> & Fin1 & Le1 & N1 & Z1)]; [contradiction|].
      rewrite (bind_val _ _ _ _ _ E1) in H.
      pose proof (dfs_touch_fields _ _ T1) as (Ev1 & Ea1 & Ed1 & _).
      change (vertices ga) with (vertices g) in *.
      change (adjacency_list ga) with (adjacency_list g) in Ea1.
      change (distances ga) with (distances g) in Ed1.
      assert (Hadj1 : forall x, adj g1 x = adj g x) by (intros; unfold adj; now rewrite Ea1).
      assert (Hd1 : forall x, dist g1 x = dist g x) by (intros; unfold dist; now rewrite Ed1).
      destruct (is_zero p1) eqn:Ez.
      * apply IH in H; auto; try (rewrite ?Ev1, ?Hd1, ?Hadj1; auto; fail).
        intros y Hy. rewrite Hd1. apply HD. congruence.
      * destruct (is_zero_fin p1 Ez) as (pz & -> & Hpz).
        { apply Fin1. left. destruct f; cbn [nmin]; eexists; reflexivity. }
        cbn [as_int] in H. mstep_in H. rewrite DFS_push_run in H.
        -- injection H as <- <-. discriminate.
        -- exact (dp_wf _ _ P1).
        -- now rewrite Ev1.
        -- now rewrite Hadj1.
Qed.
End DFS_depth_loop.

(** [DFS] from a vertex of level [dist u] nests at most [D - dist u] calls
    when every level is below [D]. *)
Lemma DFS_depth (c : bool) (t D : Z) (n : nat) :
  forall u f g r g',
    DFS n u t f g = (r, g') -> dfs_pre c g -> 0 <= u < vertices g ->
    (c = true -> num_nonneg f) -> (forall y, 0 <= y < vertices g -> dist g y < D) ->
    D - dist g u <= Z.of_nat n -> r <> Exn RecursionError.
Proof.
  induction n as [|n IH]; intros u f g r g' H Hpre Hu Hf HD Hn.
  - specialize (HD u Hu). lia.
  - cbn [DFS] in H. destruct ((u =? t) || is_zero f) eqn:E.
    + injection H as <- <-. discriminate.
    + pose proof Hpre as [Hwf Hdl Hll Hlast Hgood].
      mstep_in H. rewrite (bind_getitem 0) in H by lia.
      mstep_in H. rewrite (bind_getitem []) in H by (rewrite (wf_adj_len _ Hwf); lia).
      change (zn [] (adjacency_list g) u) with (adj g u) in H.
      change (zn 0 (last g) u) with (lastp g u) in H.
      apply (DFS_for_depth c t D (dist g u)) in H; auto.
      * apply (DFS_spec c).
      * intros v f1 g1 r1 g1' Hrun Hp1 Hv Hf1 HD1 Hlv. eapply IH; eauto. lia.
      * intros j Hj. apply in_py_range in Hj. specialize (Hlast u Hu). unfold zlen. lia.
Qed.

Section DFS_live_loop.
Variables (t lvl : Z) (rec : Z -> Z -> number -> M number).
Hypothesis Hrec :
  forall v f1 g1 r1 g1',
    rec v t f1 g1 = (r1, g1') -> dfs_pre true g1 -> 0 <= v < vertices g1 ->
    (true = true -> num_nonneg f1) -> dfs_post true t v f1 g1 r1 g1'.
Hypothesis Hlive :
  forall v f1 g1 r1 g1',
    rec v t f1 g1 = (r1, g1') -> dfs_pre true g1 -> 0 <= v < vertices g1 ->
    num_nonneg f1 -> lvl < dist g1 v -> live_post t v f1 g1 r1 g1'.

Lemma DFS_for_live (u : Z) (f : number) :
  u <> t -> num_pos f ->
  forall js g r g',
    DFS_for rec u t f js g = (r, g') -> dfs_pre true g -> 0 <= u < vertices g ->
    dist g u = lvl ->
    (forall j, In j js -> 0 <= j < zlen (adj g u)) ->
    forall p, r = Val p -> is_zero p = true ->
              (forall j, In j js -> ~ usable g t u j) /\
              (forall x, 0 <= x < vertices g -> x <> u ->
                         lastp g' x = lastp g x \/ (lvl < dist g x /\ ~ lpath g t x)).
Proof.
  intros Hut Hf. induction js as [|i rest IH]; intros g r g' H Hpre Hu Hlvl Hjs.
  - cbn [DFS_for] in H. injection H as <- <-.
    intros p _ _. split; auto.
  - pose proof (Hjs i (or_introl eq_refl)) as Hi1.
    rewrite (DFS_for_cons true) in H by auto.
    pose proof Hpre as [Hwf Hdl Hll Hlast Hgood].
    set (ga := set_last (replace_nth (Z.to_nat u) i (last g)) g) in *.
    set (idx := zn 0 (adj g u) i) in *. set (el := edge_list g) in *.
    assert (Hprea : dfs_pre true ga) by (apply dfs_pre_set_last; auto; lia).
    assert (Hlga : forall x, 0 <= x -> lastp ga x = if x =? u then i else lastp g x)
      by (intros; apply lastp_set; lia).
    assert (Hkeep : forall x, lvl < dist g x -> lpath g t x -> lpath ga t x).
    { intros x Hx Hp. apply (lpath_keep g ga t x); auto.
      intros y Hy Hd. left. rewrite Hlga by lia.
      destruct (y =? u) eqn:E; auto. apply Z.eqb_eq in E. subst. lia. }
    assert (Hin : In idx (adj g u)) by now apply zn_In.
    apply (wf_adj _ Hwf u idx Hu) in Hin. destruct Hin as [Hidx Htl].
    pose proof (wf_head _ Hwf idx Hidx) as Hv. fold el in Hv, Hidx, Htl.
    assert (Hrest : forall j, In j rest -> 0 <= j < zlen (adj g u))
      by (intros; apply Hjs; now right).
    assert (Huse : forall j, usable g t u j -> usable ga t u j).
    { intros j (A & B & C).
      assert (K : lvl < dist g (ev (edge_list g) (zn 0 (adj g u) j))) by (rewrite B; lia).
      pose proof (Hkeep _ K C) as K2.
      unfold usable. split; [exact A|]. split; [exact B|exact K2]. }
    destruct (negb (dist g (ev el idx) =? dist g u + 1)) eqn:Elev.
    + pose proof (IH _ _ _ H Hprea Hu Hlvl Hrest) as Hz.
      intros p Hp Hpz. destruct (Hz p Hp Hpz) as [A B]. split.
      * intros j [<-|Hj] Hus.
        -- destruct Hus as (_ & E & _). fold idx el in E.
           apply negb_true_iff, Z.eqb_neq in Elev. contradiction.
        -- apply (A j Hj). auto.
      * intros x Hx Hxu. destruct (B x Hx Hxu) as [E|[E1 E2]].
        -- left. rewrite E, Hlga by lia. apply Z.eqb_neq in Hxu. now rewrite Hxu.
        -- right. split; auto.
    + apply negb_false_iff, Z.eqb_eq in Elev.
      assert (Hres0 : 0 <= ecap el idx - eflow el idx).
      { destruct Hgood as [_ Hcap]. specialize (Hcap eq_refl idx Hidx). fold el in Hcap. lia. }
      destruct (rec (ev el idx) t (nmin f (ecap el idx - eflow el idx)) ga)
        as [r1 g1] eqn:E1.
      assert (Hnn : num_nonneg (nmin f (ecap el idx - eflow el idx))).
      { apply num_nonneg_nmin; auto. destruct f; cbn in *; lia. }
      pose proof (Hrec _ _ _ _ _ E1 Hprea Hv (fun _ => Hnn)) as Hs1.
      assert (Hlv : lvl < dist ga (ev el idx))
        by (change (dist ga (ev el idx)) with (dist g (ev el idx)); lia).
      pose proof (Hlive _ _ _ _ _ E1 Hprea Hv Hnn Hlv) as Hz1.
      destruct Hs1 as (T1 & P1 & S1 & X1 & F1 & L1 & R1).
      destruct R1 as [(-> & _)|(p1 & -> & Fin1 & Le1 & N1 & Z1)].
      { rewrite (bind_exn _ _ _ _ _ E1) in H. injection H as <- <-. discriminate. }
      rewrite (bind_val _ _ _ _ _ E1) in H.
      pose proof (dfs_touch_fields _ _ T1) as (Ev1 & Ea1 & Ed1 & _).
      change (vertices ga) with (vertices g) in *.
      change (adjacency_list ga) with (adjacency_list g) in Ea1.
      change (distances ga) with (distances g) in Ed1.
      assert (Hadj1 : forall x, adj g1 x = adj g x) by (intros; unfold adj; now rewrite Ea1).
      assert (Hd1 : forall x, dist g1 x = dist g x) by (intros; unfold dist; now rewrite Ed1).
      destruct (is_zero p1) eqn:Ez.
      * destruct (Z1 eq_refl) as [Ee1 Eh1]. change (edge_list ga) with el in Ee1.
        destruct (Hz1 p1 eq_refl Ez) as [B1 C1].
        change (dist ga) with (dist g) in B1.
        assert (Hkeep1 : forall x, lpath ga t x -> lpath g1 t x).
        { intros x Hp. apply (lpath_keep ga g1 t x); auto.
          intros y Hy _. destruct (B1 y Hy) as [E|[_ E]]; auto. }
        assert (Hu1 : 0 <= u < vertices g1) by now rewrite Ev1.
        assert (Hlvl1 : dist g1 u = lvl) by now rewrite Hd1.
        assert (Hrest1 : forall j, In j rest -> 0 <= j < zlen (adj g1 u))
          by (intros; rewrite Hadj1; auto).
        pose proof (IH _ _ _ H P1 Hu1 Hlvl1 Hrest1) as Hz.
        intros p Hp Hpz. destruct (Hz p Hp Hpz) as [A B]. rewrite Ev1 in B. split.
        -- intros j [<-|Hj] Hus.
           ++ destruct Hus as (U1 & U2 & U3). fold idx el in U1, U2, U3.
              apply C1.
              ** apply num_pos_nmin; auto.
              ** apply Hkeep; auto; lia.
           ++ apply (A j Hj). apply Huse in Hus. destruct Hus as (U1 & U2 & U3).
              unfold usable. rewrite Hadj1, Ee1, !Hd1. auto.
        -- intros x Hx Hxu. destruct (B x Hx Hxu) as [E|[E1' E2]].
           ++ destruct (B1 x Hx) as [E'|[E1' E2]].
              ** left. rewrite E, E', Hlga by lia. apply Z.eqb_neq in Hxu. now rewrite Hxu.
              ** right. rewrite Elev in E1'. split; [lia|]. intros Hq. apply E2.
                 apply Hkeep; auto. lia.
           ++ right. rewrite Hd1 in E1'. split; auto.
      * destruct (is_zero_fin p1 Ez) as (pz & -> & Hpz).
        { apply Fin1. left. destruct f; cbn [nmin]; eexists; reflexivity. }
        cbn [as_int] in H. mstep_in H. rewrite DFS_push_run in H.
        -- injection H as <- <-. intros p [= <-] E.
           cbn in E. apply Z.eqb_eq in E. contradiction.
        -- exact (dp_wf _ _ P1).
        -- now rewrite Ev1.
        -- now rewrite Hadj1.
Qed.
End DFS_live_loop.

Lemma DFS_live (t : Z) (n : nat) :
  forall u f g r g',
    DFS n u t f g = (r, g') -> dfs_pre true g -> 0 <= u < vertices g ->
    num_nonneg f -> live_post t u f g r g'.
Proof.
  induction n as [|n IH]; intros u f g r g' H Hpre Hu Hf.
  - cbn [DFS] in H. injection H as <- <-. intros p Hp. discriminate.
  - cbn [DFS] in H. destruct ((u =? t) || is_zero f) eqn:E.
    + injection H as <- <-. intros p [= <-] Hz. split; auto.
      intros Hpos. destruct f; cbn in *; [|discriminate]. apply Z.eqb_eq in Hz. lia.
    + apply orb_false_iff in E. destruct E as [E1 E2]. apply Z.eqb_neq in E1.
      pose proof Hpre as [Hwf Hdl Hll Hlast Hgood].
      mstep_in H. rewrite (bind_getitem 0) in H by lia.
      mstep_in H. rewrite (bind_getitem []) in H by (rewrite (wf_adj_len _ Hwf); lia).
      change (zn [] (adjacency_list g) u) with (adj g u) in H.
      change (zn 0 (last g) u) with (lastp g u) in H.
      assert (Hpos : num_pos f).
      { destruct f as [z|]; cbn in *; auto. apply Z.eqb_neq in E2. lia. }
      assert (Hjs : forall j, In j (py_range (lastp g u) (zlen (adj g u))) ->
                              0 <= j < zlen (adj g u)).
      { intros j Hj. apply in_py_range in Hj. specialize (Hlast u Hu). lia. }
      assert (HL : forall v f1 g1 r1 g1',
                 DFS n v t f1 g1 = (r1, g1') -> dfs_pre true g1 -> 0 <= v < vertices g1 ->
                 num_nonneg f1 -> dist g u < dist g1 v -> live_post t v f1 g1 r1 g1')
        by (intros; eapply IH; eauto).
      pose proof (DFS_for_live t (dist g u) (DFS n) (DFS_spec true t n) HL u f E1 Hpos
                               _ _ _ _ H Hpre Hu eq_refl Hjs) as Hz.
      intros p Hp Hpz. destruct (Hz p Hp Hpz) as [A B].
      assert (Hno : ~ lpath g t u).
      { intros Hl. apply lpath_level in Hl. destruct Hl as [->|(_ & i & Hi & H1 & H2 & H3)].
        - contradiction.
        - apply (A i).
          + apply in_py_range. unfold zlen in *. lia.
          + unfold usable. auto. }
      split; auto. intros x Hx. destruct (Z.eq_dec x u) as [->|Hxu].
      * right. split; auto. lia.
      * destruct (B x Hx Hxu) as [E|[E3 E4]]; auto. right. split; auto. lia.
Qed.

(** ** dinic *)

Lemma conserved_net (g g' : MaximumFlow) (s t : Z) (p : Z) (u : Z) :
  vertices g' = vertices g -> conserved g s t -> u = s ->
  (forall v, net (edge_list g') v =
             net (edge_list g) v + (if v =? u then p else 0) - (if v =? t then p else 0)) ->
  conserved g' s t.
Proof.
  intros Ev Hc -> Hn v Hv Hvs Hvt. rewrite Hn. rewrite Ev in Hv.
  apply Z.eqb_neq in Hvs, Hvt. rewrite Hvs, Hvt. rewrite Hc; auto; try lia;
    now apply Z.eqb_neq.
Qed.

Lemma dinic_inner_spec (c : bool) (lim : nat) (s t : Z) (k : nat) :
  forall f mf g r g',
    dinic_inner lim k s t f mf g = (r, g') ->
    dfs_pre c g -> 0 <= s < vertices g -> 0 <= t < vertices g -> conserved g s t ->
    dfs_touch g g' /\ dfs_pre c g' /\ strip (edge_list g') = strip (edge_list g) /\
    hist_ext c g g' /\ conserved g' s t /\ (stopped r \/ exists x, r = Val x) /\
    ((forall y, 0 <= y < vertices g -> dist g y < vertices g) -> 0 <= dist g s ->
     vertices g <= Z.of_nat lim -> r <> Exn RecursionError) /\
    (s <> t -> is_fin f -> mf = Fin (net (edge_list g) s - num_val f) ->
     (forall x, r = Val x -> x = Fin (net (edge_list g') s)) /\
     (c = true -> net (edge_list g) s <= net (edge_list g') s) /\
     (c = true -> num_nonneg f ->
      captotal (edge_list g) - net (edge_list g) s + (if is_zero f then 0 else 1)
      < Z.of_nat k ->
      r <> Fuel)).
Proof.
  induction k as [|k IH]; intros f mf g r g' H Hpre Hs Ht Hcons.
  - cbn [dinic_inner] in H. injection H as <- <-.
    conj; auto using dfs_touch_refl, hist_ext_refl; try discriminate.
    { left. now left. }
    intros Hst Hfin Hmf. conj; try discriminate; try lia.
    intros Hc _ Hk. destruct (dp_good _ _ Hpre) as [_ Hcap].
    pose proof (net_le_captotal _ s (Hcap Hc)). destruct (is_zero f); lia.
  - cbn [dinic_inner] in H. destruct (is_zero f) eqn:Ez.
    + injection H as <- <-. conj; eauto using dfs_touch_refl, hist_ext_refl;
        try discriminate.
      intros Hst [z ->] Hmf. cbn in Ez. apply Z.eqb_eq in Ez. subst z. cbn [num_val] in Hmf.
      conj; try discriminate; try lia.
      intros x [= <-]. rewrite Hmf. f_equal. lia.
    + destruct (DFS lim s t INF g) as [r1 g1] eqn:E1.
      pose proof (DFS_spec c t lim _ _ _ _ _ E1 Hpre Hs (fun _ => I)) as Hs1.
      pose proof (DFS_depth c t (vertices g) lim _ _ _ _ _ E1 Hpre Hs (fun _ => I)) as Hd1.
      destruct Hs1 as (T1 & P1 & S1 & X1 & F1 & L1 & R1).
      pose proof (dfs_touch_fields _ _ T1) as (Ev1 & Ea1 & Ed1 & _).
      destruct R1 as [(-> & Ee1 & Eh1)|(p1 & -> & Fin1 & Le1 & N1 & Z1)].
      { rewrite (bind_exn _ _ _ _ _ E1) in H. injection H as <- <-.
        conj; auto.
        - unfold conserved. rewrite Ev1, Ee1. auto.
        - left. now right.
        - intros HD Hds Hl. apply Hd1; auto. lia.
        - intros Hst Hfin Hmf. conj; try discriminate.
          rewrite Ee1. lia. }
      rewrite (bind_val _ _ _ _ _ E1) in H.
      assert (Hcons1 : conserved g1 s t) by (eapply conserved_net; eauto).
      apply IH in H; auto; try congruence.
      destruct H as (T2 & P2 & S2 & X2 & C2 & R2 & Q2 & V2).
      conj; auto.
      * eapply dfs_touch_trans; eauto.
      * congruence.
      * eapply hist_ext_trans; eauto.
      * intros HD Hds Hl. apply Q2.
        -- intros y Hy. rewrite (dfs_touch_dist _ _ _ T1), Ev1. apply HD. congruence.
        -- now rewrite (dfs_touch_dist _ _ _ T1).
        -- congruence.
      * intros Hst Hfin Hmf. destruct Hfin as [z ->]. cbn [num_val] in *.
        destruct (Fin1 (or_intror Hst)) as [pz ->]. cbn [num_val] in *.
        assert (Hn1 : net (edge_list g1) s = net (edge_list g) s + pz).
        { rewrite N1. rewrite Z.eqb_refl. apply Z.eqb_neq in Hst. rewrite Hst. lia. }
        assert (Hfp : is_fin (Fin pz)) by now exists pz.
        assert (Hmf1 : nadd mf (Fin z) = Fin (net (edge_list g1) s - num_val (Fin pz))).
        { rewrite Hmf. cbn [nadd num_val]. f_equal. lia. }
        destruct (V2 Hst Hfp Hmf1) as (V2a & V2b & V2c).
        assert (Hpz : c = true -> 0 <= pz).
        { intros Hc. destruct (Le1 Hc I) as [_ B]. exact B. }
        conj; auto.
        -- intros Hc. specialize (V2b Hc). specialize (Hpz Hc). lia.
        -- intros Hc Hnn Hk. apply V2c; auto.
           ++ cbn. auto.
           ++ rewrite (captotal_strip _ _ S1), Hn1. specialize (Hpz Hc).
              cbn [is_zero]. destruct (pz =? 0) eqn:E0.
              ** apply Z.eqb_eq in E0. lia.
              ** apply Z.eqb_neq in E0. lia.
Qed.

(** After a BFS that labels [t], with all cursors at zero, DFS has a path from [s]. *)
Lemma bfs_lpath (g : MaximumFlow) (s t : Z) :
  wf g -> bfs_inv g s -> (forall x, 0 <= x < vertices g -> lastp g x = 0) ->
  0 <= s < vertices g -> 0 <= t < vertices g -> dist g t <> -1 -> lpath g t s.
Proof.
  intros Hwf Hinv Hl Hs Ht Hrt.
  assert (G : forall (d : nat) v, 0 <= v < vertices g -> dist g v = Z.of_nat d ->
                                  lpath g t v -> lpath g t s).
  { induction d as [|d IH]; intros v Hv Hd Hp.
    - destruct (Z.eq_dec v s) as [->|Hne]; auto.
      assert (Hr : dist g v <> -1) by lia.
      pose proof (bi_tree _ _ Hinv v Hv Hne Hr) as Ht0. unfold tree_edge in Ht0.
      destruct (zn (-1, -1) (points g) v) as [u idx]. lia.
    - assert (Hne : v <> s) by (intros ->; rewrite (bi_src _ _ Hinv) in Hd; lia).
      assert (Hr : dist g v <> -1) by lia.
      pose proof (bi_tree _ _ Hinv v Hv Hne Hr) as Ht0. unfold tree_edge in Ht0.
      destruct (zn (-1, -1) (points g) v) as [u idx].
      destruct Ht0 as (Hu & Hdu & Hdv & Hidx & Htl & Hhd & Hres).
      assert (Hin : In idx (adj g u)) by (apply (wf_adj _ Hwf); auto).
      destruct (In_nth _ _ 0 Hin) as (n & Hn & En).
      apply (IH u); auto; [lia|].
      apply (lpath_step g t u (Z.of_nat n)); auto.
      + rewrite Hl by auto. unfold zlen. lia.
      + unfold zn. rewrite Nat2Z.id, En. exact Hres.
      + unfold zn. rewrite Nat2Z.id, En, Hhd. exact Hdv.
      + unfold zn. rewrite Nat2Z.id, En, Hhd. exact Hp. }
  pose proof (bi_lo _ _ Hinv t Ht) as Hlo.
  apply (G (Z.to_nat (dist g t)) t); auto; [lia|constructor].
Qed.

Lemma bfs_inv_set_last (g : MaximumFlow) (s : Z) (l : list Z) :
  bfs_inv g s -> bfs_inv (set_last l g) s.
Proof. intros [A1 A2 A3 A4 A5 A6]. constructor; auto. Qed.

Lemma dist_lt_vertices (g : MaximumFlow) (s y : Z) :
  bfs_inv g s -> 0 <= y < vertices g -> dist g y < vertices g.
Proof.
  intros Hinv Hy. pose proof (bi_hi _ _ Hinv y Hy).
  pose proof (count_unreached_bounds (distances g)). lia.
Qed.

Lemma dfs_pre_reset (c : bool) (g : MaximumFlow) (s : Z) :
  wf g -> bfs_inv g s -> good c (edge_list g) ->
  dfs_pre c (set_last (repeat 0 (Z.to_nat (vertices g))) g) /\
  forall x, 0 <= x < vertices g ->
            lastp (set_last (repeat 0 (Z.to_nat (vertices g))) g) x = 0.
Proof.
  intros Hwf Hinv Hg.
  assert (Hl : forall x, 0 <= x < vertices g ->
            lastp (set_last (repeat 0 (Z.to_nat (vertices g))) g) x = 0).
  { intros x Hx. unfold lastp. fgoal. apply zn_repeat. lia. }
  split; auto. constructor; fgoal; auto.
  - apply (wf_static g); auto.
  - exact (bi_dlen _ _ Hinv).
  - rewrite zlen_repeat. pose proof (wf_V _ Hwf). lia.
  - intros v Hv. rewrite Hl; auto. lia.
Qed.

Lemma dinic_while_spec (c : bool) (lim fuel : nat) (s t : Z) (k : nat) :
  forall mf g r g',
    dinic_while lim fuel k s t mf g = (r, g') ->
    wf g -> 0 <= s < vertices g -> 0 <= t < vertices g ->
    good c (edge_list g) -> conserved g s t ->
    run_touch g g' /\ good c (edge_list g') /\ hist_ext c g g' /\ conserved g' s t /\
    (stopped r \/ exists x, r = Val x) /\
    (vertices g <= Z.of_nat lim -> r <> Exn RecursionError) /\
    (s <> t -> mf = Fin (net (edge_list g) s) ->
     (forall x, r = Val x -> x = Fin (net (edge_list g') s) /\ saturated_cut g' s t) /\
     (c = true -> vertices g < Z.of_nat fuel -> (k <= fuel)%nat ->
      captotal (edge_list g) - net (edge_list g) s < Z.of_nat k -> r <> Fuel)).
Proof.
  induction k as [|k IH]; intros mf g r g' H Hwf Hs Ht Hg Hcons.
  - cbn [dinic_while] in H. injection H as <- <-.
    conj; auto using run_touch_refl, hist_ext_refl; try discriminate.
    { left. now left. }
    intros Hst Hmf. split; [discriminate|]. intros Hc _ _ Hk.
    destruct Hg as [_ Hcap]. pose proof (net_le_captotal _ s (Hcap Hc)). lia.
  - cbn [dinic_while] in H. destruct (BFS fuel s t g) as [rb g1] eqn:Eb.
    pose proof Eb as Eb'. apply BFS_spec in Eb'; auto.
    destruct Eb' as (Tb & Rb & Fb & Pb).
    pose proof (bfs_touch_fields _ _ Tb) as (Ev1 & Ee1 & _).
    pose proof (run_touch_bfs _ _ Tb) as RT1.
    destruct Rb as [->|[b ->]].
    { rewrite (bind_fuel _ _ _ _ Eb) in H. injection H as <- <-.
      conj; auto using hist_ext_bfs; try congruence; try discriminate.
      - unfold conserved. rewrite Ev1, Ee1. auto.
      - left. now left.
      - intros Hst Hmf. split; [discriminate|]. intros _ Hf _ _.
        destruct (Fb Hf). discriminate. }
    rewrite (bind_val _ _ _ _ _ Eb) in H.
    destruct (Pb b eq_refl) as (Inv1 & Hb & Hcut).
    assert (Hwf1 : wf g1) by (eapply wf_run_touch; eauto).
    destruct b.
    + symmetry in Hb. apply negb_true_iff, Z.eqb_neq in Hb.
      mstep_in H. mstep_in H.
      set (gz := set_last (repeat 0 (Z.to_nat (vertices g1))) g1) in *.
      assert (Hg1 : good c (edge_list g1)) by now rewrite Ee1.
      destruct (dfs_pre_reset c g1 s Hwf1 Inv1 Hg1) as [Pz Lz]. fold gz in Pz, Lz.
      assert (Hsz : 0 <= s < vertices gz) by (unfold gz; fgoal; lia).
      assert (Htz : 0 <= t < vertices gz) by (unfold gz; fgoal; lia).
      assert (Hconsz : conserved gz s t).
      { unfold conserved, gz. fgoal. rewrite Ev1, Ee1. auto. }
      assert (Hinvz : bfs_inv gz s) by now apply bfs_inv_set_last.
      assert (HDz : forall y, 0 <= y < vertices gz -> dist gz y < vertices gz)
        by (intros; now apply (dist_lt_vertices gz s)).
      assert (Hdsz : dist gz s = 0) by exact (bi_src _ _ Hinvz).
      assert (RTz : run_touch g gz) by exact RT1.
      assert (HXz : hist_ext c g gz) by exact (hist_ext_bfs c _ _ Tb).
      destruct (DFS lim s t INF gz) as [r2 g2] eqn:E2.
      pose proof (DFS_spec c t lim _ _ _ _ _ E2 Pz Hsz (fun _ => I)) as Hs2.
      pose proof (DFS_depth c t (vertices gz) lim _ _ _ _ _ E2 Pz Hsz (fun _ => I) HDz)
        as Hd2.
      rewrite Hdsz in Hd2. change (vertices gz) with (vertices g1) in Hd2.
      destruct Hs2 as (T2 & P2 & S2 & X2 & F2 & L2 & R2).
      pose proof (dfs_touch_fields _ _ T2) as (Ev2 & Ea2 & Ed2 & _).
      assert (RT2 : run_touch g g2).
      { apply (run_touch_trans g gz); auto. now apply run_touch_dfs. }
      assert (HX2 : hist_ext c g g2).
      { apply (hist_ext_trans c g gz); auto. destruct RTz as (_ & _ & _ & E). exact E. }
      assert (Hlive2 : c = true -> live_post t s INF gz r2 g2).
      { intros Hc. subst c. apply (DFS_live t lim); auto. exact I. }
      destruct R2 as [(-> & Ee2 & Eh2)|(p2 & -> & Fin2 & Le2 & N2 & Z2)].
      { rewrite (bind_exn _ _ _ _ _ E2) in H. injection H as <- <-.
        conj; auto.
        - exact (dp_good _ _ P2).
        - unfold conserved. rewrite Ev2, Ee2. exact Hconsz.
        - left. now right.
        - intros Hl. apply Hd2. lia.
        - intros Hst Hmf. split; discriminate. }
      rewrite (bind_val _ _ _ _ _ E2) in H.
      assert (Hcons2 : conserved g2 s t) by (eapply conserved_net; eauto).
      destruct (dinic_inner lim fuel s t p2 mf g2) as [r3 g3] eqn:E3.
      assert (Hs2' : 0 <= s < vertices g2) by (rewrite Ev2; exact Hsz).
      assert (Ht2' : 0 <= t < vertices g2) by (rewrite Ev2; exact Htz).
      pose proof (dinic_inner_spec c lim s t fuel _ _ _ _ _ E3 P2 Hs2' Ht2' Hcons2) as Hs3.
      destruct Hs3 as (T3 & P3 & S3 & X3 & C3 & R3 & Q3 & V3).
      assert (Hq3 : vertices g <= Z.of_nat lim -> r3 <> Exn RecursionError).
      { intros Hl. apply Q3.
        - intros y Hy. rewrite (dfs_touch_dist _ _ _ T2), Ev2. apply HDz. congruence.
        - rewrite (dfs_touch_dist _ _ _ T2), Hdsz. lia.
        - rewrite Ev2. change (vertices gz) with (vertices g1). lia. }
      pose proof (dfs_touch_fields _ _ T3) as (Ev3 & Ea3 & Ed3 & _).
      assert (RT3 : run_touch g g3).
      { apply (run_touch_trans g g2); auto. now apply run_touch_dfs. }
      assert (HX3 : hist_ext c g g3).
      { apply (hist_ext_trans c g g2); auto. destruct RT2 as (_ & _ & _ & E). exact E. }
      assert (Hnet2 : s <> t -> exists pz, p2 = Fin pz /\
                net (edge_list g2) s = net (edge_list g) s + pz).
      { intros Hst. destruct (Fin2 (or_intror Hst)) as [pz ->]. exists pz. split; auto.
        rewrite N2. cbn [num_val]. rewrite Z.eqb_refl. apply Z.eqb_neq in Hst. rewrite Hst.
        change (edge_list gz) with (edge_list g1). rewrite Ee1. lia. }
      assert (Hpos2 : s <> t -> c = true -> forall pz, p2 = Fin pz -> 1 <= pz).
      { intros Hst Hc pz ->. pose proof (Hlive2 Hc) as Hz.
        destruct (Le2 Hc I) as [_ Hnn]. cbn in Hnn.
        destruct (Z.eq_dec pz 0) as [->|Hne]; [|lia].
        destruct (Hz (Fin 0) eq_refl eq_refl) as [_ Hno]. exfalso. apply Hno; [exact I|].
        apply (bfs_lpath gz s t); auto; try exact (dp_wf _ _ Pz); exact Hb. }
      destruct R3 as [[->| ->]|[x3 ->]].
      { rewrite (bind_fuel _ _ _ _ E3) in H. injection H as <- <-.
        conj; auto; try discriminate.
        - exact (dp_good _ _ P3).
        - left. now left.
        - intros Hst Hmf. split; [discriminate|]. intros Hc Hf Hkf Hk.
          destruct (Hnet2 Hst) as (pz & -> & Hn2).
          pose proof (Hpos2 Hst Hc pz eq_refl) as Hpz.
          destruct (V3 Hst) as (_ & _ & V3c); [now exists pz| |].
          + rewrite Hmf, Hn2. cbn [num_val]. f_equal. lia.
          + apply V3c; auto.
            * cbn. lia.
            * destruct RT2 as (_ & _ & _ & E). rewrite (captotal_strip _ _ E), Hn2.
              cbn [is_zero]. destruct (pz =? 0); lia. }
      { rewrite (bind_exn _ _ _ _ _ E3) in H. injection H as <- <-.
        conj; auto.
        - exact (dp_good _ _ P3).
        - left. now right.
        - intros Hst Hmf. split; discriminate. }
      rewrite (bind_val _ _ _ _ _ E3) in H.
      apply IH in H; auto; try (rewrite Ev3, Ev2; auto; fail); [|exact (dp_wf _ _ P3)
                                                                |exact (dp_good _ _ P3)].
      destruct H as (RT4 & G4 & X4 & C4 & R4 & Q4 & L4).
      conj; auto.
      * exact (run_touch_trans _ _ _ RT3 RT4).
      * destruct RT3 as (_ & _ & _ & E). exact (hist_ext_trans _ _ _ _ E HX3 X4).
      * intros Hl. apply Q4. rewrite Ev3, Ev2. change (vertices gz) with (vertices g1). lia.
      * intros Hst Hmf. destruct (Hnet2 Hst) as (pz & -> & Hn2).
        destruct (V3 Hst) as (V3a & V3b & V3c); [now exists pz| |].
        { rewrite Hmf, Hn2. cbn [num_val]. f_equal. lia. }
        destruct (L4 Hst (V3a x3 eq_refl)) as [L4a L4b].
        split; auto. intros Hc Hf Hkf Hk.
        pose proof (Hpos2 Hst Hc pz eq_refl) as Hpz. specialize (V3b Hc).
        apply L4b; auto.
        -- rewrite Ev3, Ev2. change (vertices gz) with (vertices g1). lia.
        -- lia.
        -- destruct RT3 as (_ & _ & _ & E). rewrite (captotal_strip _ _ E). lia.
    + injection H as <- <-. conj; auto using hist_ext_bfs; try discriminate.
      * now rewrite Ee1.
      * unfold conserved. rewrite Ev1, Ee1. auto.
      * eauto.
      * intros Hst Hmf. split; [|discriminate]. intros x [= <-]. rewrite Ee1. auto.
Qed.

(** ** Building a graph *)

Lemma add_edge_run (g : MaximumFlow) (u v capacity : Z) (directed : bool) :
  zlen (adjacency_list g) = vertices g ->
  0 <= u < vertices g -> 0 <= v < vertices g -> u <> v ->
  add_edge u v capacity directed g = (Val tt, added g u v capacity directed).
Proof.
  intros Hl Hu Hv Hne. unfold add_edge. apply Z.eqb_neq in Hne. rewrite Hne.
  mstep. mstep. rewrite (bind_getitem []) by (fgoal; lia). mstep.
  rewrite bind_setitem by (fgoal; lia). mstep. mstep. mstep.
  rewrite (bind_getitem []) by (fgoal; rewrite zlen_replace; lia). mstep.
  rewrite bind_setitem by (fgoal; rewrite zlen_replace; lia).
  reflexivity.
Qed.

Lemma ev_added (el : list edge) (e1 e2 : edge) (i : Z) :
  0 <= i ->
  ev ((el ++ [e1]) ++ [e2]) i =
  if i <? zlen el then ev el i
  else if i =? zlen el then e_v e1
  else if i =? zlen el + 1 then e_v e2 else 0.
Proof.
  intros Hi. unfold ev. pose proof (zlen_nonneg el) as Hn.
  destruct (i <? zlen el) eqn:E1.
  - apply Z.ltb_lt in E1. rewrite <- app_assoc. now rewrite zn_app_l by lia.
  - apply Z.ltb_ge in E1. rewrite <- app_assoc. rewrite zn_app_r by lia.
    destruct (i =? zlen el) eqn:E2.
    + apply Z.eqb_eq in E2. replace (i - zlen el) with 0 by lia. reflexivity.
    + apply Z.eqb_neq in E2. destruct (i =? zlen el + 1) eqn:E3.
      * apply Z.eqb_eq in E3. replace (i - zlen el) with 1 by lia. reflexivity.
      * apply Z.eqb_neq in E3. unfold zn.
        rewrite nth_overflow; auto. cbn [length app]. lia.
Qed.

Lemma mate_below (n i : Z) : Z.even n = true -> 0 <= i -> (mate i < n <-> i < n).
Proof.
  intros Hn Hi. apply Z.even_spec in Hn. destruct Hn as [a ->].
  destruct (mate_cases i) as [[E H]|[E H]]; rewrite H.
  - apply Z.even_spec in E. destruct E as [b ->]. lia.
  - rewrite <- Z.negb_odd in E. apply negb_false_iff in E.
    apply Z.odd_spec in E. destruct E as [b ->]. lia.
Qed.

Lemma wf_added (g : MaximumFlow) (u v capacity : Z) (directed : bool) :
  wf g -> 0 <= u < vertices g -> 0 <= v < vertices g -> u <> v ->
  wf (added g u v capacity directed).
Proof.
  intros [W1 W2 W3 W4 W5] Hu Hv Hne.
  set (el := edge_list g) in *. set (n := zlen el) in *.
  pose proof (zlen_nonneg el) as Hn. fold n in Hn.
  set (e1 := mkEdge v capacity 0). set (e2 := mkEdge u (if directed then 0 else capacity) 0).
  assert (Hel : edge_list (added g u v capacity directed) = (el ++ [e1]) ++ [e2]) by reflexivity.
  assert (Hlen : zlen ((el ++ [e1]) ++ [e2]) = n + 2).
  { unfold n, zlen. rewrite !length_app. cbn [length]. lia. }
  assert (Hmn : mate n = n + 1).
  { destruct (mate_cases n) as [[_ H]|[E _]]; auto. congruence. }
  assert (Hmn1 : mate (n + 1) = n) by (rewrite <- Hmn; apply mate_involutive).
  assert (Hev : forall i, 0 <= i < n + 2 ->
            ev ((el ++ [e1]) ++ [e2]) i = if i <? n then ev el i else if i =? n then v else u).
  { intros i Hi. rewrite ev_added by lia. fold n. destruct (i <? n) eqn:E0; auto.
    apply Z.ltb_ge in E0.
    destruct (i =? n) eqn:E; auto. apply Z.eqb_neq in E.
    assert (i = n + 1) as -> by lia. now rewrite Z.eqb_refl. }
  assert (Het : forall i, 0 <= i < n + 2 ->
            etail ((el ++ [e1]) ++ [e2]) i =
            if i <? n then etail el i else if i =? n then u else v).
  { intros i Hi. unfold etail.
    pose proof (mate_range (n + 2) i) as Hr.
    rewrite Z.even_add, W3 in Hr. specialize (Hr eq_refl Hi).
    rewrite Hev by lia. pose proof (mate_below n i W3 (proj1 Hi)) as Hb.
    destruct (i <? n) eqn:E1.
    - apply Z.ltb_lt in E1. apply Hb in E1. apply Z.ltb_lt in E1. now rewrite E1.
    - apply Z.ltb_ge in E1. assert (~ mate i < n) by (rewrite Hb; lia).
      assert (E2 : (mate i <? n) = false) by (apply Z.ltb_ge; lia). rewrite E2.
      destruct (i =? n) eqn:E3.
      + apply Z.eqb_eq in E3. subst i. rewrite Hmn.
        assert ((n + 1 =? n) = false) as -> by (apply Z.eqb_neq; lia). reflexivity.
      + apply Z.eqb_neq in E3. assert (i = n + 1) as -> by lia. rewrite Hmn1.
        now rewrite Z.eqb_refl. }
  assert (Hadj : forall w, 0 <= w < vertices g ->
            adj (added g u v capacity directed) w =
            adj g w ++ (if w =? u then [n] else if w =? v then [n + 1] else [])).
  { intros w Hw. unfold adj, added. fgoal. fold el. fold e1 e2.
    rewrite Hlen.
    assert (zlen (el ++ [e1]) - 1 = n) as -> by (unfold n, zlen; rewrite length_app; cbn [length]; lia).
    replace (n + 2 - 1) with (n + 1) by lia.
    rewrite zn_replace by (rewrite ?zlen_replace; lia).
    rewrite !zn_replace by lia.
    apply Z.eqb_neq in Hne. rewrite Z.eqb_sym in Hne. rewrite Hne.
    destruct (w =? v) eqn:E1.
    - apply Z.eqb_eq in E1. subst w. rewrite Hne. reflexivity.
    - destruct (w =? u) eqn:E2.
      + apply Z.eqb_eq in E2. subst w. reflexivity.
      + now rewrite app_nil_r. }
  constructor.
  - exact W1.
  - unfold added. fgoal. now rewrite !zlen_replace.
  - rewrite Hel, Hlen. rewrite Z.even_add, W3. reflexivity.
  - rewrite Hel, Hlen. intros i Hi. rewrite Hev by lia.
    change (vertices (added g u v capacity directed)) with (vertices g).
    destruct (i <? n) eqn:E1.
    + apply Z.ltb_lt in E1. apply W4. fold n. lia.
    + destruct (i =? n); lia.
  - change (vertices (added g u v capacity directed)) with (vertices g).
    intros w i Hw. rewrite Hadj by lia. rewrite Hel, Hlen. rewrite in_app_iff.
    split.
    + intros [Hin|Hin].
      * apply (W5 w i Hw) in Hin. fold el n in Hin. destruct Hin as [Hi Ht].
        split; [lia|]. rewrite Het by lia.
        assert ((i <? n) = true) as -> by (apply Z.ltb_lt; lia). exact Ht.
      * destruct (w =? u) eqn:E1.
        -- destruct Hin as [<-|[]]. split; [lia|]. rewrite Het by lia.
           rewrite Z.ltb_irrefl, Z.eqb_refl. apply Z.eqb_eq in E1. auto.
        -- destruct (w =? v) eqn:E2; [|destruct Hin].
           destruct Hin as [<-|[]]. split; [lia|]. rewrite Het by lia.
           assert ((n + 1 <? n) = false) as -> by (apply Z.ltb_ge; lia).
           assert ((n + 1 =? n) = false) as -> by (apply Z.eqb_neq; lia).
           apply Z.eqb_eq in E2. auto.
    + intros [Hi Ht]. rewrite Het in Ht by lia.
      destruct (i <? n) eqn:E1.
      * apply Z.ltb_lt in E1. left. apply (W5 w i Hw). fold el n. split; auto. lia.
      * apply Z.ltb_ge in E1. right. destruct (i =? n) eqn:E2.
        -- apply Z.eqb_eq in E2. subst. rewrite Z.eqb_refl. now left.
        -- apply Z.eqb_neq in E2. assert (i = n + 1) by lia. subst.
           apply Z.eqb_neq in Hne. rewrite Z.eqb_sym in Hne. rewrite Hne.
           rewrite Z.eqb_refl. now left.
Qed.

Lemma fresh_init (V : Z) : 0 <= V -> fresh (init V).
Proof.
  intros HV. constructor; try reflexivity; [|constructor].
  constructor; cbn [init vertices edge_list adjacency_list]; auto.
  - rewrite zlen_repeat. lia.
  - unfold zlen. cbn [length]. intros i Hi. lia.
  - intros u i Hu. unfold adj. cbn [init adjacency_list].
    rewrite zn_repeat by lia. unfold zlen. cbn [length]. split; [intros []|lia].
Qed.

Lemma fresh_added (g : MaximumFlow) (u v capacity : Z) (directed : bool) :
  fresh g -> 0 <= u < vertices g -> 0 <= v < vertices g -> u <> v ->
  fresh (added g u v capacity directed).
Proof.
  intros [F1 F2 F3 F4] Hu Hv Hne. constructor; auto.
  - now apply wf_added.
  - unfold added. fgoal. rewrite !Forall_app. repeat split; auto.
Qed.

Lemma add_edges_fresh (cs : list call) :
  forall g, fresh g -> Forall (valid_call (vertices g)) cs ->
            exists g', add_edges cs g = (Val tt, g') /\ fresh g' /\
                       vertices g' = vertices g /\
                       (nonneg_calls cs -> nonneg_caps g -> nonneg_caps g').
Proof.
  induction cs as [|c cs IH]; intros g Hf Hv.
  - exists g. cbn [add_edges]. auto.
  - inversion Hv as [|? ? [Hu Hw] Hv']. subst. cbn [add_edges].
    destruct (Z.eq_dec (c_u c) (c_v c)) as [E|E].
    + destruct (IH g Hf Hv') as (g' & R & F & V & N). exists g'. conj; auto.
      * unfold add_edge. rewrite E, Z.eqb_refl. exact R.
      * intros Hn. inversion Hn. auto.
    + rewrite (bind_val _ _ _ _ _ (add_edge_run g _ _ (c_cap c) (c_directed c)
                 (wf_adj_len _ (fr_wf _ Hf)) Hu Hw E)).
      destruct (IH (added g (c_u c) (c_v c) (c_cap c) (c_directed c))) as (g' & R & F & V & N).
      * now apply fresh_added.
      * exact Hv'.
      * exists g'. conj; auto. intros Hn Hg. inversion Hn as [|? ? Hc Hn']. subst.
        apply N; auto. unfold nonneg_caps, added. fgoal.
        rewrite !Forall_app. repeat split; auto.
        constructor; auto. cbn [e_cap]. destruct (c_directed c); lia.
Qed.

Lemma built_fresh (V : Z) (cs : list call) (g : MaximumFlow) :
  0 <= V -> built V cs g ->
  fresh g /\ vertices g = V /\ (nonneg_calls cs -> nonneg_caps g).
Proof.
  intros HV [Hv Hr]. destruct (add_edges_fresh cs (init V) (fresh_init V HV) Hv)
    as (g' & R & F & Ev & N).
  rewrite Hr in R. injection R as <-. conj; auto.
  intros Hn. apply N; auto. constructor.
Qed.

Lemma zn_Forall {X} (P : X -> Prop) (d : X) (l : list X) (i : Z) :
  Forall P l -> 0 <= i < zlen l -> P (zn d l i).
Proof. intros H Hi. rewrite Forall_forall in H. apply H. now apply zn_In. Qed.

Lemma fresh_eflow (g : MaximumFlow) (i : Z) :
  fresh g -> 0 <= i < zlen (edge_list g) -> eflow (edge_list g) i = 0.
Proof. intros F Hi. unfold eflow. exact (zn_Forall _ _ _ _ (fr_flow _ F) Hi). Qed.

Lemma fresh_good (c : bool) (g : MaximumFlow) :
  fresh g -> (c = true -> nonneg_caps g) -> good c (edge_list g).
Proof.
  intros F Hn. split.
  - intros i Hi. rewrite !fresh_eflow; auto.
    apply mate_range; auto. exact (wf_even _ (fr_wf _ F)).
  - intros Hc i Hi. rewrite fresh_eflow; auto. unfold ecap.
    exact (zn_Forall _ _ _ _ (Hn Hc) Hi).
Qed.

Lemma fresh_net (g : MaximumFlow) (v : Z) : fresh g -> net (edge_list g) v = 0.
Proof.
  intros F. unfold net. apply zsum_zero. intros i Hi.
  rewrite fresh_eflow; auto. now destruct (etail (edge_list g) i =? v).
Qed.

Lemma fresh_conserved (g : MaximumFlow) (s t : Z) : fresh g -> conserved g s t.
Proof. intros F v _ _ _. now apply fresh_net. Qed.

(** ** The value of a flow across a cut *)

Lemma zsum_if_single (F : Z -> Z) (n : nat) (a : Z) :
  0 <= a < Z.of_nat n ->
  zsum (fun i => if i =? a then F i else 0) n = F a.
Proof.
  intros Ha. rewrite (zsum_single _ n a); auto.
  - now rewrite Z.eqb_refl.
  - intros i _ Hne. apply Z.eqb_neq in Hne. now rewrite Hne.
Qed.

Lemma etail_range (el : list edge) (V i : Z) :
  Z.even (zlen el) = true -> (forall j, 0 <= j < zlen el -> 0 <= ev el j < V) ->
  0 <= i < zlen el -> 0 <= etail el i < V.
Proof. intros He Hh Hi. unfold etail. apply Hh. now apply mate_range. Qed.

(** Antisymmetric flows cancel inside any vertex set. *)
Lemma inner_cancel (el : list edge) (inS : Z -> bool) :
  Z.even (zlen el) = true -> antisym el ->
  zsum (fun i => if inS (etail el i) && inS (ev el i) then eflow el i else 0) (length el) = 0.
Proof.
  intros He Ha.
  set (G := fun i => if inS (etail el i) && inS (ev el i) then eflow el i else 0).
  assert (H1 : zsum (fun i => G (mate i)) (length el) = zsum G (length el))
    by (apply zsum_mate; exact He).
  assert (H2 : zsum (fun i => G (mate i)) (length el) = - zsum G (length el)).
  { rewrite <- zsum_opp. apply zsum_ext. intros i Hi. unfold G, etail.
    rewrite mate_involutive. specialize (Ha i Hi).
    rewrite andb_comm. destruct (inS (ev el (mate i)) && inS (ev el i)); lia. }
  lia.
Qed.

Lemma cut_value (el : list edge) (V : Z) (inS : Z -> bool) (s : Z) :
  0 <= V -> Z.even (zlen el) = true ->
  (forall j, 0 <= j < zlen el -> 0 <= ev el j < V) ->
  0 <= s < V -> antisym el ->
  (forall v, 0 <= v < V -> v <> s -> inS v = true -> net el v = 0) ->
  inS s = true ->
  net el s =
  zsum (fun i => if inS (etail el i) && negb (inS (ev el i)) then eflow el i else 0)
       (length el).
Proof.
  intros HV He Hh Hs Ha Hc Hss.
  assert (A : zsum (fun v => if inS v then net el v else 0) (Z.to_nat V) = net el s).
  { rewrite (zsum_single _ _ s).
    - now rewrite Hss.
    - lia.
    - intros v Hv Hne. destruct (inS v) eqn:E; auto. apply Hc; auto. lia. }
  assert (B : zsum (fun v => if inS v then net el v else 0) (Z.to_nat V) =
              zsum (fun i => if inS (etail el i) then eflow el i else 0) (length el)).
  { transitivity (zsum (fun v => zsum (fun i => if inS v && (etail el i =? v)
                                                 then eflow el i else 0) (length el))
                       (Z.to_nat V)).
    - apply zsum_ext. intros v Hv. destruct (inS v); cbn [andb].
      + reflexivity.
      + symmetry. now apply zsum_zero.
    - rewrite zsum_swap. apply zsum_ext. intros i Hi.
      pose proof (etail_range el V i He Hh Hi) as Ht.
      rewrite (zsum_single _ _ (etail el i)).
      + now rewrite Z.eqb_refl, andb_true_r.
      + lia.
      + intros v Hv Hne. assert ((etail el i =? v) = false) as -> by (apply Z.eqb_neq; auto).
        now rewrite andb_false_r. }
  rewrite <- A, B.
  pose proof (inner_cancel el inS He Ha) as C.
  match goal with |- _ = ?R => transitivity (R +
    zsum (fun i => if inS (etail el i) && inS (ev el i) then eflow el i else 0) (length el)) end.
  - rewrite <- zsum_add. apply zsum_ext. intros i Hi.
    destruct (inS (etail el i)), (inS (ev el i)); cbn [andb negb]; lia.
  - rewrite C. lia.
Qed.

(** A flow is no larger than a flow that saturates a cut. *)
Lemma flow_le_cut (g1 g2 : MaximumFlow) (s t : Z) :
  wf g1 -> vertices g2 = vertices g1 ->
  strip (edge_list g2) = strip (edge_list g1) ->
  0 <= s < vertices g1 -> 0 <= t < vertices g1 ->
  good true (edge_list g1) -> good true (edge_list g2) ->
  conserved g1 s t -> conserved g2 s t ->
  saturated_cut g1 s t ->
  net (edge_list g2) s <= net (edge_list g1) s.
Proof.
  intros Hwf Ev Es Hs Ht [A1 C1] [A2 C2] K1 K2 (Rs & Rt & Hcl).
  specialize (C1 eq_refl). specialize (C2 eq_refl).
  set (el1 := edge_list g1) in *. set (el2 := edge_list g2) in *.
  set (inS := fun v => negb (dist g1 v =? -1)).
  assert (Hss : inS s = true) by (unfold inS; apply negb_true_iff, Z.eqb_neq; exact Rs).
  assert (Hst : inS t = false) by (unfold inS; apply negb_false_iff, Z.eqb_eq; exact Rt).
  pose proof (wf_even _ Hwf) as He1. fold el1 in He1.
  pose proof (strip_zlen _ _ Es) as El.
  pose proof (strip_length _ _ Es) as Eln.
  assert (Hh1 : forall j, 0 <= j < zlen el1 -> 0 <= ev el1 j < vertices g1)
    by (intros; now apply wf_head).
  assert (Hh2 : forall j, 0 <= j < zlen el2 -> 0 <= ev el2 j < vertices g1).
  { intros j Hj. unfold el2. rewrite (strip_ev _ _ _ Es). apply Hh1. fold el2 in El. lia. }
  rewrite (cut_value el1 (vertices g1) inS s); auto; try lia.
  2:{ intros v Hv Hne Hin. apply K1; auto. intros ->. congruence. }
  rewrite (cut_value el2 (vertices g1) inS s); auto; try lia.
  2:{ now rewrite El. }
  2:{ intros v Hv Hne Hin. apply K2; auto; [lia|]. intros ->. congruence. }
  rewrite Eln. apply zsum_le. intros i Hi.
  unfold el2 at 1 2. rewrite (strip_tail _ _ _ Es), (strip_ev _ _ _ Es). fold el1.
  destruct (inS (etail el1 i)) eqn:E1; cbn [andb]; [|lia].
  destruct (inS (ev el1 i)) eqn:E2; cbn [negb]; [lia|].
  unfold inS in E1, E2. apply negb_true_iff, Z.eqb_neq in E1.
  apply negb_false_iff, Z.eqb_eq in E2.
  assert (Hi2 : 0 <= i < zlen el2) by (fold el2 in El; unfold zlen in *; lia).
  pose proof (C2 i Hi2) as B2. unfold el2 in B2 at 2. rewrite (strip_ecap _ _ _ Es) in B2.
  fold el1 in B2.
  assert (Hi1 : 0 <= i < zlen el1) by (unfold zlen; lia).
  pose proof (Hcl (etail el1 i) (etail_range el1 _ i He1 Hh1 Hi1) E1 i Hi1 eq_refl) as B1.
  fold el1 in B1. lia.
Qed.

(** Two flows on one graph that both saturate a cut have the same value. *)
Lemma saturating_flows_agree (g1 g2 : MaximumFlow) (s t : Z) :
  wf g1 -> vertices g2 = vertices g1 -> adjacency_list g2 = adjacency_list g1 ->
  strip (edge_list g2) = strip (edge_list g1) ->
  0 <= s < vertices g1 -> 0 <= t < vertices g1 ->
  good true (edge_list g1) -> good true (edge_list g2) ->
  conserved g1 s t -> conserved g2 s t ->
  saturated_cut g1 s t -> saturated_cut g2 s t ->
  net (edge_list g1) s = net (edge_list g2) s.
Proof.
  intros Hwf Ev Ea Es Hs Ht G1 G2 K1 K2 S1 S2.
  assert (Hwf2 : wf g2) by (apply (wf_static g1); auto).
  pose proof (flow_le_cut g1 g2 s t Hwf Ev Es Hs Ht G1 G2 K1 K2 S1).
  assert (net (edge_list g1) s <= net (edge_list g2) s).
  { apply (flow_le_cut g2 g1 s t); auto; congruence. }
  lia.
Qed.

(** ** The run entry points *)

Lemma assert_ready (g : MaximumFlow) :
  has_been_run g = false ->
  assert_has_not_already_been_run g = (Val tt, set_has_been_run true g).
Proof. intros H. unfold assert_has_not_already_been_run. mstep. now rewrite H. Qed.

Lemma assert_done (g : MaximumFlow) :
  has_been_run g = true -> assert_has_not_already_been_run g = (Exn RerunError, g).
Proof. intros H. unfold assert_has_not_already_been_run. mstep. now rewrite H. Qed.

Lemma captotal_nonneg (el : list edge) : 0 <= captotal el.
Proof.
  unfold captotal. rewrite <- (zsum_zero (fun _ => 0) (length el)) at 1 by auto.
  apply zsum_le. intros. cbv beta. lia.
Qed.

Section Run.
Variables (c : bool) (s t : Z) (lim n : nat).
Variable loop : nat -> nat -> nat -> Z -> Z -> number -> M number.
Hypothesis Hloop :
  forall k mf g r g',
    loop lim n k s t mf g = (r, g') ->
    wf g -> 0 <= s < vertices g -> 0 <= t < vertices g ->
    good c (edge_list g) -> conserved g s t ->
    run_touch g g' /\ good c (edge_list g') /\ hist_ext c g g' /\ conserved g' s t /\
    (stopped r \/ exists x, r = Val x) /\
    (vertices g <= Z.of_nat lim -> r <> Exn RecursionError) /\
    (s <> t -> mf = Fin (net (edge_list g) s) ->
     (forall x, r = Val x -> x = Fin (net (edge_list g') s) /\ saturated_cut g' s t) /\
     (c = true -> vertices g < Z.of_nat n -> (k <= n)%nat ->
      captotal (edge_list g) - net (edge_list g) s < Z.of_nat k -> r <> Fuel)).

Lemma run_spec (g : MaximumFlow) (r : res number) (g' : MaximumFlow) :
  fresh g -> (c = true -> nonneg_caps g) ->
  0 <= s < vertices g -> 0 <= t < vertices g ->
  (assert_has_not_already_been_run ;;; loop lim n n s t (Fin 0)) g = (r, g') ->
  run_post c s t lim n g r g'.
Proof.
  intros F Hn Hs Ht H. rewrite (bind_val _ _ _ _ _ (assert_ready g (fr_run _ F))) in H.
  set (g0 := set_has_been_run true g) in *.
  assert (Hwf0 : wf g0) by (apply (wf_static g); auto; exact (fr_wf _ F)).
  assert (Hg0 : good c (edge_list g0)) by exact (fresh_good c g F Hn).
  assert (Hc0 : conserved g0 s t) by exact (fresh_conserved g s t F).
  destruct (Hloop _ _ _ _ _ H Hwf0 Hs Ht Hg0 Hc0) as ((A1 & A2 & A3 & A4) & G & X & K & R & Q & L).
  unfold run_post. conj; auto.
  - destruct X as (new & E & Fa). change (history g0) with (history g) in E.
    rewrite (fr_hist _ F), app_nil_r in E. rewrite E. exact Fa.
  - intros Hst. destruct (L Hst) as [La Lb].
    + change (edge_list g0) with (edge_list g). now rewrite fresh_net.
    + split; auto. intros Hc Hf. change (edge_list g0) with (edge_list g) in Lb.
      rewrite fresh_net in Lb by auto. pose proof (captotal_nonneg (edge_list g)).
      unfold enough_fuel in Hf. apply Lb; auto.
      * change (vertices g0) with (vertices g). lia.
      * lia.
Qed.
End Run.

Lemma edmonds_karp_spec (c : bool) (lim n : nat) (s t : Z)
      (g : MaximumFlow) (r : res number) (g' : MaximumFlow) :
  fresh g -> (c = true -> nonneg_caps g) ->
  0 <= s < vertices g -> 0 <= t < vertices g ->
  edmonds_karp lim n s t g = (r, g') -> run_post c s t lim n g r g'.
Proof.
  intros F Hn Hs Ht H. apply (run_spec c s t lim n ek_while); auto.
  intros k mf g0 r0 g0' H0 W S0 T0 G0 C0.
  destruct (ek_while_spec c lim n s t k _ _ _ _ H0 W S0 T0 G0 C0)
    as (A & B & C & D & E & Q & L).
  conj; auto. intros Hst Hmf. destruct (L Hst Hmf) as [La Lb]. split; auto.
Qed.

Lemma dinic_spec (c : bool) (lim n : nat) (s t : Z)
      (g : MaximumFlow) (r : res number) (g' : MaximumFlow) :
  fresh g -> (c = true -> nonneg_caps g) ->
  0 <= s < vertices g -> 0 <= t < vertices g ->
  dinic lim n s t g = (r, g') -> run_post c s t lim n g r g'.
Proof.
  intros F Hn Hs Ht H. apply (run_spec c s t lim n dinic_while); auto.
  intros k mf g0 r0 g0' H0 W S0 T0 G0 C0.
  exact (dinic_while_spec c lim n s t k _ _ _ _ H0 W S0 T0 G0 C0).
Qed.

(** ** The run flag *)

Lemma keeps_ret {A} (a : A) : keeps_flag (ret a).
Proof. intros g. split; [reflexivity|discriminate]. Qed.

Lemma keeps_raise {A} (e : exn) : e <> RerunError -> keeps_flag (@raise A e).
Proof. intros H g. split; [reflexivity|]. cbn. congruence. Qed.

Lemma keeps_fuel {A} : keeps_flag (@out_of_fuel A).
Proof. intros g. split; [reflexivity|discriminate]. Qed.

Lemma keeps_gets {X} (f : MaximumFlow -> X) : keeps_flag (gets f).
Proof. intros g. split; [reflexivity|discriminate]. Qed.

Lemma keeps_modify (f : MaximumFlow -> MaximumFlow) :
  (forall g, has_been_run (f g) = has_been_run g) -> keeps_flag (modify f).
Proof. intros H g. split; [apply H|discriminate]. Qed.

Lemma keeps_of_option {X} (o : option X) : keeps_flag (of_option o).
Proof. intros g. destruct o; split; try reflexivity; discriminate. Qed.

Lemma keeps_as_int (p : number) : keeps_flag (as_int p).
Proof. intros g. destruct p; split; try reflexivity; discriminate. Qed.

Lemma keeps_bind {A B} (m : M A) (k : A -> M B) :
  keeps_flag m -> (forall a, keeps_flag (k a)) -> keeps_flag (bind m k).
Proof.
  intros Hm Hk g. unfold bind. destruct (Hm g) as [H1 H2].
  destruct (m g) as [[a|e|] g1]; cbn [fst snd] in H1, H2.
  - destruct (Hk a g1) as [H3 H4]. split; auto. congruence.
  - split; [exact H1|]. cbn [fst]. intros [= ->]. now apply H2.
  - split; [exact H1|discriminate].
Qed.

Ltac kp :=
  repeat match goal with
         | |- keeps_flag (bind _ _) => apply keeps_bind; [|intros]
         | |- keeps_flag (ret _) => apply keeps_ret
         | |- keeps_flag (raise _) => apply keeps_raise; discriminate
         | |- keeps_flag out_of_fuel => apply keeps_fuel
         | |- keeps_flag (gets _) => apply keeps_gets
         | |- keeps_flag (modify _) => apply keeps_modify; intros; reflexivity
         | |- keeps_flag (getitem _ _) => apply keeps_of_option
         | |- keeps_flag (setitem _ _ _) => apply keeps_of_option
         | |- keeps_flag (as_int _) => apply keeps_as_int
         | |- keeps_flag (if ?b then _ else _) => destruct b
         | |- keeps_flag (match ?x with _ => _ end) => destruct x
         end.

Lemma keeps_store_flow (idx x : Z) : keeps_flag (store_flow idx x).
Proof. unfold store_flow. kp. Qed.

Lemma keeps_sub_flow (idx p : Z) : keeps_flag (sub_flow idx p).
Proof. unfold sub_flow. kp. Qed.

Lemma keeps_snapshot : keeps_flag snapshot.
Proof. unfold snapshot. kp. Qed.

Lemma keeps_adj_at (u i : Z) : keeps_flag (adj_at u i).
Proof. unfold adj_at. kp. Qed.

Lemma keeps_BFS_for (u : Z) (a : list Z) : forall q, keeps_flag (BFS_for u a q).
Proof. induction a as [|idx rest IH]; intros q; cbn [BFS_for]; kp; apply IH. Qed.

Lemma keeps_BFS_while (t : Z) (n : nat) : forall q, keeps_flag (BFS_while n q t).
Proof.
  induction n as [|n IH]; intros q; cbn [BFS_while]; kp;
    try apply keeps_BFS_for; try apply IH.
Qed.

Lemma keeps_BFS (n : nat) (s t : Z) : keeps_flag (BFS n s t).
Proof. unfold BFS. kp. apply keeps_BFS_while. Qed.

Lemma keeps_send_one_flow (s : Z) (n : nat) : forall t f, keeps_flag (send_one_flow n s t f).
Proof.
  induction n as [|n IH]; intros t f; cbn [send_one_flow]; kp;
    try apply IH; auto using keeps_store_flow, keeps_sub_flow, keeps_snapshot.
Qed.

Lemma keeps_DFS_for (rec : Z -> Z -> number -> M number) (u t : Z) (f : number) :
  (forall v f1, keeps_flag (rec v t f1)) ->
  forall js, keeps_flag (DFS_for rec u t f js).
Proof.
  intros Hrec. induction js as [|i rest IH]; cbn [DFS_for]; kp;
    auto using keeps_store_flow, keeps_sub_flow, keeps_snapshot, keeps_adj_at.
Qed.

Lemma keeps_DFS (t : Z) (n : nat) : forall u f, keeps_flag (DFS n u t f).
Proof.
  induction n as [|n IH]; intros u f; cbn [DFS]; kp.
  apply keeps_DFS_for. intros. apply IH.
Qed.

Lemma keeps_ek_while (lim fuel : nat) (s t : Z) (k : nat) :
  forall mf, keeps_flag (ek_while lim fuel k s t mf).
Proof.
  induction k as [|k IH]; intros mf; cbn [ek_while]; kp;
    auto using keeps_BFS, keeps_send_one_flow.
Qed.

Lemma keeps_dinic_inner (lim : nat) (s t : Z) (k : nat) :
  forall f mf, keeps_flag (dinic_inner lim k s t f mf).
Proof.
  induction k as [|k IH]; intros f mf; cbn [dinic_inner]; kp; auto using keeps_DFS.
Qed.

Lemma keeps_dinic_while (lim fuel : nat) (s t : Z) (k : nat) :
  forall mf, keeps_flag (dinic_while lim fuel k s t mf).
Proof.
  induction k as [|k IH]; intros mf; cbn [dinic_while]; kp;
    auto using keeps_BFS, keeps_DFS, keeps_dinic_inner.
Qed.

(** Whatever a run entry point returns or raises, the flag is set afterwards. *)
Lemma run_sets_flag (loop : M number) (g : MaximumFlow) :
  keeps_flag loop ->
  has_been_run (snd ((assert_has_not_already_been_run ;;; loop) g)) = true.
Proof.
  intros Hk. destruct (has_been_run g) eqn:E.
  - rewrite (bind_exn _ _ _ _ _ (assert_done g E)). exact E.
  - rewrite (bind_val _ _ _ _ _ (assert_ready g E)). now rewrite (proj1 (Hk _)).
Qed.

(** A run entry point on an instance not yet run does not raise the rerun error. *)
Lemma run_ready (loop : M number) (g : MaximumFlow) :
  keeps_flag loop -> has_been_run g = false ->
  fst ((assert_has_not_already_been_run ;;; loop) g) <> Exn RerunError.
Proof.
  intros Hk E. rewrite (bind_val _ _ _ _ _ (assert_ready g E)). apply Hk.
Qed.

(** A run entry point on an instance already run raises it and changes nothing. *)
Lemma run_done (loop : M number) (g : MaximumFlow) :
  has_been_run g = true ->
  (assert_has_not_already_been_run ;;; loop) g = (Exn RerunError, g).
Proof. intros E. exact (bind_exn _ _ _ _ _ (assert_done g E)). Qed.

(** * The claims *)

(** ** Helpers *)


Lemma even_double (j : Z) : Z.even (2 * j) = true.
Proof. apply Z.even_spec. now exists j. Qed.

Lemma even_double_succ (j : Z) : Z.even (2 * j + 1) = false.
Proof.
  rewrite <- Z.negb_odd. apply negb_false_iff, Z.odd_spec. now exists j.
Qed.

(** With antisymmetric flows, the net flow of a vertex is what leaves minus what enters. *)
Lemma net_out_in (el : list edge) (v : Z) :
  Z.even (zlen el) = true -> antisym el -> net el v = out_flow el v - in_flow el v.
Proof.
  intros He Ha. unfold net, out_flow, in_flow.
  apply Z.even_spec in He. destruct He as [k Hk]. unfold zlen in Hk.
  assert (Hl : length el = (2 * Z.to_nat k)%nat) by lia. rewrite Hl.
  rewrite !zsum_pairs.
  assert (forall A B C : Z, A = B - C <-> A + C = B) as Tr by (intros; lia).
  apply Tr. rewrite <- zsum_add. apply zsum_ext. intros j Hj.
  rewrite !even_double, !even_double_succ. cbn [andb].
  assert (Hr : 0 <= 2 * j < zlen el) by (unfold zlen; lia).
  pose proof (Ha (2 * j) Hr) as Ha'. rewrite mate_even in Ha'.
  unfold etail at 2. rewrite mate_odd.
  destruct (etail el (2 * j) =? v), (ev el (2 * j) =? v); lia.
Qed.

Lemma nth_error_app_len {X} (l : list X) (x : X) (l' : list X) :
  nth_error (l ++ x :: l') (length l) = Some x.
Proof. rewrite nth_error_app2 by lia. now rewrite Nat.sub_diag. Qed.

Lemma nth_error_replace_other {X} (l : list X) (k j : nat) (x : X) :
  j <> k -> nth_error (replace_nth k x l) j = nth_error l j.
Proof.
  revert k j. induction l as [|y l IH]; intros [|k] [|j] H; cbn [replace_nth nth_error]; auto.
  contradiction.
Qed.

Lemma nth_error_replace_same {X} (l : list X) (k : nat) (x : X) :
  (k < length l)%nat -> nth_error (replace_nth k x l) k = Some x.
Proof.
  revert k. induction l as [|y l IH]; intros [|k] H; cbn [replace_nth nth_error length] in *;
    auto; try lia. apply IH. lia.
Qed.

(** Two completed runs on the same fresh graph return the same value. *)
Lemma run_post_agree (g : MaximumFlow) (s t : Z) (l1 l2 n1 n2 : nat) (x1 x2 : number)
      (g1 g2 : MaximumFlow) :
  fresh g -> 0 <= s < vertices g -> 0 <= t < vertices g -> s <> t ->
  run_post true s t l1 n1 g (Val x1) g1 -> run_post true s t l2 n2 g (Val x2) g2 ->
  x1 = x2.
Proof.
  intros F Hs Ht Hst (A1 & A2 & A3 & A4 & A5 & A6 & A7 & A8 & A10 & A9)
         (B1 & B2 & B3 & B4 & B5 & B6 & B7 & B8 & B10 & B9).
  destruct (A9 Hst) as [A9a _]. destruct (B9 Hst) as [B9a _].
  destruct (A9a x1 eq_refl) as [-> S1]. destruct (B9a x2 eq_refl) as [-> S2].
  f_equal. apply (saturating_flows_agree g1 g2 s t); auto; try congruence.
  apply (wf_static g); auto. exact (fr_wf _ F).
Qed.

Lemma run_post_total (g : MaximumFlow) (s t : Z) (lim n : nat) (r : res number)
      (g' : MaximumFlow) :
  s <> t -> vertices g <= Z.of_nat lim -> (enough_fuel g <= n)%nat ->
  run_post true s t lim n g r g' ->
  exists v, r = Val (Fin v).
Proof.
  intros Hst Hl Hn (A1 & A2 & A3 & A4 & A5 & A6 & A7 & A8 & A10 & A9).
  destruct (A9 Hst) as [A9a A9b]. destruct A8 as [[->| ->]|[x ->]].
  - exfalso. now apply A9b.
  - exfalso. now apply A10.
  - destruct (A9a x eq_refl) as [-> _]. eauto.
Qed.

(** On a fresh graph with capacities that are not negative and [s != t],
    both algorithms return, and return one and the same value, whenever
    the interpreter allows as many nested calls as there are vertices and
    whatever fuel at or above [enough_fuel] each is given. *)
Lemma max_flow_value (g : MaximumFlow) (s t : Z) :
  fresh g -> nonneg_caps g -> 0 <= s < vertices g -> 0 <= t < vertices g -> s <> t ->
  exists v, forall lim n,
      vertices g <= Z.of_nat lim -> (enough_fuel g <= n)%nat ->
      fst (edmonds_karp lim n s t g) = Val (Fin v) /\
      fst (dinic lim n s t g) = Val (Fin v).
Proof.
  intros F Hn Hs Ht Hst.
  set (l0 := Z.to_nat (vertices g)).
  assert (Hl0 : vertices g <= Z.of_nat l0) by (unfold l0; lia).
  destruct (edmonds_karp l0 (enough_fuel g) s t g) as [r0 g0] eqn:E0.
  pose proof (edmonds_karp_spec true _ _ _ _ _ _ _ F (fun _ => Hn) Hs Ht E0) as P0.
  destruct (run_post_total _ _ _ _ _ _ _ Hst Hl0 (le_n _) P0) as [v ->].
  exists v. intros lim n Hl Hle. split.
  - destruct (edmonds_karp lim n s t g) as [r1 g1] eqn:E1. cbn [fst].
    pose proof (edmonds_karp_spec true _ _ _ _ _ _ _ F (fun _ => Hn) Hs Ht E1) as P1.
    destruct (run_post_total _ _ _ _ _ _ _ Hst Hl Hle P1) as [v1 ->].
    f_equal. symmetry. exact (run_post_agree _ _ _ _ _ _ _ _ _ _ _ F Hs Ht Hst P0 P1).
  - destruct (dinic lim n s t g) as [r1 g1] eqn:E1. cbn [fst].
    pose proof (dinic_spec true _ _ _ _ _ _ _ F (fun _ => Hn) Hs Ht E1) as P1.
    destruct (run_post_total _ _ _ _ _ _ _ Hst Hl Hle P1) as [v1 ->].
    f_equal. symmetry. exact (run_post_agree _ _ _ _ _ _ _ _ _ _ _ F Hs Ht Hst P0 P1).
Qed.

(** ** Source equal to sink *)

Lemma send_one_flow_self (n : nat) (s : Z) (f : number) (g : MaximumFlow) :
  send_one_flow (S n) s s f g = (Val f, g).
Proof. cbn [send_one_flow]. now rewrite Z.eqb_refl. Qed.

Lemma DFS_self (n : nat) (s : Z) (f : number) (g : MaximumFlow) :
  DFS (S n) s s f g = (Val f, g).
Proof. cbn [DFS]. now rewrite Z.eqb_refl. Qed.

Lemma BFS_self (n : nat) (s : Z) (g : MaximumFlow) (r : res bool) (g' : MaximumFlow) :
  wf g -> 0 <= s < vertices g -> BFS n s s g = (r, g') ->
  wf g' /\ vertices g' = vertices g /\ (r = Fuel \/ r = Val true).
Proof.
  intros Hwf Hs H. apply BFS_spec in H; auto. destruct H as (T & R & _ & P).
  pose proof (bfs_touch_fields _ _ T) as (Ev & _).
  split; [eapply wf_bfs_touch; eauto|]. split; auto.
  destruct R as [->|[b ->]]; auto. right.
  destruct (P b eq_refl) as (Inv & -> & _). now rewrite (bi_src _ _ Inv).
Qed.

(** With [s == t] the loop of [edmonds_karp] never ends; it is cut short
    only when not even one call of [send_one_flow] is allowed. *)
Lemma ek_while_self (lim fuel : nat) (s : Z) (k : nat) :
  forall mf g r g',
    wf g -> 0 <= s < vertices g -> ek_while lim fuel k s s mf g = (r, g') ->
    r = Fuel \/ (lim = O /\ r = Exn RecursionError).
Proof.
  induction k as [|k IH]; intros mf g r g' Hwf Hs H; cbn [ek_while] in H.
  - left. now injection H as <- <-.
  - destruct (BFS fuel s s g) as [rb g1] eqn:Eb.
    destruct (BFS_self _ _ _ _ _ Hwf Hs Eb) as (Hwf1 & Ev1 & [->| ->]).
    + rewrite (bind_fuel _ _ _ _ Eb) in H. left. now injection H as <- <-.
    + rewrite (bind_val _ _ _ _ _ Eb) in H. destruct lim as [|lim].
      * cbn [send_one_flow] in H.
        rewrite (bind_exn (raise RecursionError) _ g1 g1 _ eq_refl) in H.
        right. now injection H as <- <-.
      * rewrite (bind_val _ _ _ _ _ (send_one_flow_self lim s INF g1)) in H.
        cbn [is_zero] in H. apply IH in H; auto. now rewrite Ev1.
Qed.

Lemma dinic_inner_self (lim : nat) (s : Z) (k : nat) :
  forall f mf g r g',
    is_zero f = false -> dinic_inner lim k s s f mf g = (r, g') ->
    (r = Fuel \/ (lim = O /\ r = Exn RecursionError)) /\ g' = g.
Proof.
  induction k as [|k IH]; intros f mf g r g' Hz H; cbn [dinic_inner] in H.
  - injection H as <- <-. auto.
  - rewrite Hz in H. destruct lim as [|lim].
    + cbn [DFS] in H. rewrite (bind_exn (raise RecursionError) _ g g _ eq_refl) in H.
      injection H as <- <-. auto.
    + rewrite (bind_val _ _ _ _ _ (DFS_self lim s INF g)) in H. now apply IH in H.
Qed.

(** With [s == t] the loop of [dinic] never ends, with the same exception. *)
Lemma dinic_while_self (lim fuel : nat) (s : Z) (k : nat) :
  forall mf g r g',
    wf g -> 0 <= s < vertices g -> dinic_while lim fuel k s s mf g = (r, g') ->
    r = Fuel \/ (lim = O /\ r = Exn RecursionError).
Proof.
  destruct k as [|k]; intros mf g r g' Hwf Hs H; cbn [dinic_while] in H.
  - left. now injection H as <- <-.
  - destruct (BFS fuel s s g) as [rb g1] eqn:Eb.
    destruct (BFS_self _ _ _ _ _ Hwf Hs Eb) as (Hwf1 & Ev1 & [->| ->]).
    + rewrite (bind_fuel _ _ _ _ Eb) in H. left. now injection H as <- <-.
    + rewrite (bind_val _ _ _ _ _ Eb) in H. mstep_in H. mstep_in H.
      destruct lim as [|lim].
      * cbn [DFS] in H. match type of H with bind _ _ ?g0 = _ =>
          rewrite (bind_exn (raise RecursionError) _ g0 g0 _ eq_refl) in H end.
        right. now injection H as <- <-.
      * rewrite (bind_val _ _ _ _ _ (DFS_self lim s INF _)) in H.
        match type of H with bind (dinic_inner ?a ?b ?c ?d ?e ?f) _ ?g0 = _ =>
          destruct (dinic_inner a b c d e f g0) as [r3 g3] eqn:E3 end.
        destruct (dinic_inner_self _ _ _ INF _ _ _ _ eq_refl E3) as [[->|[? _]] ->];
          [|discriminate].
        rewrite (bind_fuel _ _ _ _ E3) in H. left. now injection H as <- <-.
Qed.

Lemma run_self (loop : M number) (g : MaximumFlow) :
  (forall g0 r g', vertices g0 = vertices g -> adjacency_list g0 = adjacency_list g ->
                   edge_list g0 = edge_list g -> loop g0 = (r, g') ->
                   forall v, r <> Val v) ->
  forall v, fst ((assert_has_not_already_been_run ;;; loop) g) <> Val v.
Proof.
  intros Hl v. destruct (has_been_run g) eqn:E.
  - rewrite (bind_exn _ _ _ _ _ (assert_done g E)). discriminate.
  - rewrite (bind_val _ _ _ _ _ (assert_ready g E)).
    destruct (loop (set_has_been_run true g)) as [r g'] eqn:El.
    apply Hl with (v := v) in El; auto.
Qed.

(** On a well-formed instance, neither entry point returns when [s == t]. *)
Lemma no_return_when_s_is_t (g : MaximumFlow) (s : Z) (lim n : nat) (v : number) :
  wf g -> 0 <= s < vertices g ->
  fst (edmonds_karp lim n s s g) <> Val v /\ fst (dinic lim n s s g) <> Val v.
Proof.
  intros Hwf Hs. split; apply run_self; intros g0 r g' Ev Ea Ee H v0.
  - apply ek_while_self in H; auto; [|apply (wf_static g); auto; now rewrite Ee|congruence].
    destruct H as [->|[_ ->]]; discriminate.
  - apply dinic_while_self in H; auto;
      [|apply (wf_static g); auto; now rewrite Ee|congruence].
    destruct H as [->|[_ ->]]; discriminate.
Qed.

(** ** The example graph *)

Lemma example_built : built 3 example_calls example_graph.
Proof.
  split.
  - repeat constructor; cbn; lia.
  - vm_compute. reflexivity.
Qed.

Lemma example_nonneg : nonneg_calls example_calls.
Proof. repeat constructor; cbn; lia. Qed.

Lemma example_run : edmonds_karp 5 5 0 2 example_graph = (Val (Fin 6), example_done).
Proof. vm_compute. reflexivity. Qed.

(** ** Capacities of type float *)

(** [edmonds_karp(0, 3)] on the float graph returns 0.9000000000000001. *)
Lemma float_edmonds_karp_run :
  PyNumber.edmonds_karp 8 8 0 3 PyNumber.float_graph =
  (PyNumber.Val PyNumber.f09_above, PyNumber.float_after_edmonds_karp).
Proof. vm_compute. reflexivity. Qed.

(** [dinic(0, 3)] on the same graph returns 0.9. *)
Lemma float_dinic_run :
  PyNumber.dinic 8 8 0 3 PyNumber.float_graph =
  (PyNumber.Val PyNumber.f09, PyNumber.float_after_dinic).
Proof. vm_compute. reflexivity. Qed.

(** After [edmonds_karp(0, 3)] the entry of the edge 0 -> 1, of capacity
    0.9, holds the flow 0.9000000000000001: its residual capacity
    [cap - flow] is negative. *)
Lemma float_over_capacity :
  PyNumber.cap_at (PyNumber.edge_list PyNumber.float_after_edmonds_karp) 0 = PyNumber.f09 /\
  PyNumber.flow_at (PyNumber.edge_list PyNumber.float_after_edmonds_karp) 0
  = PyNumber.f09_above /\
  PyNumber.num_lt PyNumber.f09 PyNumber.f09_above = true /\
  exists r, PyNumber.num_sub PyNumber.f09 PyNumber.f09_above = Some r /\
            PyNumber.num_lt r (PyNumber.PInt 0) = true.
Proof.
  split; [vm_compute; reflexivity|]. split; [vm_compute; reflexivity|].
  split; [vm_compute; reflexivity|].
  eexists. split; vm_compute; reflexivity.
Qed.

(** After [dinic(0, 3)] the edge entering vertex 1 carries 0.9, the edges
    leaving it carry 0.3 and 0.6: their sum, 0.8999999999999999 in Python
    and a different number also when taken exactly, is not 0.9. *)
Lemma float_not_conserved :
  PyNumber.out_flows (PyNumber.edge_list PyNumber.float_after_dinic) 1
  = [PyNumber.f03; PyNumber.f06] /\
  PyNumber.in_flows (PyNumber.edge_list PyNumber.float_after_dinic) 1 = [PyNumber.f09] /\
  PyNumber.add_up [PyNumber.f03; PyNumber.f06] = Some PyNumber.f09_below /\
  PyNumber.add_up [PyNumber.f09] = Some PyNumber.f09 /\
  PyNumber.num_eq PyNumber.f09_below PyNumber.f09 = false /\
  PyNumber.exact_sum [PyNumber.f03; PyNumber.f06] <> PyNumber.exact_sum [PyNumber.f09].
Proof.
  repeat (split; [vm_compute; reflexivity|]). vm_compute. discriminate.
Qed.

(** ** More nested calls than the interpreter allows *)


Lemma deep_edmonds_karp_run :
  fst (edmonds_karp 1000 1002 0 1000 deep_graph) = Exn RecursionError.
Proof. vm_compute. reflexivity. Qed.

(** ** C1 *)

(** C1, counterexample.  On the example graph with source and sink both 0,
    no number of nested calls and no amount of fuel makes [edmonds_karp] or
    [dinic] return: there is no flow value the two runs could agree on.
    On the graph with edges 0 -> 1 of capacity 0.9, 1 -> 3 of capacity 0.3,
    1 -> 2 and 2 -> 3 of capacity 1.0, [edmonds_karp(0, 3)] returns
    0.9000000000000001 and [dinic(0, 3)] returns 0.9.  On the path
    0 -> 1 -> ... -> 1000, [edmonds_karp(0, 1000)] raises [RecursionError]
    when 1000 nested calls are allowed, which is CPython's default limit. *)
Lemma C1_counterexample :
  ~ (exists l1 l2 n1 n2 v1 v2,
        fst (edmonds_karp l1 n1 0 0 example_graph) = Val v1 \/
        fst (dinic l2 n2 0 0 example_graph) = Val v2) /\
  (fst (PyNumber.edmonds_karp 8 8 0 3 PyNumber.float_graph)
   = PyNumber.Val PyNumber.f09_above /\
   fst (PyNumber.dinic 8 8 0 3 PyNumber.float_graph) = PyNumber.Val PyNumber.f09 /\
   PyNumber.num_eq PyNumber.f09_above PyNumber.f09 = false) /\
  fst (edmonds_karp 1000 1002 0 1000 deep_graph) = Exn RecursionError.
Proof.
  split; [|split].
  - intros (l1 & l2 & n1 & n2 & v1 & v2 & H).
    destruct (built_fresh 3 _ _ ltac:(lia) example_built) as (F & Ev & _).
    assert (Hs : 0 <= 0 < vertices example_graph) by (rewrite Ev; lia).
    destruct H as [H|H].
    + exact (proj1 (no_return_when_s_is_t _ 0 l1 n1 v1 (fr_wf _ F) Hs) H).
    + exact (proj2 (no_return_when_s_is_t _ 0 l2 n2 v2 (fr_wf _ F) Hs) H).
  - rewrite float_edmonds_karp_run, float_dinic_run. cbn [fst].
    split; [reflexivity|]. split; [reflexivity|]. vm_compute. reflexivity.
  - exact deep_edmonds_karp_run.
Qed.

(** C1, amended: for every graph built by add_edge calls between vertices
    in [0, V) with integer capacities that are not negative, every source s
    and sink t in [0, V) with s different from t, and an interpreter that
    allows at least V nested calls, edmonds_karp(s, t) on one deep copy and
    dinic(s, t) on another deep copy of the same instance both return, and
    return the same total flow value. *)
Theorem C1_same_flow_value (V : Z) (cs : list call) (g : MaximumFlow) (s t : Z)
        (h : heap) (r : nat) :
  built V cs g -> nonneg_calls cs ->
  0 <= s < V -> 0 <= t < V -> s <> t ->
  nth_error h r = Some g ->
  exists v c1 c2 h2,
    (exists h1, copy r h = Some (c1, h1) /\ copy r h1 = Some (c2, h2)) /\
    forall l1 l2 n1 n2,
      V <= Z.of_nat l1 -> V <= Z.of_nat l2 ->
      (enough_fuel g <= n1)%nat -> (enough_fuel g <= n2)%nat ->
      exists h3 h4,
        invoke c1 (edmonds_karp l1 n1 s t) h2 = Some (Val (Fin v), h3) /\
        invoke c2 (dinic l2 n2 s t) h3 = Some (Val (Fin v), h4).
Proof.
  intros Hb Hn Hs Ht Hst Hr.
  destruct (built_fresh V cs g ltac:(lia) Hb) as (F & Ev & Hc). specialize (Hc Hn).
  rewrite <- Ev in Hs, Ht.
  destruct (max_flow_value g s t F Hc Hs Ht Hst) as [v Hv].
  assert (Hlt : (r < length h)%nat) by (apply nth_error_Some; congruence).
  exists v, (length h), (length (h ++ [g])), ((h ++ [g]) ++ [g]). split.
  - exists (h ++ [g]). unfold copy. rewrite Hr. split; auto.
    rewrite nth_error_app1 by exact Hlt. now rewrite Hr.
  - intros l1 l2 n1 n2 L1 L2 H1 H2. rewrite <- Ev in L1, L2.
    destruct (Hv l1 n1 L1 H1) as [E1 _]. destruct (Hv l2 n2 L2 H2) as [_ E2].
    assert (G1 : nth_error ((h ++ [g]) ++ [g]) (length h) = Some g).
    { rewrite <- app_assoc. apply nth_error_app_len. }
    assert (G2 : nth_error ((h ++ [g]) ++ [g]) (length (h ++ [g])) = Some g)
      by apply nth_error_app_len.
    eexists. eexists. split.
    + unfold invoke. rewrite G1, E1. reflexivity.
    + unfold invoke. rewrite nth_error_replace_other, G2, E2; [reflexivity|].
      rewrite length_app. cbn [length]. lia.
Qed.

Lemma C1_witness :
  built 3 example_calls example_graph /\
  exists v c1 c2 h2,
    (exists h1, copy 0 [example_graph] = Some (c1, h1) /\ copy 0 h1 = Some (c2, h2)) /\
    forall l1 l2 n1 n2,
      3 <= Z.of_nat l1 -> 3 <= Z.of_nat l2 ->
      (enough_fuel example_graph <= n1)%nat -> (enough_fuel example_graph <= n2)%nat ->
      exists h3 h4,
        invoke c1 (edmonds_karp l1 n1 0 2) h2 = Some (Val (Fin v), h3) /\
        invoke c2 (dinic l2 n2 0 2) h3 = Some (Val (Fin v), h4).
Proof.
  split; [exact example_built|].
  apply (C1_same_flow_value 3 example_calls example_graph 0 2 [example_graph] 0).
  - exact example_built.
  - exact example_nonneg.
  - lia.
  - lia.
  - lia.
  - reflexivity.
Defined.

(** ** C2 *)

(** C2: on the graph with 3 vertices and edges 0->1, 0->2, 1->2 of capacity
    3, edmonds_karp(0, 2) and dinic(0, 2) both return exactly 6 (three
    nested calls suffice). *)
Theorem C2_example_max_flow_is_6 (lim n : nat) :
  (3 <= lim)%nat -> (13 <= n)%nat ->
  fst (edmonds_karp lim n 0 2 example_graph) = Val (Fin 6) /\
  fst (dinic lim n 0 2 example_graph) = Val (Fin 6).
Proof.
  intros Hl Hn.
  destruct (built_fresh 3 _ _ ltac:(lia) example_built) as (F & Ev & Hc).
  specialize (Hc example_nonneg).
  destruct (max_flow_value example_graph 0 2 F Hc) as [v Hv]; try (rewrite Ev; lia); try lia.
  assert (E : enough_fuel example_graph = 13%nat) by (vm_compute; reflexivity).
  rewrite E, Ev in Hv.
  assert (v = 6) as ->.
  { destruct (Hv 3%nat 13%nat ltac:(lia) (le_n _)) as [H _].
    assert (E2 : fst (edmonds_karp 3 13 0 2 example_graph) = Val (Fin 6))
      by (vm_compute; reflexivity).
    rewrite E2 in H. now injection H. }
  apply Hv; lia.
Qed.

Lemma C2_witness :
  (3 <= 3)%nat /\ (13 <= 13)%nat /\
  fst (edmonds_karp 3 13 0 2 example_graph) = Val (Fin 6) /\
  fst (dinic 3 13 0 2 example_graph) = Val (Fin 6).
Proof. split; [lia|]. split; [lia|]. apply (C2_example_max_flow_is_6 3 13); lia. Defined.

(** ** C3, C4, C5, C10: what every run keeps *)

(** Every store a run on a built graph goes through, the last one included. *)
Lemma run_stores (c : bool) (V : Z) (cs : list call) (g : MaximumFlow) (s t : Z)
      (lim n : nat) (r : res number) (g' : MaximumFlow) :
  built V cs g -> (c = true -> nonneg_calls cs) ->
  0 <= s < V -> 0 <= t < V ->
  edmonds_karp lim n s t g = (r, g') \/ dinic lim n s t g = (r, g') ->
  wf g /\ vertices g = V /\ run_post c s t lim n g r g' /\
  Forall (fun el => strip el = strip (edge_list g) /\ good c el)
         (edge_list g' :: history g').
Proof.
  intros Hb Hn Hs Ht H.
  destruct (built_fresh V cs g ltac:(lia) Hb) as (F & Ev & Hc).
  rewrite <- Ev in Hs, Ht.
  assert (P : run_post c s t lim n g r g').
  { destruct H as [H|H].
    - apply (edmonds_karp_spec c lim n s t g r g'); auto.
    - apply (dinic_spec c lim n s t g r g'); auto. }
  conj; auto. exact (fr_wf _ F).
  destruct P as (A1 & A2 & A3 & A4 & A5 & A6 & _). constructor; auto.
Qed.

Lemma good_even (g : MaximumFlow) (el : list edge) :
  wf g -> strip el = strip (edge_list g) -> Z.even (zlen el) = true.
Proof. intros Hwf Hs. rewrite (strip_zlen _ _ Hs). exact (wf_even _ Hwf). Qed.

(** C3, counterexample: on the graph with edges 0 -> 1 of capacity 0.9,
    1 -> 3 of capacity 0.3, 1 -> 2 and 2 -> 3 of capacity 1.0, dinic(0, 3)
    returns 0.9 and leaves the flow 0.9 on the edge entering vertex 1 and
    the flows 0.3 and 0.6 on the edges leaving it, whose sum is
    0.8999999999999999 in Python and differs from 0.9 as an exact sum
    too. *)
Lemma C3_counterexample :
  PyNumber.dinic 8 8 0 3 PyNumber.float_graph =
  (PyNumber.Val PyNumber.f09, PyNumber.float_after_dinic) /\
  PyNumber.in_flows (PyNumber.edge_list PyNumber.float_after_dinic) 1 = [PyNumber.f09] /\
  PyNumber.out_flows (PyNumber.edge_list PyNumber.float_after_dinic) 1
  = [PyNumber.f03; PyNumber.f06] /\
  PyNumber.add_up [PyNumber.f09] = Some PyNumber.f09 /\
  PyNumber.add_up [PyNumber.f03; PyNumber.f06] = Some PyNumber.f09_below /\
  PyNumber.num_eq PyNumber.f09_below PyNumber.f09 = false /\
  PyNumber.exact_sum [PyNumber.f03; PyNumber.f06] <> PyNumber.exact_sum [PyNumber.f09].
Proof.
  destruct float_not_conserved as (A & B & C & D & E & F).
  split; [exact float_dinic_run|]. repeat split; assumption.
Qed.

(** C3, amended: after edmonds_karp(s, t) or dinic(s, t) has returned on a
    graph built by add_edge calls with integer capacities, at every vertex
    other than s and t the flow summed over the edges leaving it equals the
    flow summed over the edges entering it (and the flows of its adjacency
    list sum to zero). *)
Theorem C3_flow_conservation (V : Z) (cs : list call) (g : MaximumFlow) (s t : Z)
        (lim n : nat) (mf : number) (g' : MaximumFlow) :
  built V cs g -> 0 <= s < V -> 0 <= t < V ->
  edmonds_karp lim n s t g = (Val mf, g') \/ dinic lim n s t g = (Val mf, g') ->
  forall v, 0 <= v < V -> v <> s -> v <> t ->
            out_flow (edge_list g') v = in_flow (edge_list g') v /\
            net (edge_list g') v = 0.
Proof.
  intros Hb Hs Ht H v Hv Hvs Hvt.
  destruct (run_stores false V cs g s t lim n _ _ Hb ltac:(discriminate) Hs Ht H)
    as (Hwf & Ev & P & Fa).
  destruct P as (A1 & A2 & A3 & A4 & [Ha _] & A6 & A7 & _).
  assert (Hnet : net (edge_list g') v = 0) by (apply A7; auto; congruence).
  split; auto.
  pose proof (net_out_in (edge_list g') v (good_even g _ Hwf A3) Ha). lia.
Qed.

Lemma C3_witness :
  built 3 example_calls example_graph /\
  out_flow (edge_list example_done) 1 = in_flow (edge_list example_done) 1 /\
  net (edge_list example_done) 1 = 0.
Proof.
  split; [exact example_built|].
  apply (C3_flow_conservation 3 example_calls example_graph 0 2 5 5 (Fin 6) example_done
           example_built); try lia.
  left. vm_compute. reflexivity.
Defined.



(** C5, counterexample: after edmonds_karp(0, 2) on the example graph the
    reverse entry at subscript 1 holds flow -3, below zero.  And with
    capacities of type float the upper bound fails as well: on the graph
    with edges 0 -> 1 of capacity 0.9, 1 -> 3 of capacity 0.3, 1 -> 2 and
    2 -> 3 of capacity 1.0, edmonds_karp(0, 3) leaves the flow
    0.9000000000000001 on the entry of capacity 0.9. *)
Lemma C5_counterexample :
  ~ between_zero_and_cap (edge_list example_done) /\
  (PyNumber.cap_at (PyNumber.edge_list PyNumber.float_after_edmonds_karp) 0
   = PyNumber.f09 /\
   PyNumber.flow_at (PyNumber.edge_list PyNumber.float_after_edmonds_karp) 0
   = PyNumber.f09_above /\
   PyNumber.num_lt PyNumber.f09 PyNumber.f09_above = true).
Proof.
  split.
  - intros H. specialize (H 1). vm_compute in H.
    destruct H as [H _]; [split; [discriminate|reflexivity]|]. now apply H.
  - destruct float_over_capacity as (A & B & C & _). auto.
Qed.

(** C5, amended: on a graph built by add_edge calls with integer capacities
    that are not negative, at all times during and after a run every entry
    of the edge store has -capacity[i ^ 1] <= flow[i] <= capacity[i]: the
    forward entry of a directed edge has 0 <= flow <= capacity, and its
    reverse entry, of capacity 0, holds the negated flow. *)
Theorem C5_flow_within_capacities (V : Z) (cs : list call) (g : MaximumFlow) (s t : Z)
        (lim n : nat) (r : res number) (g' : MaximumFlow) :
  built V cs g -> nonneg_calls cs -> 0 <= s < V -> 0 <= t < V ->
  edmonds_karp lim n s t g = (r, g') \/ dinic lim n s t g = (r, g') ->
  Forall within_caps (edge_list g' :: history g').
Proof.
  intros Hb Hn Hs Ht H.
  destruct (run_stores true V cs g s t lim n _ _ Hb (fun _ => Hn) Hs Ht H)
    as (Hwf & _ & _ & Fa).
  eapply Forall_impl; [|exact Fa]. cbv beta. intros el [Hst [Ha Hc]] i Hi.
  specialize (Hc eq_refl).
  pose proof (mate_range _ _ (good_even g el Hwf Hst) Hi) as Hm.
  pose proof (Ha i Hi). pose proof (Hc i Hi). pose proof (Hc _ Hm).
  unfold mate in *. lia.
Qed.

Lemma C5_witness :
  built 3 example_calls example_graph /\
  Forall within_caps (edge_list example_done :: history example_done).
Proof.
  split; [exact example_built|].
  apply (C5_flow_within_capacities 3 example_calls example_graph 0 2 5 5 (Val (Fin 6))
           example_done example_built example_nonneg); try lia.
  left. vm_compute. reflexivity.
Defined.

(** C10, counterexample: on the graph with edges 0 -> 1 of capacity 0.9,
    1 -> 3 of capacity 0.3, 1 -> 2 and 2 -> 3 of capacity 1.0,
    edmonds_karp(0, 3) returns and leaves the flow 0.9000000000000001 on
    the entry of capacity 0.9: the residual capacity cap - flow of that
    entry is negative. *)
Lemma C10_counterexample :
  PyNumber.edmonds_karp 8 8 0 3 PyNumber.float_graph =
  (PyNumber.Val PyNumber.f09_above, PyNumber.float_after_edmonds_karp) /\
  exists r,
    PyNumber.num_sub
      (PyNumber.cap_at (PyNumber.edge_list PyNumber.float_after_edmonds_karp) 0)
      (PyNumber.flow_at (PyNumber.edge_list PyNumber.float_after_edmonds_karp) 0)
    = Some r /\
    PyNumber.num_lt r (PyNumber.PInt 0) = true.
Proof.
  split; [exact float_edmonds_karp_run|].
  destruct float_over_capacity as (-> & -> & _ & R). exact R.
Qed.

(** C10, amended: on a graph built by add_edge calls with integer
    capacities that are not negative, the residual capacity
    capacity[i] - flow[i] of every entry of the edge store, reverse entries
    included, is not negative after every flow update of a run of
    edmonds_karp or dinic and when the run ends. *)
Theorem C10_residual_nonnegative (V : Z) (cs : list call) (g : MaximumFlow) (s t : Z)
        (lim n : nat) (r : res number) (g' : MaximumFlow) :
  built V cs g -> nonneg_calls cs -> 0 <= s < V -> 0 <= t < V ->
  edmonds_karp lim n s t g = (r, g') \/ dinic lim n s t g = (r, g') ->
  Forall residual_ok (edge_list g' :: history g').
Proof.
  intros Hb Hn Hs Ht H.
  destruct (run_stores true V cs g s t lim n _ _ Hb (fun _ => Hn) Hs Ht H)
    as (_ & _ & _ & Fa).
  eapply Forall_impl; [|exact Fa]. cbv beta. intros el [_ [_ Hc]] i Hi.
  specialize (Hc eq_refl i Hi). lia.
Qed.

Lemma C10_witness :
  built 3 example_calls example_graph /\
  Forall residual_ok (edge_list example_done :: history example_done).
Proof.
  split; [exact example_built|].
  apply (C10_residual_nonnegative 3 example_calls example_graph 0 2 5 5 (Val (Fin 6))
           example_done example_built example_nonneg); try lia.
  left. vm_compute. reflexivity.
Defined.

(** ** C6 *)

(** C6: once edmonds_karp or dinic has returned on an instance, calling
    either of them again on that instance raises the rerun exception and
    leaves the instance, its stored flows included, exactly as it was. *)
Theorem C6_rerun_guard (g g' : MaximumFlow) (lim n : nat) (s t : Z) (v : number) :
  edmonds_karp lim n s t g = (Val v, g') \/ dinic lim n s t g = (Val v, g') ->
  forall lim' m s' t',
    edmonds_karp lim' m s' t' g' = (Exn RerunError, g') /\
    dinic lim' m s' t' g' = (Exn RerunError, g').
Proof.
  intros H lim' m s' t'.
  assert (Hrun : has_been_run g' = true).
  { destruct H as [H|H].
    - pose proof (run_sets_flag (ek_while lim n n s t (Fin 0)) g
                                (keeps_ek_while lim n s t n _)) as E.
      change (has_been_run (snd (edmonds_karp lim n s t g)) = true) in E.
      now rewrite H in E.
    - pose proof (run_sets_flag (dinic_while lim n n s t (Fin 0)) g
                                (keeps_dinic_while lim n s t n _)) as E.
      change (has_been_run (snd (dinic lim n s t g)) = true) in E.
      now rewrite H in E. }
  split; apply run_done; exact Hrun.
Qed.

Lemma C6_witness :
  edmonds_karp 5 5 0 2 example_graph = (Val (Fin 6), example_done) /\
  edmonds_karp 7 7 0 2 example_done = (Exn RerunError, example_done) /\
  dinic 7 7 0 2 example_done = (Exn RerunError, example_done).
Proof.
  split; [exact example_run|].
  exact (C6_rerun_guard example_graph example_done 5 5 0 2 (Fin 6) (or_introl example_run)
                        7%nat 7%nat 0 2).
Defined.

(** ** C7 *)

Lemma replace_nth_same {X} (l : list X) (k : nat) (x : X) :
  nth_error l k = Some x -> replace_nth k x l = l.
Proof.
  revert k. induction l as [|y l IH]; intros [|k] H; cbn [replace_nth nth_error] in *;
    try discriminate.
  - now injection H as ->.
  - f_equal. now apply IH.
Qed.

(** C7, counterexample: the example instance has returned from
    edmonds_karp(0, 2); dinic(0, 2) on a copy made afterwards raises the
    rerun exception. *)
Lemma C7_counterexample :
  fst (edmonds_karp 5 5 0 2 example_graph) = Val (Fin 6) /\
  exists c h1 h2,
    copy 0 [example_done] = Some (c, h1) /\
    invoke c (dinic 5 5 0 2) h1 = Some (Exn RerunError, h2).
Proof.
  split; [vm_compute; reflexivity|].
  exists 1%nat, [example_done; example_done], [example_done; example_done].
  split; vm_compute; reflexivity.
Qed.

(** C7, amended: copy() produces a new instance with the same state as the
    original, has_been_run included, and nothing called on the copy changes
    the original.  A copy of an instance that has not been run is ready: a
    run entry point on it does not raise the rerun exception.  A copy of an
    instance that has been run has been run too: a run entry point on it
    raises the rerun exception and changes nothing. *)
Theorem C7_copy_is_independent (h : heap) (r : nat) (g : MaximumFlow) :
  nth_error h r = Some g ->
  exists c h1,
    copy r h = Some (c, h1) /\ c <> r /\
    nth_error h1 c = Some g /\ nth_error h1 r = Some g /\
    forall lim n s t,
    exists x1 x2 h2 h3,
      invoke c (edmonds_karp lim n s t) h1 = Some (x1, h2) /\ nth_error h2 r = Some g /\
      invoke c (dinic lim n s t) h1 = Some (x2, h3) /\ nth_error h3 r = Some g /\
      (has_been_run g = false -> x1 <> Exn RerunError /\ x2 <> Exn RerunError) /\
      (has_been_run g = true ->
       x1 = Exn RerunError /\ x2 = Exn RerunError /\ h2 = h1 /\ h3 = h1).
Proof.
  intros Hr.
  assert (Hlt : (r < length h)%nat) by (apply nth_error_Some; congruence).
  assert (Hc : nth_error (h ++ [g]) (length h) = Some g) by apply nth_error_app_len.
  assert (Ho : nth_error (h ++ [g]) r = Some g)
    by (rewrite nth_error_app1 by exact Hlt; exact Hr).
  exists (length h), (h ++ [g]). unfold copy. rewrite Hr.
  conj; auto; try lia.
  intros lim n s t. unfold invoke. rewrite Hc.
  eexists. eexists. eexists. eexists. conj; try reflexivity.
  - rewrite nth_error_replace_other by lia. exact Ho.
  - rewrite nth_error_replace_other by lia. exact Ho.
  - intros E. split.
    + exact (run_ready (ek_while lim n n s t (Fin 0)) g (keeps_ek_while lim n s t n _) E).
    + exact (run_ready (dinic_while lim n n s t (Fin 0)) g
                       (keeps_dinic_while lim n s t n _) E).
  - intros E.
    pose proof (run_done (ek_while lim n n s t (Fin 0)) g E) as E1.
    pose proof (run_done (dinic_while lim n n s t (Fin 0)) g E) as E2.
    change (edmonds_karp lim n s t g = (Exn RerunError, g)) in E1.
    change (dinic lim n s t g = (Exn RerunError, g)) in E2.
    rewrite E1, E2. cbn [fst snd]. conj; auto; now apply replace_nth_same.
Qed.

Lemma C7_witness :
  nth_error [example_graph] 0 = Some example_graph /\
  exists c h1,
    copy 0 [example_graph] = Some (c, h1) /\ c <> 0%nat /\
    nth_error h1 c = Some example_graph /\ nth_error h1 0 = Some example_graph /\
    forall lim n s t,
    exists x1 x2 h2 h3,
      invoke c (edmonds_karp lim n s t) h1 = Some (x1, h2) /\
      nth_error h2 0 = Some example_graph /\
      invoke c (dinic lim n s t) h1 = Some (x2, h3) /\
      nth_error h3 0 = Some example_graph /\
      (has_been_run example_graph = false ->
       x1 <> Exn RerunError /\ x2 <> Exn RerunError) /\
      (has_been_run example_graph = true ->
       x1 = Exn RerunError /\ x2 = Exn RerunError /\ h2 = h1 /\ h3 = h1).
Proof.
  split; [reflexivity|].
  apply (C7_copy_is_independent [example_graph] 0 example_graph). reflexivity.
Defined.

(** ** C8 *)

(** C8, counterexample: in the state the first BFS of edmonds_karp(0, 2)
    leaves on the example graph, send_one_flow(2, 2) returns float('inf'),
    not zero. *)
Lemma C8_counterexample :
  fst (send_one_flow 5 2 2 INF (snd (BFS 5 0 2 (set_has_been_run true example_graph))))
  <> Val (Fin 0).
Proof. vm_compute. discriminate. Qed.

(** C8, amended: send_one_flow with source equal to sink pushes no flow,
    leaving the instance as it is, and returns the bound f it was given:
    float('inf') by default, zero only when f is zero. *)
Theorem C8_source_is_sink_returns_bound (n : nat) (s : Z) (f : number) (g : MaximumFlow) :
  send_one_flow (S n) s s f g = (Val f, g).
Proof. apply send_one_flow_self. Qed.

(** ** C9 *)

(** C9: add_edge(u, u, capacity, directed) returns without raising, appends
    no edge and leaves every adjacency list, and the whole instance, as it
    was. *)
Theorem C9_self_loop_is_noop (g : MaximumFlow) (u capacity : Z) (directed : bool) :
  add_edge u u capacity directed g = (Val tt, g).
Proof. unfold add_edge. now rewrite Z.eqb_refl. Qed.

(** * Further properties of the code *)

(** ** Subscripts out of range and negative subscripts *)

Lemma py_index_out (len : nat) (i : Z) :
  out_of_range (Z.of_nat len) i -> py_index len i = None.
Proof.
  unfold out_of_range, py_index. intros H.
  destruct (Z.leb_spec 0 i), (Z.ltb_spec i (Z.of_nat len)),
    (Z.leb_spec (- Z.of_nat len) i), (Z.ltb_spec i 0); cbn [andb]; auto; lia.
Qed.

Lemma py_index_neg (len : nat) (i : Z) :
  - Z.of_nat len <= i < 0 -> py_index len i = Some (Z.to_nat (Z.of_nat len + i)).
Proof.
  unfold py_index. intros H.
  destruct (Z.leb_spec 0 i), (Z.ltb_spec i (Z.of_nat len)),
    (Z.leb_spec (- Z.of_nat len) i), (Z.ltb_spec i 0); cbn [andb]; auto; lia.
Qed.

Lemma getitem_out {X} (l : list X) (i : Z) (g : MaximumFlow) :
  out_of_range (zlen l) i -> getitem l i g = (Exn IndexError, g).
Proof. intros H. unfold getitem, py_get. now rewrite py_index_out. Qed.

Lemma setitem_out {X} (l : list X) (i : Z) (x : X) (g : MaximumFlow) :
  out_of_range (zlen l) i -> setitem l i x g = (Exn IndexError, g).
Proof. intros H. unfold setitem, py_set. now rewrite py_index_out. Qed.

Lemma getitem_neg {X} (d : X) (l : list X) (i : Z) (g : MaximumFlow) :
  - zlen l <= i < 0 -> getitem l i g = (Val (zn d l (zlen l + i)), g).
Proof.
  intros H. unfold getitem, py_get, zlen in *. rewrite py_index_neg by lia.
  unfold zn. rewrite (nth_error_nth' l d) by lia. reflexivity.
Qed.

Lemma setitem_neg {X} (l : list X) (i : Z) (x : X) (g : MaximumFlow) :
  - zlen l <= i < 0 ->
  setitem l i x g = (Val (replace_nth (Z.to_nat (zlen l + i)) x l), g).
Proof.
  intros H. unfold setitem, py_set, zlen in *. now rewrite py_index_neg by lia.
Qed.

Ltac init_lia :=
  cbn [init adjacency_list vertices edge_list]; rewrite ?zlen_repeat;
  unfold out_of_range, zlen; cbn [length]; lia.

Lemma zlen_snoc {X} (l : list X) (x : X) : zlen (l ++ [x]) = zlen l + 1.
Proof. rewrite zlen_app. reflexivity. Qed.

(** ** add_edge *)

Lemma adj_added (g : MaximumFlow) (u v capacity : Z) (directed : bool) (w : Z) :
  zlen (adjacency_list g) = vertices g ->
  0 <= u < vertices g -> 0 <= v < vertices g -> u <> v -> 0 <= w < vertices g ->
  adj (added g u v capacity directed) w =
  adj g w ++ (if w =? u then [zlen (edge_list g)]
              else if w =? v then [zlen (edge_list g) + 1] else []).
Proof.
  intros Hl Hu Hv Hne Hw. unfold adj, added. fgoal.
  rewrite !zlen_snoc. replace (zlen (edge_list g) + 1 - 1) with (zlen (edge_list g)) by lia.
  replace (zlen (edge_list g) + 1 + 1 - 1) with (zlen (edge_list g) + 1) by lia.
  rewrite zn_replace by (rewrite ?zlen_replace; lia).
  rewrite !zn_replace by lia.
  apply Z.eqb_neq in Hne. rewrite Z.eqb_sym in Hne. rewrite Hne.
  destruct (w =? v) eqn:E1.
  - apply Z.eqb_eq in E1. subst w. rewrite Hne. reflexivity.
  - destruct (w =? u) eqn:E2.
    + apply Z.eqb_eq in E2. subst w. reflexivity.
    + now rewrite app_nil_r.
Qed.

(** X1: on a well-formed instance, add_edge(u, v, capacity, directed) with
    both vertices in [0, V) returns normally and keeps the instance
    well-formed.  With u != v it appends exactly the entries
    [v, capacity, 0] and [u, 0 if directed else capacity, 0], in this
    order, and their two subscripts to the ends of the adjacency lists of
    u and of v; every other adjacency list, the vertex count and the
    has_been_run flag stay as they were. *)
Theorem add_edge_in_range (g : MaximumFlow) (u v capacity : Z) (directed : bool) :
  wf g -> 0 <= u < vertices g -> 0 <= v < vertices g ->
  exists g',
    add_edge u v capacity directed g = (Val tt, g') /\ wf g' /\
    vertices g' = vertices g /\ has_been_run g' = has_been_run g /\
    edge_list g' =
    edge_list g ++ (if u =? v then []
                    else [forward_entry v capacity; reverse_entry u capacity directed]) /\
    forall w, 0 <= w < vertices g ->
              adj g' w =
              adj g w ++ (if u =? v then []
                          else if w =? u then [zlen (edge_list g)]
                               else if w =? v then [zlen (edge_list g) + 1] else []).
Proof.
  intros Hwf Hu Hv. destruct (Z.eq_dec u v) as [E|E].
  - exists g. subst v. unfold add_edge. rewrite Z.eqb_refl. conj; auto.
    + now rewrite app_nil_r.
    + intros w _. now rewrite app_nil_r.
  - exists (added g u v capacity directed).
    pose proof (wf_adj_len _ Hwf) as Hl.
    rewrite (add_edge_run g u v capacity directed Hl Hu Hv E).
    assert (Eb : (u =? v) = false) by now apply Z.eqb_neq.
    rewrite Eb. conj; auto.
    + now apply wf_added.
    + unfold added. fgoal. now rewrite <- app_assoc.
    + intros w Hw. now apply adj_added.
Qed.

Lemma add_edge_in_range_witness :
  wf (init 3) /\
  exists g',
    add_edge 0 1 3 true (init 3) = (Val tt, g') /\ wf g' /\
    vertices g' = 3 /\ has_been_run g' = false /\
    edge_list g' = [forward_entry 1 3; reverse_entry 0 3 true] /\
    forall w, 0 <= w < 3 ->
              adj g' w = adj (init 3) w ++ (if w =? 0 then [0] else if w =? 1 then [1] else []).
Proof.
  assert (W : wf (init 3)) by (apply fr_wf, fresh_init; lia).
  split; [exact W|].
  apply (add_edge_in_range (init 3) 0 1 3 true W); init_lia.
Defined.

Lemma add_edge_bad_tail (g : MaximumFlow) (u v capacity : Z) (directed : bool) :
  u <> v -> out_of_range (zlen (adjacency_list g)) u ->
  add_edge u v capacity directed g =
  (Exn IndexError, set_edge_list (edge_list g ++ [forward_entry v capacity]) g).
Proof.
  intros Hne Hu. apply Z.eqb_neq in Hne.
  unfold add_edge. rewrite Hne. mstep. mstep.
  apply bind_exn. apply getitem_out. exact Hu.
Qed.

(** X2: add_edge(u, v, ...) with u != v and u no subscript of the adjacency
    lists raises IndexError, but only after it has appended the entry
    [v, capacity, 0]: the adjacency lists are untouched, the edge store is
    one entry longer, and an instance that was well-formed no longer is
    (its entries no longer come in pairs). *)
Theorem add_edge_tail_out_of_range (g : MaximumFlow) (u v capacity : Z) (directed : bool) :
  u <> v -> out_of_range (zlen (adjacency_list g)) u ->
  exists g',
    add_edge u v capacity directed g = (Exn IndexError, g') /\
    edge_list g' = edge_list g ++ [forward_entry v capacity] /\
    adjacency_list g' = adjacency_list g /\
    (wf g -> ~ wf g').
Proof.
  intros Hne Hu.
  exists (set_edge_list (edge_list g ++ [forward_entry v capacity]) g).
  conj; auto.
  - now apply add_edge_bad_tail.
  - intros W W'. pose proof (wf_even _ W) as E. pose proof (wf_even _ W') as E'.
    revert E'. fgoal. rewrite zlen_snoc, Z.even_add, E. discriminate.
Qed.

Lemma add_edge_tail_out_of_range_witness :
  5 <> 0 /\ out_of_range (zlen (adjacency_list (init 2))) 5 /\
  exists g',
    add_edge 5 0 7 true (init 2) = (Exn IndexError, g') /\
    edge_list g' = edge_list (init 2) ++ [forward_entry 0 7] /\
    adjacency_list g' = adjacency_list (init 2) /\
    (wf (init 2) -> ~ wf g').
Proof.
  assert (H1 : 5 <> 0) by lia.
  assert (H2 : out_of_range (zlen (adjacency_list (init 2))) 5) by init_lia.
  split; [exact H1|]. split; [exact H2|].
  exact (add_edge_tail_out_of_range (init 2) 5 0 7 true H1 H2).
Defined.

(** X3: add_edge(u, v, ...) with u a vertex and v no subscript of the
    adjacency lists raises IndexError only at its last statement: by then
    both entries are appended and the subscript of the first one is at the
    end of the adjacency list of u. *)
Theorem add_edge_head_out_of_range (g : MaximumFlow) (u v capacity : Z) (directed : bool) :
  0 <= u < zlen (adjacency_list g) -> out_of_range (zlen (adjacency_list g)) v ->
  exists g',
    add_edge u v capacity directed g = (Exn IndexError, g') /\
    edge_list g' =
    edge_list g ++ [forward_entry v capacity; reverse_entry u capacity directed] /\
    adj g' u = adj g u ++ [zlen (edge_list g)] /\
    (forall w, 0 <= w -> w <> u -> adj g' w = adj g w).
Proof.
  intros Hu Hv.
  assert (Hne : (u =? v) = false).
  { apply Z.eqb_neq. unfold out_of_range in Hv. pose proof (zlen_nonneg (adjacency_list g)). lia. }
  eexists. split.
  - unfold add_edge. rewrite Hne. mstep. mstep.
    rewrite (bind_getitem []) by (fgoal; lia). mstep.
    rewrite bind_setitem by (fgoal; lia). mstep. mstep. mstep.
    apply bind_exn. apply getitem_out. fgoal. rewrite zlen_replace. exact Hv.
  - fgoal. conj.
    + now rewrite <- app_assoc.
    + unfold adj. fgoal. rewrite zn_replace by lia. rewrite Z.eqb_refl.
      rewrite length_app. cbn [length]. unfold zlen. f_equal. f_equal. lia.
    + intros w Hw Hwu. unfold adj. fgoal. rewrite zn_replace by lia.
      apply Z.eqb_neq in Hwu. now rewrite Hwu.
Qed.

Lemma add_edge_head_out_of_range_witness :
  0 <= 0 < zlen (adjacency_list (init 2)) /\
  exists g',
    add_edge 0 2 7 true (init 2) = (Exn IndexError, g') /\
    edge_list g' = edge_list (init 2) ++ [forward_entry 2 7; reverse_entry 0 7 true] /\
    adj g' 0 = adj (init 2) 0 ++ [zlen (edge_list (init 2))] /\
    (forall w, 0 <= w -> w <> 0 -> adj g' w = adj (init 2) w).
Proof.
  assert (H1 : 0 <= 0 < zlen (adjacency_list (init 2))) by init_lia.
  split; [exact H1|].
  apply (add_edge_head_out_of_range (init 2) 0 2 7 true H1). init_lia.
Defined.

(** X4: add_edge checks no vertex id.  A negative u in [-V, 0) is taken
    as a subscript from the end: the call returns normally, the new
    entry is attached to the adjacency list of vertex V + u, and the
    reverse entry stores the head u itself, which is no vertex, so the
    instance is no longer well-formed. *)
Theorem add_edge_negative_tail (g : MaximumFlow) (u v capacity : Z) (directed : bool) :
  zlen (adjacency_list g) = vertices g -> - vertices g <= u < 0 -> 0 <= v < vertices g ->
  exists g',
    add_edge u v capacity directed g = (Val tt, g') /\
    edge_list g' =
    edge_list g ++ [forward_entry v capacity; reverse_entry u capacity directed] /\
    In (zlen (edge_list g)) (adj g' (vertices g + u)) /\
    ev (edge_list g') (zlen (edge_list g) + 1) = u /\
    ~ wf g'.
Proof.
  intros Hl Hu Hv.
  assert (Hne : (u =? v) = false) by (apply Z.eqb_neq; lia).
  assert (Hu' : - zlen (adjacency_list g) <= u < 0) by lia.
  eexists. split.
  - unfold add_edge. rewrite Hne. mstep. mstep. fgoal.
    rewrite (bind_val _ _ _ _ _ (getitem_neg [] (adjacency_list g) u _ Hu')). mstep.
    rewrite (bind_val _ _ _ _ _ (setitem_neg (adjacency_list g) u _ _ Hu')).
    mstep. mstep. mstep.
    rewrite (bind_getitem []) by (fgoal; rewrite zlen_replace; lia). mstep.
    rewrite bind_setitem by (fgoal; rewrite zlen_replace; lia).
    reflexivity.
  - fgoal.
    assert (Hev : ev ((edge_list g ++ [mkEdge v capacity 0]) ++
                      [mkEdge u (if directed then 0 else capacity) 0])
                     (zlen (edge_list g) + 1) = u).
    { pose proof (zlen_nonneg (edge_list g)). rewrite ev_added by lia.
      assert ((zlen (edge_list g) + 1 <? zlen (edge_list g)) = false) as ->
          by (apply Z.ltb_ge; lia).
      assert ((zlen (edge_list g) + 1 =? zlen (edge_list g)) = false) as ->
          by (apply Z.eqb_neq; lia).
      now rewrite Z.eqb_refl. }
    conj.
    + now rewrite <- app_assoc.
    + unfold adj. fgoal. rewrite Hl.
      rewrite zn_replace by (rewrite ?zlen_replace; lia).
      rewrite !zn_replace by lia. rewrite !length_app. cbn [length].
      replace (Z.of_nat (length (edge_list g) + 1) - 1) with (zlen (edge_list g))
        by (unfold zlen; lia).
      rewrite Z.eqb_refl. rewrite (Z.eqb_sym v).
      destruct (vertices g + u =? v) eqn:E.
      * rewrite !in_app_iff. left. right. now left.
      * rewrite in_app_iff. right. now left.
    + exact Hev.
    + intros W. pose proof (wf_head _ W (zlen (edge_list g) + 1)) as H.
      revert H. fgoal. rewrite Hev. rewrite !zlen_snoc.
      pose proof (zlen_nonneg (edge_list g)). lia.
Qed.

Lemma add_edge_negative_tail_witness :
  zlen (adjacency_list (init 3)) = vertices (init 3) /\
  exists g',
    add_edge (-1) 0 7 true (init 3) = (Val tt, g') /\
    edge_list g' = edge_list (init 3) ++ [forward_entry 0 7; reverse_entry (-1) 7 true] /\
    In (zlen (edge_list (init 3))) (adj g' (vertices (init 3) + -1)) /\
    ev (edge_list g') (zlen (edge_list (init 3)) + 1) = -1 /\
    ~ wf g'.
Proof.
  assert (H1 : zlen (adjacency_list (init 3)) = vertices (init 3)) by reflexivity.
  split; [exact H1|].
  apply (add_edge_negative_tail (init 3) (-1) 0 7 true H1); init_lia.
Defined.

(** ** Graphs built by add_edge *)

Lemma add_edges_entries (cs : list call) :
  forall g g', zlen (adjacency_list g) = vertices g ->
               Forall (valid_call (vertices g)) cs ->
               add_edges cs g = (Val tt, g') ->
               edge_list g' = edge_list g ++ entries_of cs.
Proof.
  induction cs as [|c cs IH]; intros g g' Hl Hv H.
  - cbn [add_edges] in H. injection H as <-. cbn [entries_of flat_map]. now rewrite app_nil_r.
  - inversion Hv as [|? ? [Hu Hw] Hv']. subst. cbn [add_edges] in H.
    cbn [entries_of flat_map]. fold (entries_of cs).
    destruct (Z.eq_dec (c_u c) (c_v c)) as [E|E].
    + unfold add_edge in H. rewrite E, Z.eqb_refl in H.
      rewrite (bind_val _ _ g g tt eq_refl) in H.
      rewrite E, Z.eqb_refl. cbn [app]. now apply IH.
    + rewrite (bind_val _ _ _ _ _ (add_edge_run g _ _ (c_cap c) (c_directed c) Hl Hu Hw E)) in H.
      apply IH in H.
      * rewrite H. apply Z.eqb_neq in E. rewrite E. unfold added. fgoal.
        rewrite <- !app_assoc. reflexivity.
      * unfold added. fgoal. now rewrite !zlen_replace.
      * exact Hv'.
Qed.

(** X5: the edge store of a graph built by add_edge calls between
    vertices in [0, V) is the concatenation, in call order, of the pairs
    [v, capacity, 0], [u, 0 if directed else capacity, 0] of the calls
    with u != v: calls with u == v leave no trace, parallel edges are
    kept as separate pairs, and every stored flow is 0. *)
Theorem built_edge_list (V : Z) (cs : list call) (g : MaximumFlow) :
  0 <= V -> built V cs g ->
  edge_list g = entries_of cs /\
  zlen (edge_list g) =
  2 * zlen (filter (fun c => negb (c_u c =? c_v c)) cs).
Proof.
  intros HV [Hv H].
  assert (E : edge_list g = entries_of cs).
  { apply (add_edges_entries cs (init V) g) in H; auto.
    cbn [init adjacency_list vertices]. rewrite zlen_repeat. lia. }
  split; [exact E|]. rewrite E. clear. unfold zlen.
  induction cs as [|c cs IH]; [reflexivity|].
  cbn [entries_of flat_map filter]. fold (entries_of cs).
  rewrite length_app. destruct (c_u c =? c_v c); cbn [negb length]; lia.
Qed.

Lemma built_edge_list_witness :
  0 <= 3 /\ built 3 example_calls example_graph /\
  edge_list example_graph = entries_of example_calls /\
  zlen (edge_list example_graph) =
  2 * zlen (filter (fun c => negb (c_u c =? c_v c)) example_calls).
Proof.
  assert (H1 : 0 <= 3) by lia.
  assert (H2 : built 3 example_calls example_graph).
  { split; [repeat constructor; cbn; lia|vm_compute; reflexivity]. }
  split; [exact H1|]. split; [exact H2|].
  exact (built_edge_list 3 example_calls example_graph H1 H2).
Defined.

(** ** Instances without vertices *)

(** X6: MaximumFlow(V) with V zero or negative is created without an
    error and has no adjacency list at all: every add_edge(u, v, ...)
    with u != v raises IndexError, and so do edmonds_karp(s, t) and
    dinic(s, t) for every s and t, at the first statement of BFS that
    subscripts distances. *)
Theorem init_without_vertices (V u v capacity : Z) (directed : bool) (lim n : nat)
        (s t : Z) :
  V <= 0 -> u <> v ->
  adjacency_list (init V) = [] /\
  fst (add_edge u v capacity directed (init V)) = Exn IndexError /\
  fst (edmonds_karp lim (S n) s t (init V)) = Exn IndexError /\
  fst (dinic lim (S n) s t (init V)) = Exn IndexError.
Proof.
  intros HV Hne.
  assert (E0 : Z.to_nat V = 0%nat) by lia.
  assert (Ha : adjacency_list (init V) = []) by (cbn [init adjacency_list]; now rewrite E0).
  assert (Ho : forall X i, out_of_range (zlen (@nil X)) i).
  { intros X i. unfold out_of_range, zlen. cbn [length]. lia. }
  assert (Hb : forall g, vertices g = V ->
                         exists g1, BFS (S n) s t g = (Exn IndexError, g1)).
  { intros g Ev. eexists. unfold BFS. mstep. mstep. mstep. fgoal. rewrite Ev, E0.
    cbn [repeat]. apply bind_exn. apply setitem_out. apply Ho. }
  conj; auto.
  - rewrite (add_edge_bad_tail (init V) u v capacity directed Hne); [reflexivity|].
    rewrite Ha. apply Ho.
  - unfold edmonds_karp. rewrite (bind_val _ _ _ _ _ (assert_ready (init V) eq_refl)).
    cbn [ek_while].
    destruct (Hb (set_has_been_run true (init V)) eq_refl) as [g1 E].
    now rewrite (bind_exn _ _ _ _ _ E).
  - unfold dinic. rewrite (bind_val _ _ _ _ _ (assert_ready (init V) eq_refl)).
    cbn [dinic_while].
    destruct (Hb (set_has_been_run true (init V)) eq_refl) as [g1 E].
    now rewrite (bind_exn _ _ _ _ _ E).
Qed.

Lemma init_without_vertices_witness :
  0 <= 0 /\ 0 <> 1 /\
  adjacency_list (init 0) = [] /\
  fst (add_edge 0 1 5 true (init 0)) = Exn IndexError /\
  fst (edmonds_karp 1 1 0 1 (init 0)) = Exn IndexError /\
  fst (dinic 1 1 0 1 (init 0)) = Exn IndexError.
Proof.
  split; [lia|]. split; [lia|].
  apply (init_without_vertices 0 0 1 5 true 1 0 0 1); lia.
Defined.

(** ** The docstring graph *)

Lemma example_fresh : fresh example_graph.
Proof. apply (built_fresh 3 example_calls); [lia|exact example_built]. Qed.

Lemma example_good : good true (edge_list example_graph).
Proof.
  apply fresh_good; [exact example_fresh|]. intros _.
  apply (built_fresh 3 example_calls); [lia|exact example_built|exact example_nonneg].
Qed.

(** ** BFS *)

Lemma rpath_snoc (el : list edge) (a u i : Z) :
  rpath el a u -> 0 <= i < zlen el -> etail el i = u -> 0 < ecap el i - eflow el i ->
  rpath el a (ev el i).
Proof.
  intros P Hi Ht Hr. induction P as [u|u j w Hj Htj Hrj P IH].
  - apply (rpath_step el u i); auto. constructor.
  - apply (rpath_step el u j); auto.
Qed.

(** Every labelled vertex is reached from the source over residual entries. *)
Lemma labelled_rpath (g : MaximumFlow) (s : Z) :
  bfs_inv g s ->
  forall (d : nat) v, 0 <= v < vertices g -> dist g v = Z.of_nat d ->
                      rpath (edge_list g) s v.
Proof.
  intros Hinv. induction d as [|d IH]; intros v Hv Hd.
  - destruct (Z.eq_dec v s) as [->|Hne]; [constructor|].
    assert (Hr : dist g v <> -1) by lia.
    pose proof (bi_tree _ _ Hinv v Hv Hne Hr) as T. unfold tree_edge in T.
    destruct (zn (-1, -1) (points g) v) as [u idx]. lia.
  - assert (Hne : v <> s) by (intros ->; rewrite (bi_src _ _ Hinv) in Hd; lia).
    assert (Hr : dist g v <> -1) by lia.
    pose proof (bi_tree _ _ Hinv v Hv Hne Hr) as T. unfold tree_edge in T.
    destruct (zn (-1, -1) (points g) v) as [u idx].
    destruct T as (Hu & Hdu & Hdv & Hidx & Htl & Hhd & Hres).
    rewrite <- Hhd. apply (rpath_snoc _ s u idx); auto. apply IH; auto. lia.
Qed.

(** A residual path never leaves the labelled side of a saturated cut. *)
Lemma rpath_stays_labelled (g : MaximumFlow) (s t u w : Z) :
  wf g -> saturated_cut g s t -> rpath (edge_list g) u w ->
  0 <= u < vertices g -> dist g u <> -1 -> dist g w <> -1.
Proof.
  intros Hwf (_ & _ & Hcl) P. induction P as [u|u i w Hi Hti Hri P IH]; intros Hu Hd; auto.
  apply IH.
  - now apply wf_head.
  - exact (Hcl u Hu Hd i Hi Hti Hri).
Qed.

(** Following [points] back from a labelled vertex. *)
Lemma back_to_source (g : MaximumFlow) (s : Z) :
  bfs_inv g s ->
  forall (d : nat) v, 0 <= v < vertices g -> dist g v = Z.of_nat d ->
                      back g d v = s /\
                      forall k, (k < d)%nat -> tree_edge g (back g k v).
Proof.
  intros Hinv. induction d as [|d IH]; intros v Hv Hd.
  - split; [|intros k Hk; lia]. cbn [back].
    destruct (Z.eq_dec v s) as [->|Hne]; auto.
    assert (Hr : dist g v <> -1) by lia.
    pose proof (bi_tree _ _ Hinv v Hv Hne Hr) as T. unfold tree_edge in T.
    destruct (zn (-1, -1) (points g) v) as [u idx]. lia.
  - assert (Hne : v <> s) by (intros ->; rewrite (bi_src _ _ Hinv) in Hd; lia).
    assert (Hr : dist g v <> -1) by lia.
    pose proof (bi_tree _ _ Hinv v Hv Hne Hr) as T.
    assert (T' := T). unfold tree_edge in T'. cbn [back].
    destruct (zn (-1, -1) (points g) v) as [u idx] eqn:Ep. cbn [fst].
    destruct T' as (Hu & Hdu & Hdv & _).
    destruct (IH u Hu ltac:(lia)) as [B1 B2]. split; auto.
    intros [|k] Hk; cbn [back].
    + exact T.
    + rewrite Ep. cbn [fst]. apply B2. lia.
Qed.

(** What a completed BFS leaves, read off [BFS_spec]. *)
Lemma BFS_total (n : nat) (s t : Z) (g : MaximumFlow) :
  wf g -> 0 <= s < vertices g -> 0 <= t < vertices g -> vertices g < Z.of_nat n ->
  exists b g',
    BFS n s t g = (Val b, g') /\ bfs_touch g g' /\ wf g' /\ bfs_inv g' s /\
    b = labelled g' t /\ (b = false -> saturated_cut g' s t).
Proof.
  intros Hwf Hs Ht Hn. destruct (BFS n s t g) as [r g'] eqn:E.
  destruct (BFS_spec _ _ _ _ _ _ E Hwf Hs Ht) as (T & _ & F & P).
  destruct (F Hn) as [b ->]. destruct (P b eq_refl) as (Inv & Hb & Hc).
  exists b, g'. conj; auto. eapply wf_bfs_touch; eauto.
Qed.

(** X7: on a well-formed instance, BFS(s, t) with s and t in [0, V)
    returns after at most V rounds of its while loop.  It writes
    distances and points only (the edge store, the adjacency lists, last
    and the has_been_run flag are untouched); both lists get length V, the
    source gets distance 0, every distance lies in [-1, V), and the
    value returned tells whether t got a distance other than -1. *)
Theorem BFS_returns (n : nat) (s t : Z) (g : MaximumFlow) :
  wf g -> 0 <= s < vertices g -> 0 <= t < vertices g -> vertices g < Z.of_nat n ->
  exists b g',
    BFS n s t g = (Val b, g') /\
    vertices g' = vertices g /\ edge_list g' = edge_list g /\
    adjacency_list g' = adjacency_list g /\ last g' = last g /\
    has_been_run g' = has_been_run g /\
    zlen (distances g') = vertices g /\ zlen (points g') = vertices g /\
    dist g' s = 0 /\ b = negb (dist g' t =? -1) /\
    forall v, 0 <= v < vertices g -> -1 <= dist g' v < vertices g.
Proof.
  intros Hwf Hs Ht Hn.
  destruct (BFS_total n s t g Hwf Hs Ht Hn) as (b & g' & E & T & Hwf' & Inv & Hb & _).
  pose proof (bfs_touch_fields _ _ T) as (E1 & E2 & E3 & E4 & E5 & _).
  exists b, g'. conj; auto.
  - rewrite <- E1. exact (bi_dlen _ _ Inv).
  - rewrite <- E1. exact (bi_plen _ _ Inv).
  - exact (bi_src _ _ Inv).
  - intros v Hv. rewrite <- E1 in *. split.
    + now apply (bi_lo _ _ Inv).
    + now apply (dist_lt_vertices g' s).
Qed.

Lemma BFS_returns_witness :
  wf example_graph /\
  exists b g',
    BFS 4 0 2 example_graph = (Val b, g') /\
    vertices g' = vertices example_graph /\ edge_list g' = edge_list example_graph /\
    adjacency_list g' = adjacency_list example_graph /\ last g' = last example_graph /\
    has_been_run g' = has_been_run example_graph /\
    zlen (distances g') = vertices example_graph /\
    zlen (points g') = vertices example_graph /\
    dist g' 0 = 0 /\ b = negb (dist g' 2 =? -1) /\
    forall v, 0 <= v < vertices example_graph -> -1 <= dist g' v < vertices example_graph.
Proof.
  assert (W : wf example_graph) by exact (fr_wf _ example_fresh).
  assert (Ev : vertices example_graph = 3) by (vm_compute; reflexivity).
  split; [exact W|].
  apply (BFS_returns 4 0 2 example_graph W); rewrite Ev; lia.
Defined.

(** X8: BFS decides reachability in the residual graph.  On a
    well-formed instance with s and t in [0, V), BFS(s, t) returns True
    exactly when t can be reached from s over entries whose capacity
    exceeds their flow. *)
Theorem BFS_decides_reachability (n : nat) (s t : Z) (g : MaximumFlow) :
  wf g -> 0 <= s < vertices g -> 0 <= t < vertices g -> vertices g < Z.of_nat n ->
  exists b g',
    BFS n s t g = (Val b, g') /\ (b = true <-> rpath (edge_list g) s t).
Proof.
  intros Hwf Hs Ht Hn.
  destruct (BFS_total n s t g Hwf Hs Ht Hn) as (b & g' & E & T & Hwf' & Inv & Hb & Hc).
  pose proof (bfs_touch_fields _ _ T) as (E1 & E2 & _).
  exists b, g'. split; auto. rewrite <- E2. rewrite <- E1 in Hs, Ht. split.
  - intros ->. symmetry in Hb. unfold labelled in Hb. apply negb_true_iff, Z.eqb_neq in Hb.
    pose proof (bi_lo _ _ Inv t Ht).
    apply (labelled_rpath g' s Inv (Z.to_nat (dist g' t))); auto. lia.
  - intros P. destruct b; auto. exfalso.
    pose proof (Hc eq_refl) as C. pose proof C as (Cs & Ct & _).
    exact (rpath_stays_labelled g' s t s t Hwf' C P Hs Cs Ct).
Qed.

Lemma BFS_decides_reachability_witness :
  wf example_graph /\
  exists b g',
    BFS 4 0 2 example_graph = (Val b, g') /\
    (b = true <-> rpath (edge_list example_graph) 0 2).
Proof.
  assert (W : wf example_graph) by exact (fr_wf _ example_fresh).
  assert (Ev : vertices example_graph = 3) by (vm_compute; reflexivity).
  split; [exact W|].
  apply (BFS_decides_reachability 4 0 2 example_graph W); rewrite Ev; lia.
Defined.

(** X9: after BFS(s, t) the points list encodes, for every vertex v with
    a distance d other than -1, a path of d residual entries from s to v:
    following points[.][0] back d times from v arrives at s, and at each
    vertex x on the way points[x] = [u, idx] names an entry idx from u to
    x whose capacity exceeds its flow, with distances[x] ==
    distances[u] + 1.  This is the path send_one_flow walks. *)
Theorem BFS_points_lead_back (n : nat) (s t : Z) (g : MaximumFlow) :
  wf g -> 0 <= s < vertices g -> 0 <= t < vertices g -> vertices g < Z.of_nat n ->
  exists b g',
    BFS n s t g = (Val b, g') /\
    forall v, 0 <= v < vertices g -> dist g' v <> -1 ->
              0 <= dist g' v /\
              back g' (Z.to_nat (dist g' v)) v = s /\
              forall k, (k < Z.to_nat (dist g' v))%nat -> tree_edge g' (back g' k v).
Proof.
  intros Hwf Hs Ht Hn.
  destruct (BFS_total n s t g Hwf Hs Ht Hn) as (b & g' & E & T & Hwf' & Inv & Hb & Hc).
  pose proof (bfs_touch_fields _ _ T) as (E1 & _).
  exists b, g'. split; auto. intros v Hv Hd. rewrite <- E1 in Hv.
  pose proof (bi_lo _ _ Inv v Hv). split; [lia|].
  apply (back_to_source g' s Inv); auto. lia.
Qed.

Lemma BFS_points_lead_back_witness :
  wf example_graph /\
  exists b g',
    BFS 4 0 2 example_graph = (Val b, g') /\
    forall v, 0 <= v < vertices example_graph -> dist g' v <> -1 ->
              0 <= dist g' v /\
              back g' (Z.to_nat (dist g' v)) v = 0 /\
              forall k, (k < Z.to_nat (dist g' v))%nat -> tree_edge g' (back g' k v).
Proof.
  assert (W : wf example_graph).
  { apply fr_wf. apply (built_fresh 3 example_calls); [lia|exact example_built]. }
  split; [exact W|].
  apply (BFS_points_lead_back 4 0 2 example_graph W); vm_compute; split; congruence.
Defined.

(** ** BFS finds shortest paths *)

Lemma rpath_len_snoc (el : list edge) (a u i : Z) (k : nat) :
  rpath_len el a u k -> 0 <= i < zlen el -> etail el i = u ->
  0 < ecap el i - eflow el i -> rpath_len el a (ev el i) (S k).
Proof.
  intros P Hi Ht Hr. induction P as [u|u j w k Hj Htj Hrj P IH].
  - apply (rpath_len_step el u i); auto. constructor.
  - apply (rpath_len_step el u j); auto.
Qed.

Lemma labelled_rpath_len (g : MaximumFlow) (s : Z) :
  bfs_inv g s ->
  forall (d : nat) v, 0 <= v < vertices g -> dist g v = Z.of_nat d ->
                      rpath_len (edge_list g) s v d.
Proof.
  intros Hinv. induction d as [|d IH]; intros v Hv Hd.
  - destruct (Z.eq_dec v s) as [->|Hne]; [constructor|].
    assert (Hr : dist g v <> -1) by lia.
    pose proof (bi_tree _ _ Hinv v Hv Hne Hr) as T. unfold tree_edge in T.
    destruct (zn (-1, -1) (points g) v) as [u idx]. lia.
  - assert (Hne : v <> s) by (intros ->; rewrite (bi_src _ _ Hinv) in Hd; lia).
    assert (Hr : dist g v <> -1) by lia.
    pose proof (bi_tree _ _ Hinv v Hv Hne Hr) as T. unfold tree_edge in T.
    destruct (zn (-1, -1) (points g) v) as [u idx].
    destruct T as (Hu & Hdu & Hdv & Hidx & Htl & Hhd & Hres).
    rewrite <- Hhd. apply (rpath_len_snoc _ s u idx); auto. apply IH; auto. lia.
Qed.

(** With the levels of a search, a labelled vertex is no further from a
    labelled vertex than any residual path between them is long. *)
Lemma levels_lower_bound (g : MaximumFlow) (q : list Z) (x v : Z) (k : nat) :
  wf g -> levels g q -> rpath_len (edge_list g) x v k ->
  0 <= x < vertices g -> dist g x <> -1 -> 0 <= v < vertices g -> dist g v <> -1 ->
  dist g v <= dist g x + Z.of_nat k.
Proof.
  intros Hwf [J2 J3] P. induction P as [u|u i w k Hi Ht Hr P IH]; intros Hx Hdx Hv Hdv.
  - lia.
  - destruct (in_dec Z.eq_dec u q) as [Hin|Hout].
    + pose proof (J2 u w Hin Hv Hdv). lia.
    + destruct (J3 u i Hx Hdx Hout Hi Ht Hr) as [L1 L2].
      assert (Hy : 0 <= ev (edge_list g) i < vertices g) by now apply wf_head.
      specialize (IH Hy L1 Hv Hdv). lia.
Qed.

Lemma nondecr_app (g : MaximumFlow) (a b : list Z) :
  nondecr g a -> nondecr g b ->
  (forall x y, In x a -> In y b -> dist g x <= dist g y) -> nondecr g (a ++ b).
Proof.
  induction a as [|x a IH]; intros Ha Hb H; cbn [app nondecr] in *; auto.
  destruct Ha as [Ha1 Ha2]. split.
  - intros y Hy. apply in_app_or in Hy. destruct Hy as [Hy|Hy]; auto.
    apply H; auto. now left.
  - apply IH; auto. intros x0 y Hx0 Hy. apply H; auto. now right.
Qed.

Lemma nondecr_ext (g g' : MaximumFlow) (q : list Z) :
  (forall x, In x q -> dist g' x = dist g x) -> nondecr g q -> nondecr g' q.
Proof.
  induction q as [|x q IH]; intros H Hn; cbn [nondecr] in *; auto.
  destruct Hn as [H1 H2]. split.
  - intros y Hy. rewrite !H; auto; [now right|now left].
  - apply IH; auto. intros y Hy. apply H. now right.
Qed.

Lemma nondecr_const (g : MaximumFlow) (q : list Z) (c : Z) :
  (forall x, In x q -> dist g x = c) -> nondecr g q.
Proof.
  induction q as [|x q IH]; intros H; cbn [nondecr]; auto. split.
  - intros y Hy. rewrite !H; [lia|now right|now left].
  - apply IH. intros y Hy. apply H. now right.
Qed.

(** The vertices one round of the for loop of [BFS] labels are one level
    beyond [u] and were not labelled before. *)
Lemma BFS_for_levels (s u : Z) (adj0 : list Z) :
  forall q new g g',
    BFS_for u adj0 q g = (Val (q ++ new), g') ->
    wf g -> bfs_inv g s -> 0 <= s < vertices g ->
    0 <= u < vertices g -> 0 <= dist g u ->
    (forall idx, In idx adj0 ->
                 0 <= idx < zlen (edge_list g) /\ etail (edge_list g) idx = u) ->
    forall x, In x new -> dist g' x = dist g u + 1.
Proof.
  induction adj0 as [|idx rest IH]; intros q new g g' H Hwf Hinv Hs Hu Hdu Hadj.
  - cbn [BFS_for] in H. injection H as Hq <-.
    rewrite <- (app_nil_r q) in Hq at 1. apply app_inv_head in Hq. subst new.
    intros x [].
  - cbn [BFS_for] in H. mstep_in H.
    destruct (Hadj idx (or_introl eq_refl)) as [Hidx Htl].
    rewrite (bind_getitem dummy_edge) in H by assumption. fold_edge.
    assert (Hv : 0 <= ev (edge_list g) idx < vertices g) by now apply wf_head.
    pose proof (bi_dlen _ _ Hinv) as Hdl. pose proof (bi_plen _ _ Hinv) as Hpl.
    assert (Hrest : forall i, In i rest ->
                0 <= i < zlen (edge_list g) /\ etail (edge_list g) i = u)
      by (intros; apply Hadj; now right).
    destruct (0 <? ecap (edge_list g) idx - eflow (edge_list g) idx) eqn:Eres.
    + mnorm_in H. rewrite (bind_getitem (-1)) in H by lia. mnorm_in H.
      change (zn (-1) (distances g) (ev (edge_list g) idx))
        with (dist g (ev (edge_list g) idx)) in H.
      destruct (dist g (ev (edge_list g) idx) =? -1) eqn:Edv.
      * mnorm_in H. rewrite (bind_getitem (-1)) in H by lia.
        rewrite bind_assoc, bind_setitem in H by lia. mnorm_in H.
        rewrite bind_setitem in H by (fields; lia). mnorm_in H.
        set (v := ev (edge_list g) idx) in *.
        match type of H with BFS_for _ _ _ ?g1 = _ => change g1 with (label g u idx v) in H end.
        apply Z.eqb_eq in Edv. apply Z.ltb_lt in Eres.
        destruct (bfs_inv_label g s u idx v) as [Hinv1 Hc1]; auto.
        assert (Ht1 : bfs_touch g (label g u idx v)) by (eexists; eexists; reflexivity).
        assert (Hwf1 : wf (label g u idx v)) by (eapply wf_bfs_touch; eassumption).
        assert (Hd1 : forall x, 0 <= x -> dist (label g u idx v) x =
                                if x =? v then dist g u + 1 else dist g x)
          by (intros; apply dist_label; lia).
        assert (Hdu1 : dist (label g u idx v) u = dist g u).
        { rewrite Hd1 by lia. destruct (u =? v) eqn:E; auto.
          apply Z.eqb_eq in E. rewrite E in Hdu. lia. }
        pose proof H as H'.
        apply (BFS_for_spec s) in H'; auto; [|now rewrite Hdu1].
        destruct H' as (new1 & Eq & _ & _ & P1 & _).
        injection Eq as Eq. rewrite <- app_assoc in Eq. apply app_inv_head in Eq.
        subst new. rewrite app_assoc in H.
        change (vertices (label g u idx v)) with (vertices g) in P1.
        intros x [<-|Hin].
        -- rewrite P1; auto; rewrite Hd1 by lia; rewrite Z.eqb_refl; lia.
        -- rewrite <- Hdu1.
           apply (IH (q ++ [v]) new1 (label g u idx v) g'); auto. now rewrite Hdu1.
      * mnorm_in H. now apply (IH q new g g').
    + mnorm_in H. now apply (IH q new g g').
Qed.

(** The while loop of [BFS] keeps the queue in the order of the distances
    and the levels of the search. *)
Lemma BFS_while_levels (s t : Z) (n : nat) :
  forall q g r g',
    BFS_while n q t g = (r, g') ->
    wf g -> bfs_inv g s -> 0 <= s < vertices g ->
    (forall x, In x q -> 0 <= x < vertices g /\ dist g x <> -1) ->
    nondecr g q -> levels g q ->
    exists q', levels g' q'.
Proof.
  induction n as [|n IH]; intros q g r g' H Hwf Hinv Hs Hq Hn Hl.
  - cbn [BFS_while] in H. injection H as <- <-. now exists q.
  - cbn [BFS_while] in H. destruct q as [|u q].
    + injection H as <- <-. now exists [].
    + destruct (Hq u (or_introl eq_refl)) as [Hu Hru].
      destruct (u =? t) eqn:Eut.
      * injection H as <- <-. now exists (u :: q).
      * mstep_in H. rewrite (bind_getitem []) in H by (rewrite (wf_adj_len _ Hwf); lia).
        change (zn [] (adjacency_list g) u) with (adj g u) in H.
        destruct (BFS_for u (adj g u) q g) as [r1 g1] eqn:E1.
        pose proof (bi_lo _ _ Hinv u Hu) as Hlo.
        assert (Hadj : forall i, In i (adj g u) ->
                  0 <= i < zlen (edge_list g) /\ etail (edge_list g) i = u)
          by (intros i Hi; now apply (wf_adj _ Hwf)).
        pose proof E1 as E1'.
        apply (BFS_for_spec s) in E1'; auto; try lia.
        destruct E1' as (new & -> & T & I & P1 & P2 & P3 & P4 & P5).
        pose proof (BFS_for_levels s u (adj g u) q new g g1 E1 Hwf Hinv Hs Hu
                      ltac:(lia) Hadj) as N1.
        rewrite (bind_val _ _ _ _ _ E1) in H.
        pose proof (bfs_touch_fields _ _ T) as (Ev & Ee & _).
        destruct Hn as [Hn1 Hn2]. destruct Hl as [J2 J3].
        assert (Hqd : forall x, In x q -> dist g1 x = dist g x).
        { intros x Hx. destruct (Hq x (or_intror Hx)). now apply P1. }
        assert (Hud : dist g1 u = dist g u) by now apply P1.
        assert (Hall : forall y, 0 <= y < vertices g -> dist g1 y <> -1 ->
                                 dist g1 y <= dist g u + 1).
        { intros y Hy Hr. destruct (P2 y Hy Hr) as [Hr0|Hin].
          - rewrite P1; auto. apply (J2 u y); auto. now left.
          - rewrite (N1 y Hin). lia. }
        apply IH in H; auto.
        -- eapply wf_bfs_touch; eauto.
        -- now rewrite Ev.
        -- rewrite Ev. intros x Hx. apply in_app_or in Hx. destruct Hx as [Hx|Hx]; auto.
           destruct (Hq x (or_intror Hx)) as [A B]. split; auto. rewrite P1; auto.
        -- apply nondecr_app.
           ++ now apply (nondecr_ext g).
           ++ apply (nondecr_const _ _ (dist g u + 1)). exact N1.
           ++ intros x y Hx Hy. rewrite (N1 y Hy), (Hqd x Hx).
              destruct (Hq x (or_intror Hx)) as [Hxr Hxd].
              apply (J2 u x); auto. now left.
        -- split.
           ++ rewrite Ev. intros x y Hx Hy Hr. apply in_app_or in Hx.
              destruct Hx as [Hx|Hx].
              ** rewrite (Hqd x Hx). specialize (Hn1 x Hx). specialize (Hall y Hy Hr). lia.
              ** rewrite (N1 x Hx). specialize (Hall y Hy Hr). lia.
           ++ rewrite Ev, Ee. intros x i Hx Hr Hout Hi Ht Hres.
              assert (Hy : 0 <= ev (edge_list g) i < vertices g) by now apply wf_head.
              destruct (P2 x Hx Hr) as [Hr0|Hin];
                [|exfalso; apply Hout; apply in_or_app; now right].
              destruct (Z.eq_dec x u) as [->|Hxu].
              ** assert (L : dist g1 (ev (edge_list g) i) <> -1).
                 { apply P5; auto. now apply (wf_adj _ Hwf). }
                 split; auto. rewrite Hud. now apply Hall.
              ** assert (Hout0 : ~ In x (u :: q)).
                 { intros [E|Hin]; [congruence|]. apply Hout. apply in_or_app. now left. }
                 destruct (J3 x i Hx Hr0 Hout0 Hi Ht Hres) as [L1 L2].
                 rewrite !P1; auto.
Qed.

(** X10: BFS labels every vertex it reaches with the length of a
    shortest residual path.  On a well-formed instance with s and t in
    [0, V), after BFS(s, t) every vertex v with a distance other than -1
    is reached from s by a path of exactly distances[v] entries whose
    capacity exceeds their flow, and by no such path with fewer entries.
    When BFS returns True this holds for t: the path send_one_flow
    augments is a shortest augmenting path. *)
Theorem BFS_distances_are_shortest (n : nat) (s t : Z) (g : MaximumFlow) :
  wf g -> 0 <= s < vertices g -> 0 <= t < vertices g -> vertices g < Z.of_nat n ->
  exists b g',
    BFS n s t g = (Val b, g') /\
    forall v, 0 <= v < vertices g -> dist g' v <> -1 ->
              rpath_len (edge_list g) s v (Z.to_nat (dist g' v)) /\
              forall k, rpath_len (edge_list g) s v k -> dist g' v <= Z.of_nat k.
Proof.
  intros Hwf Hs Ht Hn.
  destruct (BFS_total n s t g Hwf Hs Ht Hn) as (b & g' & E & T & Hwf' & Inv & _).
  pose proof (bfs_touch_fields _ _ T) as (Ev & Ee & _).
  exists b, g'. split; auto.
  assert (L : exists q', levels g' q').
  { clear Inv. unfold BFS in E. mnorm_in E. pose proof (wf_V _ Hwf) as HV.
    rewrite bind_setitem in E by (fields; rewrite zlen_repeat; lia). mnorm_in E. fields.
    match type of E with bind _ _ ?x = _ => set (g0 := x) in E end.
    assert (T0 : bfs_touch g g0) by (eexists; eexists; reflexivity).
    assert (Hd0 : forall x, 0 <= x < vertices g -> dist g0 x = if x =? s then 0 else -1).
    { intros x Hx. unfold dist, g0. fields.
      rewrite zn_replace by (rewrite ?zlen_repeat; lia).
      destruct (x =? s); auto. apply zn_repeat. lia. }
    assert (Hc0 : count_unreached (distances g0) = vertices g - 1).
    { unfold g0. fields. rewrite count_unreached_replace.
      - rewrite count_unreached_repeat. lia.
      - rewrite repeat_length. lia.
      - apply nth_repeat_lt. lia.
      - lia. }
    assert (I0 : bfs_inv g0 s).
    { constructor; change (vertices g0) with (vertices g).
      - unfold g0. fields. rewrite zlen_replace, zlen_repeat. lia.
      - unfold g0. fields. rewrite zlen_repeat. lia.
      - rewrite Hd0 by lia. now rewrite Z.eqb_refl.
      - intros v Hv. rewrite Hd0 by lia. destruct (v =? s); lia.
      - intros v Hv. rewrite Hd0, Hc0 by lia. destruct (v =? s); lia.
      - intros v Hv Hne. rewrite Hd0 by lia. apply Z.eqb_neq in Hne. rewrite Hne.
        congruence. }
    assert (Hone : forall v, 0 <= v < vertices g -> dist g0 v <> -1 -> v = s).
    { intros v Hv Hr. rewrite Hd0 in Hr by lia. destruct (v =? s) eqn:Es; [|congruence].
      now apply Z.eqb_eq in Es. }
    destruct (BFS_while n [s] t g0) as [r1 g1] eqn:E1.
    assert (Lw : exists q', levels g1 q').
    { apply (BFS_while_levels s t n [s] g0 r1 g1 E1); auto.
      - exact (wf_bfs_touch _ _ Hwf T0).
      - intros x [<-|[]]. change (vertices g0) with (vertices g). split; auto.
        rewrite Hd0 by lia. rewrite Z.eqb_refl. lia.
      - cbn [nondecr]. split; auto. intros y [].
      - split; change (vertices g0) with (vertices g).
        + intros x y [<-|[]] Hy Hr. rewrite (Hone y Hy Hr). lia.
        + intros x i Hx Hr Hout. exfalso. apply Hout. left. symmetry. now apply Hone. }
    destruct r1 as [[]|e|].
    - rewrite (bind_val _ _ _ _ _ E1) in E. mnorm_in E.
      destruct (getitem (distances g1) t g1) as [r2 g2] eqn:E2.
      assert (E3 : g2 = g1).
      { unfold getitem, of_option, ret, raise in E2.
        destruct (py_get (distances g1) t); now injection E2. }
      subst g2. destruct r2 as [dt|e|].
      + rewrite (bind_val _ _ _ _ _ E2) in E. unfold ret in E.
        injection E as _ <-. exact Lw.
      + rewrite (bind_exn _ _ _ _ _ E2) in E. discriminate.
      + rewrite (bind_fuel _ _ _ _ E2) in E. discriminate.
    - rewrite (bind_exn _ _ _ _ _ E1) in E. discriminate.
    - rewrite (bind_fuel _ _ _ _ E1) in E. discriminate. }
  destruct L as [q' L].
  intros v Hv Hr. rewrite <- Ev in Hs, Hv. rewrite <- Ee.
  pose proof (bi_lo _ _ Inv v Hv). split.
  - apply (labelled_rpath_len g' s Inv); auto. lia.
  - intros k P.
    pose proof (levels_lower_bound g' q' s v k Hwf' L P Hs) as B.
    rewrite (bi_src _ _ Inv) in B. apply B; auto. lia.
Qed.

Lemma BFS_distances_are_shortest_witness :
  wf example_graph /\
  exists b g',
    BFS 4 0 2 example_graph = (Val b, g') /\
    forall v, 0 <= v < vertices example_graph -> dist g' v <> -1 ->
              rpath_len (edge_list example_graph) 0 v (Z.to_nat (dist g' v)) /\
              forall k, rpath_len (edge_list example_graph) 0 v k -> dist g' v <= Z.of_nat k.
Proof.
  assert (W : wf example_graph) by exact (fr_wf _ example_fresh).
  split; [exact W|].
  apply (BFS_distances_are_shortest 4 0 2 example_graph W); vm_compute; split; congruence.
Defined.

(** ** send_one_flow *)

(** X11: on a well-formed instance with integer capacities and flows, the
    flows antisymmetric and within the capacities, after BFS(s, t) has
    returned True (s != t), send_one_flow(s, t) returns a positive integer
    p (never 0, so the break of edmonds_karp is never taken, and never the
    default float('inf')), provided the interpreter allows more nested
    calls than distances[t]: one call for each vertex of the path.  It
    leaves heads and capacities alone, keeps the flows antisymmetric and
    within the capacities, and moves exactly p units: the net flow out of
    s grows by p, that of t falls by p, and the net flow of every other
    vertex is unchanged. *)
Theorem send_one_flow_augments (n lim : nat) (s t : Z) (g g1 : MaximumFlow) :
  wf g -> 0 <= s < vertices g -> 0 <= t < vertices g -> s <> t ->
  antisym (edge_list g) -> capok (edge_list g) ->
  BFS n s t g = (Val true, g1) -> dist g1 t < Z.of_nat lim ->
  exists p g2,
    send_one_flow lim s t INF g1 = (Val (Fin p), g2) /\ 0 < p /\
    strip (edge_list g2) = strip (edge_list g) /\
    antisym (edge_list g2) /\ capok (edge_list g2) /\
    forall v, net (edge_list g2) v =
              net (edge_list g) v + (if v =? s then p else 0) - (if v =? t then p else 0).
Proof.
  intros Hwf Hs Ht Hst Ha Hc Eb Hm.
  destruct (BFS_spec _ _ _ _ _ _ Eb Hwf Hs Ht) as (T & _ & _ & P).
  destruct (P true eq_refl) as (Inv & Hb & _).
  symmetry in Hb. apply negb_true_iff, Z.eqb_neq in Hb.
  pose proof (bfs_touch_fields _ _ T) as (E1 & E2 & _).
  assert (Hwf1 : wf g1) by (eapply wf_bfs_touch; eauto).
  rewrite <- E1 in Hs, Ht. rewrite <- E2 in Ha, Hc. rewrite <- E2.
  destruct (send_one_flow lim s t INF g1) as [r g2] eqn:E.
  destruct (send_one_flow_spec true s lim t INF g1 r g2 E Hwf1 Inv Hs Ht Hb
              (conj Ha (fun _ => Hc)) I) as (_ & S2 & [A2 C2] & _ & _ & R & U).
  destruct R as [[-> _]|(p & -> & _ & Pos & Fp & N)]; [exfalso; now apply U|].
  destruct (Fp Hst) as [z ->]. cbn [num_pos num_val] in *.
  exists z, g2. conj; auto.
Qed.

Lemma send_one_flow_augments_witness :
  wf example_graph /\
  exists p g2,
    send_one_flow 4 0 2 INF (snd (BFS 4 0 2 example_graph)) = (Val (Fin p), g2) /\ 0 < p /\
    strip (edge_list g2) = strip (edge_list example_graph) /\
    antisym (edge_list g2) /\ capok (edge_list g2) /\
    forall v, net (edge_list g2) v =
              net (edge_list example_graph) v + (if v =? 0 then p else 0)
              - (if v =? 2 then p else 0).
Proof.
  assert (W : wf example_graph) by exact (fr_wf _ example_fresh).
  split; [exact W|].
  apply (send_one_flow_augments 4 4 0 2 example_graph (snd (BFS 4 0 2 example_graph)) W).
  - vm_compute. split; congruence.
  - vm_compute. split; congruence.
  - lia.
  - exact (proj1 example_good).
  - exact (proj2 example_good eq_refl).
  - vm_compute. reflexivity.
  - vm_compute. reflexivity.
Defined.

(** ** DFS *)

Lemma dfs_only_last (g g' : MaximumFlow) :
  dfs_touch g g' -> edge_list g' = edge_list g -> history g' = history g ->
  exists l, g' = set_last l g.
Proof.
  intros (el & h & l & ->) E1 E2. exists l. revert E1 E2. fgoal. intros -> ->.
  now destruct g.
Qed.

(** X12: DFS pushes exactly what it returns.  Let the instance be
    well-formed with integer capacities and flows, distances and last
    have length V with cursors that are not negative, and the flows be
    antisymmetric and within the capacities.  If DFS(u, t, f) with f >= 0 returns p, then 0 <= p <= f,
    heads and capacities are untouched, the flows are still
    antisymmetric and within the capacities, the net flow out of u has
    grown by p and that of t has fallen by p (every other vertex keeps
    its net flow), and when p is 0 DFS has changed nothing but last. *)
Theorem DFS_pushes_what_it_returns (n : nat) (u t : Z) (f p : number)
        (g g' : MaximumFlow) :
  dfs_pre true g -> 0 <= u < vertices g -> num_nonneg f ->
  DFS n u t f g = (Val p, g') ->
  num_le p f /\ num_nonneg p /\
  strip (edge_list g') = strip (edge_list g) /\
  antisym (edge_list g') /\ capok (edge_list g') /\
  (forall v, net (edge_list g') v =
             net (edge_list g) v + (if v =? u then num_val p else 0)
             - (if v =? t then num_val p else 0)) /\
  (is_zero p = true -> exists l, g' = set_last l g).
Proof.
  intros Hpre Hu Hf E.
  destruct (DFS_spec true t n u f g _ g' E Hpre Hu (fun _ => Hf))
    as (T & P' & S & _ & _ & _ & R).
  destruct R as [[R _]|(p0 & [= <-] & _ & Le & N & Z0)]; [discriminate|].
  destruct (Le eq_refl Hf) as [L1 L2]. destruct (dp_good _ _ P') as [A C].
  conj; auto. intros Hz. destruct (Z0 Hz) as [Z1 Z2]. now apply dfs_only_last.
Qed.

Lemma example_levels :
  wf example_labelled /\ bfs_inv example_labelled 0 /\
  good true (edge_list example_labelled) /\ vertices example_labelled = 3 /\
  dist example_labelled 2 <> -1.
Proof.
  assert (E : BFS 4 0 2 example_graph = (Val true, example_labelled))
    by (vm_compute; reflexivity).
  pose proof (fr_wf _ example_fresh) as W.
  destruct (BFS_spec _ _ _ _ _ _ E W) as (T & _ & _ & P);
    try (vm_compute; split; congruence).
  destruct (P true eq_refl) as (Inv & Hb & _).
  pose proof (bfs_touch_fields _ _ T) as (E1 & E2 & _).
  conj; auto.
  - eapply wf_bfs_touch; eauto.
  - rewrite E2. exact example_good.
  - symmetry in Hb. now apply negb_true_iff, Z.eqb_neq in Hb.
Qed.

Lemma DFS_pushes_what_it_returns_witness :
  dfs_pre true example_phase /\
  DFS 4 0 2 INF example_phase = (Val (Fin 3), example_pushed) /\
  num_le (Fin 3) INF /\ num_nonneg (Fin 3) /\
  strip (edge_list example_pushed) = strip (edge_list example_phase) /\
  antisym (edge_list example_pushed) /\
  capok (edge_list example_pushed) /\
  (forall v, net (edge_list example_pushed) v =
             net (edge_list example_phase) v + (if v =? 0 then num_val (Fin 3) else 0)
             - (if v =? 2 then num_val (Fin 3) else 0)) /\
  (is_zero (Fin 3) = true -> exists l, example_pushed = set_last l example_phase).
Proof.
  destruct example_levels as (W1 & Inv1 & G1 & V1 & _).
  assert (Hpre : dfs_pre true example_phase).
  { pose proof (proj1 (dfs_pre_reset true _ 0 W1 Inv1 G1)) as H. rewrite V1 in H. exact H. }
  assert (E : DFS 4 0 2 INF example_phase = (Val (Fin 3), example_pushed))
    by (vm_compute; reflexivity).
  split; [exact Hpre|]. split; [exact E|].
  apply (DFS_pushes_what_it_returns 4 0 2 INF (Fin 3) example_phase example_pushed Hpre).
  - vm_compute. split; congruence.
  - exact I.
  - exact E.
Defined.

(** X13: the first DFS of a phase of dinic finds a path.  On a
    well-formed instance with integer capacities and flows, the flows
    antisymmetric and within the capacities, after BFS(s, t) has returned
    True (s != t) and last has been reset to V zeros, DFS(s, t) returns a
    positive integer p, provided the interpreter allows at least V nested
    calls.  It has moved p units from s to t: the net flow out of s grows
    by p, that of t falls by p, every other vertex keeps its net flow, and
    the flows stay antisymmetric and within the capacities. *)
Theorem DFS_after_BFS_augments (n lim : nat) (s t : Z) (g g1 : MaximumFlow) :
  wf g -> 0 <= s < vertices g -> 0 <= t < vertices g -> s <> t ->
  antisym (edge_list g) -> capok (edge_list g) ->
  BFS n s t g = (Val true, g1) -> vertices g <= Z.of_nat lim ->
  exists p g2,
    DFS lim s t INF (set_last (repeat 0 (Z.to_nat (vertices g))) g1) = (Val (Fin p), g2) /\
    0 < p /\
    strip (edge_list g2) = strip (edge_list g) /\
    antisym (edge_list g2) /\ capok (edge_list g2) /\
    forall v, net (edge_list g2) v =
              net (edge_list g) v + (if v =? s then p else 0) - (if v =? t then p else 0).
Proof.
  intros Hwf Hs Ht Hst Ha Hc Eb Hm.
  destruct (BFS_spec _ _ _ _ _ _ Eb Hwf Hs Ht) as (T & _ & _ & P).
  destruct (P true eq_refl) as (Inv & Hb & _).
  symmetry in Hb. apply negb_true_iff, Z.eqb_neq in Hb.
  pose proof (bfs_touch_fields _ _ T) as (E1 & E2 & _).
  assert (Hwf1 : wf g1) by (eapply wf_bfs_touch; eauto).
  rewrite <- E1 in *. rewrite <- E2 in *.
  destruct (dfs_pre_reset true g1 s Hwf1 Inv (conj Ha (fun _ => Hc))) as [Pz Lz].
  set (gz := set_last (repeat 0 (Z.to_nat (vertices g1))) g1) in *.
  assert (Hinvz : bfs_inv gz s) by now apply bfs_inv_set_last.
  assert (Hsz : 0 <= s < vertices gz) by exact Hs.
  assert (Htz : 0 <= t < vertices gz) by exact Ht.
  assert (Hp : lpath gz t s).
  { apply (bfs_lpath gz s t); auto. apply (wf_static g1); auto. }
  destruct (DFS lim s t INF gz) as [r g2] eqn:E.
  destruct (DFS_spec true t lim s INF gz r g2 E Pz Hsz (fun _ => I))
    as (_ & P2 & S2 & _ & _ & _ & R).
  pose proof (DFS_live t lim s INF gz r g2 E Pz Hsz I) as Lz0.
  assert (Lf : r <> Exn RecursionError).
  { apply (DFS_depth true t (vertices gz) lim s INF gz r g2 E Pz Hsz (fun _ => I)).
    - intros y Hy. now apply (dist_lt_vertices gz s).
    - rewrite (bi_src _ _ Hinvz). change (vertices gz) with (vertices g1). lia. }
  destruct R as [[R _]|(p & -> & Fp & Le & N & _)]; [contradiction|].
  destruct (Fp (or_intror Hst)) as [z ->].
  destruct (Le eq_refl I) as [_ Hz]. cbn [num_nonneg num_val] in *.
  destruct (dp_good _ _ P2) as [A2 C2].
  exists z, g2. conj; auto.
  destruct (Z.eq_dec z 0) as [->|]; [|lia]. exfalso.
  destruct (Lz0 (Fin 0) eq_refl eq_refl) as [_ Hn]. now apply Hn.
Qed.

Lemma DFS_after_BFS_augments_witness :
  wf example_graph /\
  exists p g2,
    DFS 4 0 2 INF (set_last (repeat 0 (Z.to_nat (vertices example_graph)))
                            (snd (BFS 4 0 2 example_graph))) = (Val (Fin p), g2) /\
    0 < p /\
    strip (edge_list g2) = strip (edge_list example_graph) /\
    antisym (edge_list g2) /\ capok (edge_list g2) /\
    forall v, net (edge_list g2) v =
              net (edge_list example_graph) v + (if v =? 0 then p else 0)
              - (if v =? 2 then p else 0).
Proof.
  assert (W : wf example_graph) by exact (fr_wf _ example_fresh).
  split; [exact W|].
  apply (DFS_after_BFS_augments 4 4 0 2 example_graph (snd (BFS 4 0 2 example_graph)) W).
  - vm_compute. split; congruence.
  - vm_compute. split; congruence.
  - lia.
  - exact (proj1 example_good).
  - exact (proj2 example_good eq_refl).
  - vm_compute. reflexivity.
  - vm_compute. discriminate.
Defined.

(** ** The run entry points *)

(** The net flow out of the source of a flow that saturates the cut of the
    labelled vertices is the capacity of that cut. *)
Lemma saturated_cut_value (g : MaximumFlow) (s t : Z) :
  wf g -> 0 <= s < vertices g -> good true (edge_list g) -> conserved g s t ->
  saturated_cut g s t -> net (edge_list g) s = cut_capacity g.
Proof.
  intros Hwf Hs [A C] K (Rs & Rt & Hcl). specialize (C eq_refl).
  assert (Hl : forall v, labelled g v = true <-> dist g v <> -1).
  { intros v. unfold labelled. rewrite negb_true_iff. apply Z.eqb_neq. }
  rewrite (cut_value (edge_list g) (vertices g) (labelled g) s); auto.
  - unfold cut_capacity. apply zsum_ext. intros i Hi.
    destruct (labelled g (etail (edge_list g) i)) eqn:E1; cbn [andb]; auto.
    destruct (labelled g (ev (edge_list g) i)) eqn:E2; cbn [negb]; auto.
    apply Hl in E1.
    assert (E2' : dist g (ev (edge_list g) i) = -1).
    { destruct (Z.eq_dec (dist g (ev (edge_list g) i)) (-1)) as [|N]; auto.
      apply Hl in N. congruence. }
    assert (Hi' : 0 <= i < zlen (edge_list g)) by (unfold zlen; lia).
    pose proof (etail_range _ _ i (wf_even _ Hwf) (wf_head _ Hwf) Hi') as Ht.
    pose proof (C i Hi') as Hc.
    destruct (Z_lt_le_dec 0 (ecap (edge_list g) i - eflow (edge_list g) i)) as [Hr|Hr]; [|lia].
    exfalso. exact (Hcl _ Ht E1 i Hi' eq_refl Hr E2').
  - exact (wf_V _ Hwf).
  - exact (wf_even _ Hwf).
  - exact (wf_head _ Hwf).
  - intros v Hv Hne Hlab. apply K; auto. intros ->. apply Hl in Hlab. contradiction.
  - now apply Hl.
Qed.

Lemma cut_capacity_bounds (g : MaximumFlow) :
  Forall (fun e => 0 <= e_cap e) (edge_list g) ->
  0 <= cut_capacity g <= captotal (edge_list g).
Proof.
  intros Hn. unfold cut_capacity, captotal. split.
  - rewrite <- (zsum_zero (fun _ => 0) (length (edge_list g))) at 1 by auto.
    apply zsum_le. intros i Hi. cbv beta.
    pose proof (zn_Forall _ dummy_edge _ i Hn Hi) as H. cbv beta in H. fold_edge.
    destruct (_ && _); lia.
  - apply zsum_le. intros i Hi. cbv beta.
    pose proof (zn_Forall _ dummy_edge _ i Hn Hi) as H. cbv beta in H. fold_edge.
    destruct (_ && _); lia.
Qed.

Lemma nonneg_caps_strip (el el' : list edge) :
  strip el' = strip el -> Forall (fun e => 0 <= e_cap e) el ->
  Forall (fun e => 0 <= e_cap e) el'.
Proof.
  intros S H. apply Forall_forall. intros e He.
  destruct (In_nth _ _ dummy_edge He) as (k & Hk & <-).
  assert (E : e_cap (nth k el' dummy_edge) = ecap el' (Z.of_nat k))
    by (unfold ecap, zn; now rewrite Nat2Z.id).
  rewrite E, (strip_ecap _ _ _ S).
  rewrite (strip_length _ _ S) in Hk.
  exact (zn_Forall _ dummy_edge _ (Z.of_nat k) H ltac:(unfold zlen; lia)).
Qed.

(** What the value of a completed run is, read off [run_post]. *)
Lemma run_post_value (g : MaximumFlow) (s t : Z) (lim n : nat) (x : number)
      (g' : MaximumFlow) :
  fresh g -> nonneg_caps g -> 0 <= s < vertices g -> 0 <= t < vertices g -> s <> t ->
  run_post true s t lim n g (Val x) g' ->
  x = Fin (net (edge_list g') s) /\
  feasible g s t (edge_list g') /\
  (forall el, feasible g s t el -> net el s <= net (edge_list g') s) /\
  net (edge_list g') s = cut_capacity g' /\
  labelled g' s = true /\ labelled g' t = false /\
  0 <= cut_capacity g' <= captotal (edge_list g).
Proof.
  intros F Hn Hs Ht Hst (A1 & A2 & A3 & A4 & A5 & A6 & A7 & A8 & A10 & A9).
  destruct (A9 Hst) as [A9a _]. destruct (A9a x eq_refl) as [-> Cut].
  assert (Hwf' : wf g') by (apply (wf_static g); auto; exact (fr_wf _ F)).
  assert (Hs' : 0 <= s < vertices g') by now rewrite A1.
  assert (Ht' : 0 <= t < vertices g') by now rewrite A1.
  destruct A5 as [Ha Hc].
  assert (K' : forall v, 0 <= v < vertices g -> v <> s -> v <> t -> net (edge_list g') v = 0).
  { intros v Hv. apply A7. now rewrite A1. }
  assert (Hbd : 0 <= cut_capacity g' <= captotal (edge_list g)).
  { rewrite <- (captotal_strip _ _ A3). apply cut_capacity_bounds.
    apply (nonneg_caps_strip (edge_list g)); auto. }
  split; [reflexivity|]. split; [split; auto|].
  split; [|split; [|split; [|split; [|exact Hbd]]]].
  - intros el (S & Ael & Cel & Kel).
    apply (flow_le_cut g' (set_edge_list el g') s t); auto.
    + fgoal. congruence.
    + split; auto.
    + split; auto.
    + intros v Hv. fgoal. apply Kel. now rewrite <- A1.
  - apply (saturated_cut_value g' s t); auto. split; auto.
  - destruct Cut as (Cs & _). unfold labelled. now apply negb_true_iff, Z.eqb_neq.
  - destruct Cut as (_ & Ct & _). unfold labelled. rewrite Ct. reflexivity.
Qed.

(** X14: the value returned is the maximum flow.  For a graph built by
    add_edge calls between vertices in [0, V) with integer capacities
    that are not negative, s != t in [0, V), and an interpreter that
    allows at least V nested calls, edmonds_karp(s, t) and dinic(s, t)
    both return (fuel V + total capacity + 1 suffices) the same integer
    v.  The flows each leaves in the edge store form a feasible flow of
    value v (antisymmetric, within the capacities, conserved at every
    vertex but s and t, heads and capacities untouched), and no feasible
    flow on this graph has a larger net flow out of s. *)
Theorem max_flow_is_maximum (V : Z) (cs : list call) (g : MaximumFlow) (s t : Z)
        (lim n : nat) :
  built V cs g -> nonneg_calls cs -> 0 <= s < V -> 0 <= t < V -> s <> t ->
  V <= Z.of_nat lim -> (enough_fuel g <= n)%nat ->
  exists v g1 g2,
    edmonds_karp lim n s t g = (Val (Fin v), g1) /\
    dinic lim n s t g = (Val (Fin v), g2) /\
    feasible g s t (edge_list g1) /\ net (edge_list g1) s = v /\
    feasible g s t (edge_list g2) /\ net (edge_list g2) s = v /\
    forall el, feasible g s t el -> net el s <= v.
Proof.
  intros Hb Hn Hs Ht Hst Hl Hf.
  destruct (built_fresh V cs g ltac:(lia) Hb) as (F & Ev & Hc). specialize (Hc Hn).
  rewrite <- Ev in Hs, Ht, Hl.
  destruct (max_flow_value g s t F Hc Hs Ht Hst) as [v Hv].
  destruct (Hv lim n Hl Hf) as [R1 R2].
  destruct (edmonds_karp lim n s t g) as [r1 g1] eqn:E1.
  destruct (dinic lim n s t g) as [r2 g2] eqn:E2. cbn [fst] in R1, R2. subst r1 r2.
  pose proof (edmonds_karp_spec true _ _ _ _ _ _ _ F (fun _ => Hc) Hs Ht E1) as P1.
  pose proof (dinic_spec true _ _ _ _ _ _ _ F (fun _ => Hc) Hs Ht E2) as P2.
  destruct (run_post_value g s t lim n _ g1 F Hc Hs Ht Hst P1) as ([= X1] & F1 & M1 & _).
  destruct (run_post_value g s t lim n _ g2 F Hc Hs Ht Hst P2) as ([= X2] & F2 & _).
  exists v, g1, g2. conj; auto. intros el Hel. rewrite X1. now apply M1.
Qed.

Lemma max_flow_is_maximum_witness :
  built 3 example_calls example_graph /\
  exists v g1 g2,
    edmonds_karp 3 13 0 2 example_graph = (Val (Fin v), g1) /\
    dinic 3 13 0 2 example_graph = (Val (Fin v), g2) /\
    feasible example_graph 0 2 (edge_list g1) /\ net (edge_list g1) 0 = v /\
    feasible example_graph 0 2 (edge_list g2) /\ net (edge_list g2) 0 = v /\
    forall el, feasible example_graph 0 2 el -> net el 0 <= v.
Proof.
  split; [exact example_built|].
  apply (max_flow_is_maximum 3 example_calls example_graph 0 2 3 13
           example_built example_nonneg); try lia.
  vm_compute. lia.
Defined.

(** X15: max-flow equals min-cut.  Under the conditions of X14 (integer
    capacities that are not negative, s != t in [0, V), at least V nested
    calls allowed) the
    value each algorithm returns is the capacity of the cut that its
    last BFS left in distances: the sum of the capacities of the entries
    that lead from a vertex with a distance other than -1 to a vertex with
    distance -1.  The source is on the labelled side, the sink is not, and
    the value lies between 0 and the total capacity of the graph. *)
Theorem max_flow_equals_min_cut (V : Z) (cs : list call) (g : MaximumFlow) (s t : Z)
        (lim n : nat) :
  built V cs g -> nonneg_calls cs -> 0 <= s < V -> 0 <= t < V -> s <> t ->
  V <= Z.of_nat lim -> (enough_fuel g <= n)%nat ->
  exists v g1 g2,
    edmonds_karp lim n s t g = (Val (Fin v), g1) /\
    dinic lim n s t g = (Val (Fin v), g2) /\
    v = cut_capacity g1 /\ labelled g1 s = true /\ labelled g1 t = false /\
    v = cut_capacity g2 /\ labelled g2 s = true /\ labelled g2 t = false /\
    0 <= v <= captotal (edge_list g).
Proof.
  intros Hb Hn Hs Ht Hst Hl Hf.
  destruct (built_fresh V cs g ltac:(lia) Hb) as (F & Ev & Hc). specialize (Hc Hn).
  rewrite <- Ev in Hs, Ht, Hl.
  destruct (max_flow_value g s t F Hc Hs Ht Hst) as [v Hv].
  destruct (Hv lim n Hl Hf) as [R1 R2].
  destruct (edmonds_karp lim n s t g) as [r1 g1] eqn:E1.
  destruct (dinic lim n s t g) as [r2 g2] eqn:E2. cbn [fst] in R1, R2. subst r1 r2.
  pose proof (edmonds_karp_spec true _ _ _ _ _ _ _ F (fun _ => Hc) Hs Ht E1) as P1.
  pose proof (dinic_spec true _ _ _ _ _ _ _ F (fun _ => Hc) Hs Ht E2) as P2.
  destruct (run_post_value g s t lim n _ g1 F Hc Hs Ht Hst P1)
    as ([= X1] & _ & _ & C1 & L1 & M1 & B1).
  destruct (run_post_value g s t lim n _ g2 F Hc Hs Ht Hst P2)
    as ([= X2] & _ & _ & C2 & L2 & M2 & _).
  exists v, g1, g2. conj; auto; try congruence; lia.
Qed.

Lemma max_flow_equals_min_cut_witness :
  built 3 example_calls example_graph /\
  exists v g1 g2,
    edmonds_karp 3 13 0 2 example_graph = (Val (Fin v), g1) /\
    dinic 3 13 0 2 example_graph = (Val (Fin v), g2) /\
    v = cut_capacity g1 /\ labelled g1 0 = true /\ labelled g1 2 = false /\
    v = cut_capacity g2 /\ labelled g2 0 = true /\ labelled g2 2 = false /\
    0 <= v <= captotal (edge_list example_graph).
Proof.
  split; [exact example_built|].
  apply (max_flow_equals_min_cut 3 example_calls example_graph 0 2 3 13
           example_built example_nonneg); try lia.
  vm_compute. lia.
Defined.

(** X16: a run on a graph built by add_edge calls between vertices in
    [0, V) with integer capacities (negative ones included), with s and t
    in [0, V), raises no exception other than RecursionError, and not
    that one either when the interpreter allows at least V nested calls:
    no subscript is ever out of range and float('inf') is never stored as
    a flow.  The run changes no vertex count, adjacency list, head or
    capacity; with s != t a value it returns is an integer, never
    float('inf'). *)
Theorem run_raises_at_most_RecursionError (V : Z) (cs : list call) (g : MaximumFlow)
        (s t : Z) (lim n : nat) (r : res number) (g' : MaximumFlow) :
  built V cs g -> 0 <= s < V -> 0 <= t < V ->
  edmonds_karp lim n s t g = (r, g') \/ dinic lim n s t g = (r, g') ->
  (forall e, r = Exn e -> e = RecursionError) /\
  (V <= Z.of_nat lim -> forall e, r <> Exn e) /\
  vertices g' = V /\ adjacency_list g' = adjacency_list g /\
  strip (edge_list g') = strip (edge_list g) /\
  (s <> t -> forall x, r = Val x -> is_fin x).
Proof.
  intros Hb Hs Ht H.
  destruct (built_fresh V cs g ltac:(lia) Hb) as (F & Ev & _).
  rewrite <- Ev in Hs, Ht.
  assert (P : run_post false s t lim n g r g').
  { destruct H as [H|H].
    - apply (edmonds_karp_spec false lim n s t g r g'); auto. discriminate.
    - apply (dinic_spec false lim n s t g r g'); auto. discriminate. }
  destruct P as (A1 & A2 & A3 & A4 & A5 & A6 & A7 & A8 & A10 & A9).
  conj; auto; try congruence.
  - intros e. destruct A8 as [[->| ->]|[x ->]]; congruence.
  - intros Hl e. rewrite <- Ev in Hl. specialize (A10 Hl).
    destruct A8 as [[->| ->]|[x ->]]; congruence.
  - intros Hst x ->. destruct (A9 Hst) as [A9a _]. destruct (A9a x eq_refl) as [-> _].
    now eexists.
Qed.

Lemma run_raises_at_most_RecursionError_witness :
  built 3 example_calls example_graph /\
  (forall e, Val (Fin 6) = Exn e -> e = RecursionError) /\
  (3 <= Z.of_nat 5 -> forall e, Val (Fin 6) <> Exn e) /\
  vertices example_done = 3 /\ adjacency_list example_done = adjacency_list example_graph /\
  strip (edge_list example_done) = strip (edge_list example_graph) /\
  (0 <> 2 -> forall x, Val (Fin 6) = Val x -> is_fin x).
Proof.
  split; [exact example_built|].
  apply (run_raises_at_most_RecursionError 3 example_calls example_graph 0 2 5 5
           (Val (Fin 6)) example_done example_built); try lia.
  left. vm_compute. reflexivity.
Defined.

(** X17: with source equal to sink a run never returns.  On a graph
    built by add_edge calls between vertices in [0, V) and s in [0, V),
    edmonds_karp(s, s) and dinic(s, s) neither return a value nor raise
    (one nested call is all they need): BFS(s, s) is True in every round
    and send_one_flow and DFS hand the bound float('inf') back, which is
    not 0, so the loops go on for as long as they are run. *)
Theorem run_never_ends_when_s_is_t (V : Z) (cs : list call) (g : MaximumFlow) (s : Z)
        (lim n : nat) :
  built V cs g -> 0 <= s < V ->
  fst (edmonds_karp (S lim) n s s g) = Fuel /\ fst (dinic (S lim) n s s g) = Fuel.
Proof.
  intros Hb Hs.
  destruct (built_fresh V cs g ltac:(lia) Hb) as (F & Ev & _).
  rewrite <- Ev in Hs. pose proof (fr_wf _ F) as Hwf.
  assert (Hwf0 : wf (set_has_been_run true g)) by (apply (wf_static g); auto).
  split.
  - unfold edmonds_karp. rewrite (bind_val _ _ _ _ _ (assert_ready g (fr_run _ F))).
    destruct (ek_while (S lim) n n s s (Fin 0) (set_has_been_run true g)) as [r g'] eqn:E.
    apply ek_while_self in E; auto. destruct E as [->|[? _]]; [reflexivity|discriminate].
  - unfold dinic. rewrite (bind_val _ _ _ _ _ (assert_ready g (fr_run _ F))).
    destruct (dinic_while (S lim) n n s s (Fin 0) (set_has_been_run true g))
      as [r g'] eqn:E.
    apply dinic_while_self in E; auto. destruct E as [->|[? _]]; [reflexivity|discriminate].
Qed.

Lemma run_never_ends_when_s_is_t_witness :
  built 3 example_calls example_graph /\
  fst (edmonds_karp 1 50 1 1 example_graph) = Fuel /\
  fst (dinic 1 50 1 1 example_graph) = Fuel.
Proof.
  split; [exact example_built|].
  apply (run_never_ends_when_s_is_t 3 example_calls example_graph 1 0 50 example_built). lia.
Defined.


(** X19: a run with a source that is no subscript of a list of length V
    raises IndexError at the second statement of BFS.  By then the
    instance is marked as run and distances holds V times -1; the edge
    store is untouched.  No flow was computed, and yet every further
    edmonds_karp or dinic on the instance raises the rerun exception. *)
Theorem run_with_bad_source (g : MaximumFlow) (lim n : nat) (s t : Z) :
  has_been_run g = false -> out_of_range (Z.max 0 (vertices g)) s ->
  exists g',
    edmonds_karp lim (S n) s t g = (Exn IndexError, g') /\
    dinic lim (S n) s t g = (Exn IndexError, g') /\
    has_been_run g' = true /\ edge_list g' = edge_list g /\
    distances g' = repeat (-1) (Z.to_nat (vertices g)) /\
    forall lim' m s' t',
      edmonds_karp lim' m s' t' g' = (Exn RerunError, g') /\
      dinic lim' m s' t' g' = (Exn RerunError, g').
Proof.
  intros Hr Hs.
  set (g' := set_distances (repeat (-1) (Z.to_nat (vertices g))) (set_has_been_run true g)).
  assert (Hb : BFS (S n) s t (set_has_been_run true g) = (Exn IndexError, g')).
  { unfold BFS. mstep. mstep. mstep. fgoal. apply bind_exn. apply setitem_out.
    rewrite zlen_repeat. unfold out_of_range in *. lia. }
  exists g'. conj; auto.
  - unfold edmonds_karp. rewrite (bind_val _ _ _ _ _ (assert_ready g Hr)).
    cbn [ek_while]. now apply bind_exn.
  - unfold dinic. rewrite (bind_val _ _ _ _ _ (assert_ready g Hr)).
    cbn [dinic_while]. now apply bind_exn.
Qed.

Lemma run_with_bad_source_witness :
  has_been_run example_graph = false /\
  exists g',
    edmonds_karp 1 1 3 0 example_graph = (Exn IndexError, g') /\
    dinic 1 1 3 0 example_graph = (Exn IndexError, g') /\
    has_been_run g' = true /\ edge_list g' = edge_list example_graph /\
    distances g' = repeat (-1) (Z.to_nat (vertices example_graph)) /\
    forall lim' m s' t',
      edmonds_karp lim' m s' t' g' = (Exn RerunError, g') /\
      dinic lim' m s' t' g' = (Exn RerunError, g').
Proof.
  assert (H1 : has_been_run example_graph = false) by reflexivity.
  split; [exact H1|].
  apply (run_with_bad_source example_graph 1 0 3 0 H1).
  right. vm_compute. discriminate.
Defined.

(** A BFS on an instance without a residual path from [s] to [t] returns False. *)
Lemma BFS_without_path (n : nat) (s t : Z) (g : MaximumFlow) :
  wf g -> 0 <= s < vertices g -> 0 <= t < vertices g -> vertices g < Z.of_nat n ->
  ~ rpath (edge_list g) s t ->
  exists g', BFS n s t g = (Val false, g') /\ bfs_touch g g'.
Proof.
  intros Hwf Hs Ht Hn Hp.
  destruct (BFS_total n s t g Hwf Hs Ht Hn) as (b & g' & E & T & Hwf' & Inv & Hb & _).
  pose proof (bfs_touch_fields _ _ T) as (E1 & E2 & _).
  exists g'. split; auto. destruct b; auto. exfalso. apply Hp.
  symmetry in Hb. unfold labelled in Hb. apply negb_true_iff, Z.eqb_neq in Hb.
  rewrite <- E1 in Ht. pose proof (bi_lo _ _ Inv t Ht).
  rewrite <- E2. apply (labelled_rpath g' s Inv (Z.to_nat (dist g' t))); auto. lia.
Qed.

(** X20: without a path there is no flow.  On a graph built by
    add_edge calls between vertices in [0, V), if t cannot be reached
    from s over entries of positive capacity, then edmonds_karp(s, t)
    and dinic(s, t) return 0 after a single BFS and leave the edge store
    exactly as add_edge built it, whatever the capacities. *)
Theorem run_without_path_returns_zero (V : Z) (cs : list call) (g : MaximumFlow) (s t : Z)
        (lim n : nat) :
  built V cs g -> 0 <= s < V -> 0 <= t < V -> V < Z.of_nat n ->
  ~ rpath (edge_list g) s t ->
  exists g1 g2,
    edmonds_karp lim n s t g = (Val (Fin 0), g1) /\
    dinic lim n s t g = (Val (Fin 0), g2) /\
    edge_list g1 = edge_list g /\ edge_list g2 = edge_list g.
Proof.
  intros Hb Hs Ht Hn Hp.
  destruct (built_fresh V cs g ltac:(lia) Hb) as (F & Ev & _).
  rewrite <- Ev in Hs, Ht, Hn. pose proof (fr_wf _ F) as Hwf.
  set (g0 := set_has_been_run true g).
  assert (Hwf0 : wf g0) by (apply (wf_static g); auto).
  destruct (BFS_without_path n s t g0 Hwf0 Hs Ht Hn Hp) as (g' & E & T).
  pose proof (bfs_touch_fields _ _ T) as (_ & E2 & _).
  destruct n as [|n]; [cbn in Hn; lia|].
  exists g', g'. conj; auto.
  - unfold edmonds_karp. rewrite (bind_val _ _ _ _ _ (assert_ready g (fr_run _ F))).
    cbn [ek_while]. fold g0. now rewrite (bind_val _ _ _ _ _ E).
  - unfold dinic. rewrite (bind_val _ _ _ _ _ (assert_ready g (fr_run _ F))).
    cbn [dinic_while]. fold g0. now rewrite (bind_val _ _ _ _ _ E).
Qed.

Lemma rpath_from_sink_of_example : ~ rpath (edge_list example_graph) 2 0.
Proof.
  assert (H : forall u w, rpath (edge_list example_graph) u w -> u = 2 -> w = 2).
  { intros u w P. induction P as [u|u i w Hi Ht Hr P IH]; intros E; auto.
    rewrite E in Ht. exfalso.
    assert (Hl : zlen (edge_list example_graph) = 6) by (vm_compute; reflexivity).
    assert (Hc : i = 0 \/ i = 1 \/ i = 2 \/ i = 3 \/ i = 4 \/ i = 5) by lia.
    destruct Hc as [->|[->|[->|[->|[->| ->]]]]]; vm_compute in Ht, Hr; congruence. }
  intros P. specialize (H 2 0 P eq_refl). discriminate.
Qed.

Lemma run_without_path_returns_zero_witness :
  built 3 example_calls example_graph /\
  exists g1 g2,
    edmonds_karp 0 4 2 0 example_graph = (Val (Fin 0), g1) /\
    dinic 0 4 2 0 example_graph = (Val (Fin 0), g2) /\
    edge_list g1 = edge_list example_graph /\ edge_list g2 = edge_list example_graph.
Proof.
  split; [exact example_built|].
  apply (run_without_path_returns_zero 3 example_calls example_graph 2 0 0 4 example_built);
    try lia.
  exact rpath_from_sink_of_example.
Defined.

(** X21: the value returned is the flow across every cut.  On a graph
    built by add_edge calls between vertices in [0, V) with integer
    capacities, negative ones included, and with s != t in [0, V): when
    edmonds_karp(s, t) or
    dinic(s, t) returns x, then for every set of vertices that holds s
    and not t, x is the sum of the flows of the entries that lead from
    the set to its complement.  With the set {s} this is the flow
    leaving the source, with all vertices but t the flow entering the
    sink. *)
Theorem value_is_the_flow_across_every_cut (V : Z) (cs : list call) (g : MaximumFlow)
        (s t : Z) (lim n : nat) (x : number) (g' : MaximumFlow) (inS : Z -> bool) :
  built V cs g -> 0 <= s < V -> 0 <= t < V -> s <> t ->
  edmonds_karp lim n s t g = (Val x, g') \/ dinic lim n s t g = (Val x, g') ->
  inS s = true -> inS t = false ->
  x = Fin (cut_flow (edge_list g') inS).
Proof.
  intros Hb Hs Ht Hst H Hss Hts.
  destruct (built_fresh V cs g ltac:(lia) Hb) as (F & Ev & _).
  rewrite <- Ev in Hs, Ht.
  assert (P : run_post false s t lim n g (Val x) g').
  { destruct H as [H|H].
    - apply (edmonds_karp_spec false lim n s t g _ g'); auto. discriminate.
    - apply (dinic_spec false lim n s t g _ g'); auto. discriminate. }
  destruct P as (A1 & A2 & A3 & A4 & [Ha _] & A6 & A7 & A8 & A10 & A9).
  destruct (A9 Hst) as [A9a _]. destruct (A9a x eq_refl) as [-> _]. f_equal.
  assert (Hwf' : wf g') by (apply (wf_static g); auto; exact (fr_wf _ F)).
  unfold cut_flow. apply (cut_value (edge_list g') (vertices g') inS s); auto.
  - exact (wf_V _ Hwf').
  - exact (wf_even _ Hwf').
  - exact (wf_head _ Hwf').
  - now rewrite A1.
  - intros v Hv Hne Hin. apply A7; auto. intros ->. congruence.
Qed.

Lemma value_is_the_flow_across_every_cut_witness :
  built 3 example_calls example_graph /\
  Fin 6 = Fin (cut_flow (edge_list example_done) (fun v => v =? 0)).
Proof.
  split; [exact example_built|].
  apply (value_is_the_flow_across_every_cut 3 example_calls example_graph 0 2 5 5 (Fin 6)
           example_done (fun v => v =? 0) example_built); try lia; try reflexivity.
  left. vm_compute. reflexivity.
Defined.

(** ** main *)

Lemma add_edges_app (cs1 cs2 : list call) (g : MaximumFlow) :
  add_edges (cs1 ++ cs2) g = (add_edges cs1 ;;; add_edges cs2) g.
Proof.
  revert g. induction cs1 as [|c cs1 IH]; intros g; cbn [add_edges app].
  - reflexivity.
  - rewrite bind_assoc.
    destruct (add_edge (c_u c) (c_v c) (c_cap c) (c_directed c) g) as [[[]|e|] g1] eqn:E.
    + rewrite !(bind_val _ _ _ _ _ E). apply IH.
    + now rewrite !(bind_exn _ _ _ _ _ E).
    + now rewrite !(bind_fuel _ _ _ _ E).
Qed.

Lemma main_pairs_calls (u : Z) (tkn : list Z) (js : list Z) :
  Forall (fun i => 0 <= i /\ 2 * i + 2 < zlen tkn) js ->
  forall g,
    main_pairs u tkn js g =
    add_edges (map (fun i => mkCall u (zn 0 tkn (2 * i + 1)) (zn 0 tkn (2 * i + 2)) true) js) g.
Proof.
  induction 1 as [|i js [Hi Hlen] _ IH]; intros g; cbn [main_pairs add_edges map].
  - reflexivity.
  - rewrite (bind_getitem 0) by lia. rewrite (bind_getitem 0) by lia.
    cbn [c_u c_v c_cap c_directed].
    destruct (add_edge u (zn 0 tkn (2 * i + 1)) (zn 0 tkn (2 * i + 2)) true g)
      as [[[]|e|] g1] eqn:E.
    + rewrite !(bind_val _ _ _ _ _ E). apply IH.
    + now rewrite !(bind_exn _ _ _ _ _ E).
    + now rewrite !(bind_fuel _ _ _ _ E).
Qed.

Lemma main_lines_calls (lines : list (list Z)) :
  Forall line_ok lines ->
  forall (u : Z) (rest : list (list Z)) (g : MaximumFlow),
    main_lines (map (fun k => u + Z.of_nat k) (seq 0 (length lines))) (lines ++ rest) g =
    add_edges (file_calls u lines) g.
Proof.
  induction 1 as [|l lines [Hl1 Hl2] _ IH]; intros u rest g.
  - reflexivity.
  - cbn [length seq map app main_lines file_calls hd tl].
    rewrite (bind_getitem 0) by lia.
    rewrite add_edges_app. unfold line_calls.
    replace (u + Z.of_nat 0) with u by lia.
    assert (Hp : Forall (fun i => 0 <= i /\ 2 * i + 2 < zlen l) (py_range 0 (zn 0 l 0))).
    { apply Forall_forall. intros i Hi. apply in_py_range in Hi. lia. }
    pose proof (main_pairs_calls u l _ Hp g) as Ep.
    destruct (main_pairs u l (py_range 0 (zn 0 l 0)) g) as [[[]|e|] g1] eqn:E;
      symmetry in Ep.
    + rewrite (bind_val _ _ _ _ _ E), (bind_val _ _ _ _ _ Ep).
      rewrite <- seq_shift, map_map.
      rewrite <- (IH (u + 1) rest g1). f_equal. apply map_ext. intros k. lia.
    + now rewrite (bind_exn _ _ _ _ _ E), (bind_exn _ _ _ _ _ Ep).
    + now rewrite (bind_fuel _ _ _ _ E), (bind_fuel _ _ _ _ Ep).
Qed.

(** X22: main prints the maximum flow of the graph its input
    describes.  Let the first line hold V, s and t with s != t in
    [0, V) and let line u + 1, for each u in [0, V), hold a count k
    followed by at least k pairs v, w with v in [0, V) and w >= 0 (what
    follows the k pairs, and every line after these, is ignored; int
    makes every capacity an integer).  Then, when the interpreter allows
    dinic at least V nested calls, main raises nothing: it adds the
    directed edge u -> v of capacity w for every pair, in the order of
    the file, and the integer it prints is the net flow dinic leaves at
    s, which no feasible flow of the graph exceeds. *)
Theorem main_prints_the_maximum_flow (V s t : Z) (lines rest : list (list Z))
        (lim n : nat) :
  zlen lines = V -> Forall line_ok lines ->
  Forall (valid_call V) (file_calls 0 lines) -> nonneg_calls (file_calls 0 lines) ->
  0 <= s < V -> 0 <= t < V -> s <> t ->
  V <= Z.of_nat lim ->
  (S (Z.to_nat (V + captotal (entries_of (file_calls 0 lines)))) <= n)%nat ->
  exists g v g',
    built V (file_calls 0 lines) g /\
    main lim n ([V; s; t] :: lines ++ rest) = Finished (Val (Fin v)) g' /\
    net (edge_list g') s = v /\
    forall el, feasible g s t el -> net el s <= v.
Proof.
  intros HV Hok Hval Hnn Hs Ht Hst Hl Hn.
  assert (HV0 : 0 <= V) by lia.
  destruct (add_edges_fresh (file_calls 0 lines) (init V) (fresh_init V HV0) Hval)
    as (g & Eg & F & Ev & Hc).
  cbn [init vertices] in Ev.
  assert (Hb : built V (file_calls 0 lines) g) by (split; auto).
  specialize (Hc Hnn (Forall_nil _)).
  assert (Eel : edge_list g = entries_of (file_calls 0 lines)).
  { apply (add_edges_entries _ (init V) g) in Eg; auto.
    cbn [init adjacency_list vertices]. rewrite zlen_repeat. lia. }
  assert (Hf : (enough_fuel g <= n)%nat) by (unfold enough_fuel; now rewrite Ev, Eel).
  rewrite <- Ev in Hs, Ht, Hl.
  destruct (max_flow_value g s t F Hc Hs Ht Hst) as [v Hv].
  destruct (Hv lim n Hl Hf) as [_ R].
  destruct (dinic lim n s t g) as [r g'] eqn:E. cbn [fst] in R. subst r.
  pose proof (dinic_spec true _ _ _ _ _ _ _ F (fun _ => Hc) Hs Ht E) as P.
  destruct (run_post_value g s t lim n _ g' F Hc Hs Ht Hst P) as ([= X] & _ & M & _).
  exists g, v, g'. conj; auto.
  - unfold main. cbn [hd tl].
    assert (El : main_lines (py_range 0 V) (lines ++ rest) (init V) = (Val tt, g)).
    { unfold py_range. replace (Z.to_nat (V - 0)) with (length lines) by (unfold zlen in HV; lia).
      rewrite (main_lines_calls lines Hok 0 rest (init V)). exact Eg. }
    rewrite (bind_val _ _ _ _ _ El). now rewrite E.
  - intros el Hel. rewrite X. now apply M.
Qed.

Lemma main_prints_the_maximum_flow_witness :
  zlen [[2; 1; 3; 2; 3]; [1; 2; 3]; [0]] = 3 /\
  exists g v g',
    built 3 (file_calls 0 [[2; 1; 3; 2; 3]; [1; 2; 3]; [0]]) g /\
    main 3 13 ([3; 0; 2] :: [[2; 1; 3; 2; 3]; [1; 2; 3]; [0]] ++ []) =
    Finished (Val (Fin v)) g' /\
    net (edge_list g') 0 = v /\
    forall el, feasible g 0 2 el -> net el 0 <= v.
Proof.
  assert (H1 : zlen [[2; 1; 3; 2; 3]; [1; 2; 3]; [0]] = 3) by reflexivity.
  split; [exact H1|].
  apply (main_prints_the_maximum_flow 3 0 2 [[2; 1; 3; 2; 3]; [1; 2; 3]; [0]] [] 3 13 H1).
  - repeat constructor; vm_compute; congruence.
  - repeat constructor; vm_compute; congruence.
  - repeat constructor; vm_compute; congruence.
  - lia.
  - lia.
  - lia.
  - lia.
  - vm_compute. lia.
Defined.

Lemma add_edges_app_bind {B} (cs1 cs2 : list call) (k : unit -> M B) (g : MaximumFlow) :
  bind (add_edges (cs1 ++ cs2)) k g =
  bind (add_edges cs1) (fun _ => bind (add_edges cs2) k) g.
Proof.
  transitivity (bind (add_edges cs1 ;;; add_edges cs2) k g); [|apply bind_assoc].
  unfold bind at 1. rewrite add_edges_app. reflexivity.
Qed.

Lemma main_lines_short (lines : list (list Z)) :
  Forall line_ok lines ->
  forall (u x : Z) (us : list Z) (g : MaximumFlow),
    main_lines (map (fun k => u + Z.of_nat k) (seq 0 (length lines)) ++ x :: us) lines g =
    (add_edges (file_calls u lines) ;;; raise IndexError) g.
Proof.
  induction 1 as [|l lines [Hl1 Hl2] _ IH]; intros u x us g.
  - cbn [length seq map app main_lines file_calls hd add_edges].
    rewrite (bind_exn _ _ g g IndexError); [reflexivity|].
    apply getitem_out. unfold out_of_range, zlen. cbn [length]. lia.
  - cbn [length seq map app main_lines file_calls hd tl].
    rewrite (bind_getitem 0) by lia.
    rewrite add_edges_app_bind. unfold line_calls.
    replace (u + Z.of_nat 0) with u by lia.
    assert (Hp : Forall (fun i => 0 <= i /\ 2 * i + 2 < zlen l) (py_range 0 (zn 0 l 0))).
    { apply Forall_forall. intros i Hi. apply in_py_range in Hi. lia. }
    pose proof (main_pairs_calls u l _ Hp g) as Ep.
    destruct (main_pairs u l (py_range 0 (zn 0 l 0)) g) as [[[]|e|] g1] eqn:E;
      symmetry in Ep.
    + rewrite (bind_val _ _ _ _ _ E), (bind_val _ _ _ _ _ Ep).
      rewrite <- seq_shift, map_map.
      rewrite <- (IH (u + 1) x us g1). f_equal. f_equal. apply map_ext. intros k. lia.
    + now rewrite (bind_exn _ _ _ _ _ E), (bind_exn _ _ _ _ _ Ep).
    + now rewrite (bind_fuel _ _ _ _ E), (bind_fuel _ _ _ _ Ep).
Qed.

(** X23: main on a file that ends early.  If fewer than V lines follow
    the first line (each a count k with at least k pairs v, w, v in
    [0, V)), main adds the edges of the lines that are there and then
    raises IndexError, at tkn[0] of the first missing line: dinic is
    never called and nothing is printed. *)
Theorem main_short_file (V s t : Z) (lines : list (list Z)) (lim n : nat) :
  zlen lines < V -> Forall line_ok lines ->
  Forall (valid_call V) (file_calls 0 lines) ->
  exists g,
    built V (file_calls 0 lines) g /\
    main lim n ([V; s; t] :: lines) = Finished (Exn IndexError) g /\
    has_been_run g = false.
Proof.
  intros HV Hok Hval.
  assert (HV0 : 0 <= V) by (pose proof (zlen_nonneg lines); lia).
  destruct (add_edges_fresh (file_calls 0 lines) (init V) (fresh_init V HV0) Hval)
    as (g & Eg & F & _).
  exists g. split; [split; auto|]. split; [|exact (fr_run _ F)].
  unfold main. cbn [hd tl]. unfold py_range.
  destruct (Z.to_nat (V - 0) - length lines)%nat as [|m] eqn:Em;
    [unfold zlen in HV; lia|].
  replace (Z.to_nat (V - 0)) with (length lines + S m)%nat by lia.
  rewrite seq_app, map_app. cbn [seq map].
  assert (El : main_lines
                 (map (fun k => 0 + Z.of_nat k) (seq 0 (length lines)) ++
                  (0 + Z.of_nat (0 + length lines)) ::
                  map (fun k => 0 + Z.of_nat k) (seq (S (0 + length lines)) m))
                 lines (init V) = (Exn IndexError, g)).
  { rewrite (main_lines_short lines Hok). now rewrite (bind_val _ _ _ _ _ Eg). }
  now rewrite (bind_exn _ _ _ _ _ El).
Qed.

Lemma main_short_file_witness :
  zlen [[1; 1; 3]] < 3 /\
  exists g,
    built 3 (file_calls 0 [[1; 1; 3]]) g /\
    main 5 5 ([3; 0; 2] :: [[1; 1; 3]]) = Finished (Exn IndexError) g /\
    has_been_run g = false.
Proof.
  assert (H1 : zlen [[1; 1; 3]] < 3) by (vm_compute; reflexivity).
  split; [exact H1|].
  apply (main_short_file 3 0 2 [[1; 1; 3]] 5 5 H1).
  - repeat constructor; vm_compute; congruence.
  - repeat constructor; vm_compute; congruence.
Defined.

(** ** The recursion limit *)




(** * Integer capacities among the Python numbers *)

(** On integer capacities the methods over Python numbers ([PyNumber])
    compute what the integer embedding computes: every theorem above is a
    theorem about the Python methods called with [int] capacities. *)

(** ** The monads *)

Lemma refines_ret {A B} (f : A -> B) (a : A) : refines f (ret a) (PyNumber.ret (f a)).
Proof. intros g. reflexivity. Qed.

Lemma refines_fuel {A B} (f : A -> B) : refines f out_of_fuel PyNumber.out_of_fuel.
Proof. intros g. reflexivity. Qed.

Lemma refines_nonint {A B C} (f : B -> C) (k : A -> M B) (m' : PyNumber.M C) :
  refines f (bind (raise NonIntegerFlow) k) m'.
Proof. intros g. exact I. Qed.

Lemma returns_ret {A} (P : A -> Prop) (a : A) : P a -> returns P (ret a).
Proof. intros H g b g' [= <- _]. exact H. Qed.

Lemma returns_raise {A} (P : A -> Prop) (e : exn) : returns P (raise e).
Proof. intros g b g' H. discriminate. Qed.

Lemma returns_fuel {A} (P : A -> Prop) : returns P out_of_fuel.
Proof. intros g b g' H. discriminate. Qed.

Lemma returns_bind {A B} (P : B -> Prop) (m : M A) (k : A -> M B) :
  (forall a, returns P (k a)) -> returns P (bind m k).
Proof.
  intros H g b g' E. unfold bind in E. destruct (m g) as [[a|e|] g1]; try discriminate.
  exact (H a g1 b g' E).
Qed.

Lemma returns_bind_post {A B} (Q : A -> Prop) (P : B -> Prop) (m : M A) (k : A -> M B) :
  returns Q m -> (forall a, Q a -> returns P (k a)) -> returns P (bind m k).
Proof.
  intros Hm H g b g' E. unfold bind in E. destruct (m g) as [[a|e|] g1] eqn:Em;
    try discriminate.
  exact (H a (Hm g a g1 Em) g1 b g' E).
Qed.

Lemma refines_bind_post {A B A' B'} (P : A -> Prop) (f : A -> A') (h : B -> B')
      (m : M A) (k : A -> M B) (m' : PyNumber.M A') (k' : A' -> PyNumber.M B') :
  refines f m m' -> returns P m -> (forall a, P a -> refines h (k a) (k' (f a))) ->
  refines h (bind m k) (PyNumber.bind m' k').
Proof.
  intros Hm Hr Hk g. specialize (Hm g). unfold bind, PyNumber.bind.
  destruct (m g) as [[a|e|] g1] eqn:Em; cbn [fst snd py_res] in *.
  - rewrite Hm. exact (Hk a (Hr g a g1 Em) g1).
  - destruct e; cbn [py_res fst snd] in *; auto; now rewrite Hm.
  - now rewrite Hm.
Qed.

Lemma refines_bind {A B A' B'} (f : A -> A') (h : B -> B')
      (m : M A) (k : A -> M B) (m' : PyNumber.M A') (k' : A' -> PyNumber.M B') :
  refines f m m' -> (forall a, refines h (k a) (k' (f a))) ->
  refines h (bind m k) (PyNumber.bind m' k').
Proof.
  intros Hm Hk. apply (refines_bind_post (fun _ => True) f h); auto.
  intros g a g' _. exact I.
Qed.

(** A return on either side alone. *)
Lemma refines_ret_l {A B C} (h : B -> C) (a : A) (k : A -> M B) (m' : PyNumber.M C) :
  refines h (k a) m' -> refines h (bind (ret a) k) m'.
Proof. intros H g. exact (H g). Qed.

Lemma refines_ret_r {A B C} (h : B -> C) (m : M B) (a : A) (k' : A -> PyNumber.M C) :
  refines h m (k' a) -> refines h m (PyNumber.bind (PyNumber.ret a) k').
Proof. intros H g. exact (H g). Qed.

(** The ghost snapshot has no counterpart. *)
Lemma refines_snapshot {B C} (h : B -> C) (k : M B) (m' : PyNumber.M C) :
  refines h k m' -> refines h (snapshot ;;; k) m'.
Proof.
  intros H g. unfold snapshot.
  change (bind (modify (fun g0 => set_history (edge_list g0 :: history g0) g0))
               (fun _ => k) g)
    with (k (set_history (edge_list g :: history g) g)).
  exact (H (set_history (edge_list g :: history g) g)).
Qed.

Lemma refines_gets {X Y} (f : X -> Y) (p : MaximumFlow -> X)
      (p' : PyNumber.MaximumFlow -> Y) :
  (forall g, p' (py_instance g) = f (p g)) -> refines f (gets p) (PyNumber.gets p').
Proof.
  intros H g. unfold gets, PyNumber.gets. cbn [fst snd py_res]. now rewrite H.
Qed.

Lemma refines_modify (F : MaximumFlow -> MaximumFlow)
      (F' : PyNumber.MaximumFlow -> PyNumber.MaximumFlow) :
  (forall g, F' (py_instance g) = py_instance (F g)) ->
  refines (@id unit) (modify F) (PyNumber.modify F').
Proof.
  intros H g. unfold modify, PyNumber.modify. cbn [fst snd py_res]. now rewrite H.
Qed.

(** ** Lists *)

Lemma py_get_map {X Y} (f : X -> Y) (l : list X) (i : Z) :
  py_get (map f l) i = option_map f (py_get l i).
Proof.
  unfold py_get. rewrite length_map. destruct (py_index (length l) i); auto.
  apply nth_error_map.
Qed.

Lemma replace_nth_map {X Y} (f : X -> Y) (l : list X) (k : nat) (x : X) :
  replace_nth k (f x) (map f l) = map f (replace_nth k x l).
Proof.
  revert k. induction l as [|y l IH]; intros [|k]; cbn [map replace_nth]; auto.
  now rewrite IH.
Qed.

Lemma py_set_map {X Y} (f : X -> Y) (l : list X) (i : Z) (x : X) :
  py_set (map f l) i (f x) = option_map (map f) (py_set l i x).
Proof.
  unfold py_set. rewrite length_map. destruct (py_index (length l) i); auto.
  cbn [option_map]. now rewrite replace_nth_map.
Qed.

Lemma refines_getitem {X Y} (f : X -> Y) (l : list X) (i : Z) :
  refines f (getitem l i) (PyNumber.getitem (map f l) i).
Proof.
  intros g. unfold getitem, PyNumber.getitem. rewrite py_get_map.
  destruct (py_get l i); reflexivity.
Qed.

Lemma refines_getitem_id {X} (l : list X) (i : Z) :
  refines (@id X) (getitem l i) (PyNumber.getitem l i).
Proof.
  intros g. unfold getitem, PyNumber.getitem. destruct (py_get l i); reflexivity.
Qed.

Lemma refines_setitem {X Y} (f : X -> Y) (l : list X) (i : Z) (x : X) :
  refines (map f) (setitem l i x) (PyNumber.setitem (map f l) i (f x)).
Proof.
  intros g. unfold setitem, PyNumber.setitem. rewrite py_set_map.
  destruct (py_set l i x); reflexivity.
Qed.

Lemma refines_setitem_id {X} (l : list X) (i : Z) (x : X) :
  refines (@id (list X)) (setitem l i x) (PyNumber.setitem l i x).
Proof.
  intros g. unfold setitem, PyNumber.setitem. destruct (py_set l i x); reflexivity.
Qed.

(** One step of a refinement whose first action is a read or write of a
    field or of a list. *)
Ltac rnext := intros ?; cbv beta delta [id].

Ltac rstep_with next :=
  first
    [ apply (refines_ret id)
    | apply (refines_ret py_number)
    | apply refines_fuel
    | apply refines_modify; reflexivity
    | apply (refines_bind (map py_edge)); [apply refines_gets; reflexivity|next]
    | apply (refines_bind id); [apply refines_gets; reflexivity|next]
    | apply (refines_bind py_edge); [apply refines_getitem|next]
    | apply (refines_bind id); [apply refines_getitem_id|next]
    | apply (refines_bind (map py_edge)); [apply refines_setitem|next]
    | apply (refines_bind id); [apply refines_setitem_id|next]
    | apply (refines_bind id); [apply refines_modify; reflexivity|next] ].

Tactic Notation "rstep" := rstep_with ltac:(rnext).
Tactic Notation "rstep" "as" ident(x) := rstep_with ltac:(intros x; cbv beta delta [id]).

(** ** Numbers *)

Lemma py_sub_int (a b : Z) :
  PyNumber.py_sub (PyNumber.PInt a) (PyNumber.PInt b) = PyNumber.ret (PyNumber.PInt (a - b)).
Proof. reflexivity. Qed.

Lemma py_add_int (a b : Z) :
  PyNumber.py_add (PyNumber.PInt a) (PyNumber.PInt b) = PyNumber.ret (PyNumber.PInt (a + b)).
Proof. reflexivity. Qed.

Lemma num_lt_infinity (x : Z) :
  PyNumber.num_lt (PyNumber.PInt x) PyNumber.INF = true.
Proof.
  unfold PyNumber.num_lt, PyNumber.INF, PyNumber.float_cmp_int.
  replace (FloatOps.Prim2SF PrimFloat.infinity) with (SpecFloat.S754_infinity false)
    by (vm_compute; reflexivity).
  reflexivity.
Qed.

Lemma num_min_number (f : number) (x : Z) :
  PyNumber.num_min (py_number f) (PyNumber.PInt x) = py_number (nmin f x).
Proof.
  destruct f as [a|]; cbn [py_number nmin]; unfold PyNumber.num_min.
  - cbn [PyNumber.num_lt]. destruct (Z.ltb_spec x a).
    + now rewrite Z.min_r by lia.
    + now rewrite Z.min_l by lia.
  - now rewrite num_lt_infinity.
Qed.

Lemma num_eq_zero (f : number) :
  PyNumber.num_eq (py_number f) (PyNumber.PInt 0) = is_zero f.
Proof.
  destruct f as [a|]; cbn [py_number is_zero]; [reflexivity|].
  vm_compute. reflexivity.
Qed.

Lemma py_add_zero_infinity :
  PyNumber.py_add (PyNumber.PInt 0) PyNumber.INF = PyNumber.ret PyNumber.INF.
Proof. vm_compute. reflexivity. Qed.

Lemma py_add_infinity_infinity :
  PyNumber.py_add PyNumber.INF PyNumber.INF = PyNumber.ret PyNumber.INF.
Proof. vm_compute. reflexivity. Qed.

(** ** The methods *)

Lemma refines_store_flow (idx x : Z) :
  refines (@id unit) (store_flow idx x) (PyNumber.store_flow idx (PyNumber.PInt x)).
Proof.
  unfold store_flow, PyNumber.store_flow. rstep as el. rstep as e.
  change (PyNumber.with_flow (py_edge e) (PyNumber.PInt x)) with (py_edge (with_flow e x)).
  rstep. rstep.
Qed.

Lemma refines_sub_flow (idx p : Z) :
  refines (@id unit) (sub_flow idx p) (PyNumber.sub_flow idx (PyNumber.PInt p)).
Proof.
  unfold sub_flow, PyNumber.sub_flow. rstep as el. rstep as e.
  change (PyNumber.e_flow (py_edge e)) with (PyNumber.PInt (e_flow e)).
  rewrite py_sub_int. apply refines_ret_r.
  change (PyNumber.with_flow (py_edge e) (PyNumber.PInt (e_flow e - p)))
    with (py_edge (with_flow e (e_flow e - p))).
  rstep. rstep.
Qed.

Lemma refines_adj_at (u i : Z) : refines (@id Z) (adj_at u i) (PyNumber.adj_at u i).
Proof. unfold adj_at, PyNumber.adj_at. rstep. rstep. apply refines_getitem_id. Qed.

Lemma refines_add_edge (u v capacity : Z) (directed : bool) :
  refines (@id unit) (add_edge u v capacity directed)
          (PyNumber.add_edge u v (PyNumber.PInt capacity) directed).
Proof.
  unfold add_edge, PyNumber.add_edge. destruct (u =? v); [rstep|].
  apply (refines_bind id).
  { apply refines_modify. intros g. unfold py_instance. cbn. now rewrite map_app. }
  rnext. rstep as al. rstep as au. rstep as el. rewrite length_map.
  rstep. rstep.
  apply (refines_bind id).
  { apply refines_modify. intros g. unfold py_instance. cbn. rewrite map_app.
    now destruct directed. }
  rnext. rstep as al2. rstep as av. rstep as el2. rewrite length_map.
  rstep. rstep.
Qed.

Lemma refines_if {A B} (f : A -> B) (c : bool) (m1 m2 : M A) (m1' m2' : PyNumber.M B) :
  refines f m1 m1' -> refines f m2 m2' ->
  refines f (if c then m1 else m2) (if c then m1' else m2').
Proof. destruct c; auto. Qed.

Lemma refines_BFS_for (u : Z) (adj0 : list Z) :
  forall q, refines (@id (list Z)) (BFS_for u adj0 q) (PyNumber.BFS_for u adj0 q).
Proof.
  induction adj0 as [|idx rest IH]; intros q; cbn [BFS_for PyNumber.BFS_for].
  - rstep.
  - rstep as el. rstep as e.
    change (PyNumber.e_cap (py_edge e)) with (PyNumber.PInt (e_cap e)).
    change (PyNumber.e_flow (py_edge e)) with (PyNumber.PInt (e_flow e)).
    change (PyNumber.e_v (py_edge e)) with (e_v e).
    rewrite py_sub_int. apply refines_ret_r.
    change (PyNumber.num_lt (PyNumber.PInt 0) (PyNumber.PInt (e_cap e - e_flow e)))
      with (0 <? e_cap e - e_flow e).
    apply (refines_bind id).
    { apply refines_if; [|rstep]. rstep as ds. rstep as dv. rstep. }
    intros b. cbv beta delta [id].
    apply (refines_bind id).
    { apply refines_if; [|rstep].
      rstep as ds. rstep as du. rstep as ds'. rstep. rstep as ps. rstep as ps'. rstep.
      rstep. }
    intros q'. cbv beta delta [id]. apply IH.
Qed.

Lemma refines_BFS_while (t : Z) (fuel : nat) :
  forall q, refines (@id unit) (BFS_while fuel q t) (PyNumber.BFS_while fuel q t).
Proof.
  induction fuel as [|fuel IH]; intros q; cbn [BFS_while PyNumber.BFS_while].
  - apply refines_fuel.
  - destruct q as [|u q']; [rstep|].
    apply refines_if; [rstep|].
    rstep as al. rstep as adj0.
    apply (refines_bind id); [apply refines_BFS_for|]. intros q''. cbv beta delta [id].
    apply IH.
Qed.

Lemma refines_BFS (fuel : nat) (s t : Z) :
  refines (@id bool) (BFS fuel s t) (PyNumber.BFS fuel s t).
Proof.
  unfold BFS, PyNumber.BFS. rstep as V. rstep. rstep as ds. rstep as ds'. rstep. rstep.
  apply (refines_bind id); [apply refines_BFS_while|]. intros _. cbv beta.
  rstep as ds2. rstep as dt. rstep.
Qed.

Lemma refines_raise_RecursionError {A B} (f : A -> B) :
  refines f (raise RecursionError) (PyNumber.raise PyNumber.RecursionError).
Proof. intros g. reflexivity. Qed.

(** The flow update that ends an augmentation step. *)
Lemma refines_push (idx fl : Z) (pushed : number) (k : M Z) (k' : PyNumber.M Z) :
  refines (@id Z) k k' ->
  refines py_number
          (p <- as_int pushed ;;
           idx1 <- k ;;
           store_flow idx1 (fl + p) ;;;
           idx2 <- k ;;
           sub_flow (Z.lxor idx2 1) p ;;;
           snapshot ;;;
           ret pushed)
          (PyNumber.bind (PyNumber.py_add (PyNumber.PInt fl) (py_number pushed))
             (fun flow =>
                PyNumber.bind k'
                  (fun idx1 =>
                     PyNumber.bind (PyNumber.store_flow idx1 flow)
                       (fun _ =>
                          PyNumber.bind k'
                            (fun idx2 =>
                               PyNumber.bind
                                 (PyNumber.sub_flow (Z.lxor idx2 1) (py_number pushed))
                                 (fun _ => PyNumber.ret (py_number pushed))))))).
Proof.
  intros Hk. destruct pushed as [p|]; cbn [as_int py_number].
  - apply refines_ret_l. rewrite py_add_int. apply refines_ret_r.
    apply (refines_bind id); [exact Hk|]. intros idx1. cbv beta delta [id].
    apply (refines_bind id); [apply refines_store_flow|]. intros _. cbv beta.
    apply (refines_bind id); [exact Hk|]. intros idx2. cbv beta delta [id].
    apply (refines_bind id); [apply refines_sub_flow|]. intros _. cbv beta.
    apply refines_snapshot. apply (refines_ret py_number (Fin p)).
  - apply refines_nonint.
Qed.

Lemma refines_send_one_flow (s : Z) (lim : nat) :
  forall t f,
    refines py_number (send_one_flow lim s t f)
            (PyNumber.send_one_flow lim s t (py_number f)).
Proof.
  induction lim as [|lim IH]; intros t f; cbn [send_one_flow PyNumber.send_one_flow].
  - apply refines_raise_RecursionError.
  - apply refines_if; [rstep|].
    rstep as ps. rstep as ui. destruct ui as [u idx].
    rstep as el. rstep as e.
    change (PyNumber.e_cap (py_edge e)) with (PyNumber.PInt (e_cap e)).
    change (PyNumber.e_flow (py_edge e)) with (PyNumber.PInt (e_flow e)).
    rewrite py_sub_int. apply refines_ret_r. rewrite num_min_number.
    apply (refines_bind py_number); [apply IH|]. intros pushed. cbv beta.
    apply (refines_push idx (e_flow e) pushed (ret idx) (PyNumber.ret idx)).
    apply (refines_ret id).
Qed.

Section DFS_refines.
Variables (t : Z) (rec : Z -> Z -> number -> M number).
Variable rec' : Z -> Z -> PyNumber.num -> PyNumber.M PyNumber.num.
Hypothesis Hrec : forall v f, refines py_number (rec v t f) (rec' v t (py_number f)).

Lemma refines_DFS_for (u : Z) (f : number) :
  forall js,
    refines py_number (DFS_for rec u t f js) (PyNumber.DFS_for rec' u t (py_number f) js).
Proof.
  induction js as [|i rest IH]; cbn [DFS_for PyNumber.DFS_for].
  - apply (refines_ret py_number (Fin 0)).
  - rstep as ls. rstep as ls'. rstep.
    apply (refines_bind id); [apply refines_adj_at|]. intros idx. cbv beta delta [id].
    rstep as el. rstep as e.
    change (PyNumber.e_cap (py_edge e)) with (PyNumber.PInt (e_cap e)).
    change (PyNumber.e_flow (py_edge e)) with (PyNumber.PInt (e_flow e)).
    change (PyNumber.e_v (py_edge e)) with (e_v e).
    rstep as ds. rstep as dv. rstep as du.
    apply refines_if; [exact IH|].
    rewrite py_sub_int. apply refines_ret_r. rewrite num_min_number.
    apply (refines_bind py_number); [apply Hrec|]. intros pushed. cbv beta.
    rewrite num_eq_zero. apply refines_if; [exact IH|].
    apply (refines_push idx (e_flow e) pushed (adj_at u i) (PyNumber.adj_at u i)).
    apply refines_adj_at.
Qed.
End DFS_refines.

Lemma refines_DFS (t : Z) (lim : nat) :
  forall u f, refines py_number (DFS lim u t f) (PyNumber.DFS lim u t (py_number f)).
Proof.
  induction lim as [|lim IH]; intros u f; cbn [DFS PyNumber.DFS].
  - apply refines_raise_RecursionError.
  - rewrite num_eq_zero. apply refines_if; [rstep|].
    rstep as ls. rstep as lu. rstep as al. rstep as a.
    apply refines_DFS_for. exact IH.
Qed.

(** ** What the augmentations return *)

Lemma returns_push (pushed : number) (k : Z -> M number) :
  (forall p, returns (fun a => a = pushed) (k p)) ->
  returns is_fin (p <- as_int pushed ;; k p).
Proof.
  intros Hk. destruct pushed as [p|]; cbn [as_int].
  - apply returns_bind. intros p' g a g' H. apply Hk in H. subst a. now exists p.
  - intros g a g' H. discriminate.
Qed.

Ltac returns_last :=
  intros ?; repeat (apply returns_bind; intros ?); apply returns_ret; reflexivity.

Lemma send_one_flow_returns (lim : nat) (s t : Z) (f : number) :
  returns (fun a => (s = t -> a = f) /\ (s <> t -> is_fin a)) (send_one_flow lim s t f).
Proof.
  destruct lim as [|lim]; cbn [send_one_flow]; [apply returns_raise|].
  destruct (s =? t) eqn:E.
  - apply returns_ret. split; auto. apply Z.eqb_eq in E. contradiction.
  - apply Z.eqb_neq in E.
    apply returns_bind. intros ps. apply returns_bind. intros [u idx].
    apply returns_bind. intros el. apply returns_bind. intros e.
    apply returns_bind. intros pushed.
    intros g a g' H. split; [contradiction|]. intros _. revert H.
    apply returns_push. returns_last.
Qed.

Lemma DFS_for_returns (rec : Z -> Z -> number -> M number) (u t : Z) (f : number) :
  forall js, returns is_fin (DFS_for rec u t f js).
Proof.
  induction js as [|i rest IH]; cbn [DFS_for].
  - apply returns_ret. now exists 0.
  - apply returns_bind. intros ls. apply returns_bind. intros ls'.
    apply returns_bind. intros _. apply returns_bind. intros idx.
    apply returns_bind. intros el. apply returns_bind. intros e.
    apply returns_bind. intros ds. apply returns_bind. intros dv.
    apply returns_bind. intros du.
    destruct (negb (dv =? du + 1)); [exact IH|].
    apply returns_bind. intros pushed.
    destruct (is_zero pushed); [exact IH|].
    apply returns_push. returns_last.
Qed.

Lemma DFS_returns (lim : nat) (s t : Z) :
  returns (pushed_ok s t) (DFS lim s t INF).
Proof.
  destruct lim as [|lim]; cbn [DFS]; [apply returns_raise|].
  cbn [is_zero]. rewrite orb_false_r. destruct (s =? t) eqn:E.
  - apply returns_ret. split; auto. apply Z.eqb_eq in E. contradiction.
  - apply Z.eqb_neq in E.
    apply returns_bind. intros ls. apply returns_bind. intros lu.
    apply returns_bind. intros al. apply returns_bind. intros a.
    intros g x g' H. split; [contradiction|]. intros _.
    exact (DFS_for_returns _ _ _ _ _ g x g' H).
Qed.

Lemma py_add_total (s t : Z) (mf f : number) :
  total_ok s t mf -> pushed_ok s t f ->
  PyNumber.py_add (py_number mf) (py_number f) = PyNumber.ret (py_number (nadd mf f)) /\
  total_ok s t (nadd mf f).
Proof.
  intros [M1 M2] [F1 F2]. destruct (Z.eq_dec s t) as [E|E].
  - rewrite (F1 E). destruct (M1 E) as [-> | ->]; cbn [nadd py_number].
    + split; [exact py_add_zero_infinity|]. split; [auto|intros N; contradiction].
    + split; [exact py_add_infinity_infinity|]. split; [auto|intros N; contradiction].
  - destruct (M2 E) as [a ->]. destruct (F2 E) as [z ->]. cbn [nadd py_number].
    split; [apply py_add_int|]. split; [contradiction|]. intros _. now eexists.
Qed.

(** ** The run entry points *)

Lemma refines_assert :
  refines (@id unit) assert_has_not_already_been_run
          PyNumber.assert_has_not_already_been_run.
Proof.
  unfold assert_has_not_already_been_run, PyNumber.assert_has_not_already_been_run.
  rstep as b. apply refines_if; [|rstep]. intros g. reflexivity.
Qed.

Lemma refines_ek_while (lim fuel : nat) (s t : Z) (k : nat) :
  forall mf,
    total_ok s t mf ->
    refines py_number (ek_while lim fuel k s t mf)
            (PyNumber.ek_while lim fuel k s t (py_number mf)).
Proof.
  induction k as [|k IH]; intros mf Hmf; cbn [ek_while PyNumber.ek_while].
  - rstep.
  - apply (refines_bind id); [apply refines_BFS|]. intros b. cbv beta delta [id].
    apply refines_if; [|rstep].
    apply (refines_bind_post (pushed_ok s t) py_number).
    + apply (refines_send_one_flow s lim t INF).
    + apply send_one_flow_returns.
    + intros f Hf. rewrite num_eq_zero. apply refines_if; [rstep|].
      destruct (py_add_total s t mf f Hmf Hf) as [E Hmf'].
      rewrite E. apply refines_ret_r. apply IH. exact Hmf'.
Qed.

Lemma total_ok_zero (s t : Z) : total_ok s t (Fin 0).
Proof. split; auto. intros _. now exists 0. Qed.

Lemma refines_edmonds_karp (lim fuel : nat) (s t : Z) :
  refines py_number (edmonds_karp lim fuel s t) (PyNumber.edmonds_karp lim fuel s t).
Proof.
  unfold edmonds_karp, PyNumber.edmonds_karp.
  apply (refines_bind id); [apply refines_assert|]. intros _.
  apply (refines_ek_while lim fuel s t fuel (Fin 0)). apply total_ok_zero.
Qed.

Lemma dinic_inner_returns (lim : nat) (s t : Z) (k : nat) :
  forall f mf,
    pushed_ok s t f -> total_ok s t mf ->
    returns (total_ok s t) (dinic_inner lim k s t f mf).
Proof.
  induction k as [|k IH]; intros f mf Hf Hmf; cbn [dinic_inner].
  - apply returns_fuel.
  - destruct (is_zero f); [now apply returns_ret|].
    apply (returns_bind_post (pushed_ok s t)); [apply DFS_returns|].
    intros f' Hf'. apply IH; auto. exact (proj2 (py_add_total s t mf f Hmf Hf)).
Qed.

Lemma refines_dinic_inner (lim : nat) (s t : Z) (k : nat) :
  forall f mf,
    pushed_ok s t f -> total_ok s t mf ->
    refines py_number (dinic_inner lim k s t f mf)
            (PyNumber.dinic_inner lim k s t (py_number f) (py_number mf)).
Proof.
  induction k as [|k IH]; intros f mf Hf Hmf; cbn [dinic_inner PyNumber.dinic_inner].
  - rstep.
  - rewrite num_eq_zero. apply refines_if; [rstep|].
    destruct (py_add_total s t mf f Hmf Hf) as [E Hmf'].
    rewrite E. apply refines_ret_r.
    apply (refines_bind_post (pushed_ok s t) py_number).
    + apply (refines_DFS t lim s INF).
    + apply DFS_returns.
    + intros f' Hf'. apply IH; auto.
Qed.

Lemma refines_dinic_while (lim fuel : nat) (s t : Z) (k : nat) :
  forall mf,
    total_ok s t mf ->
    refines py_number (dinic_while lim fuel k s t mf)
            (PyNumber.dinic_while lim fuel k s t (py_number mf)).
Proof.
  induction k as [|k IH]; intros mf Hmf; cbn [dinic_while PyNumber.dinic_while].
  - rstep.
  - apply (refines_bind id); [apply refines_BFS|]. intros b. cbv beta delta [id].
    apply refines_if; [|rstep].
    rstep as V. rstep.
    apply (refines_bind_post (pushed_ok s t) py_number).
    + apply (refines_DFS t lim s INF).
    + apply DFS_returns.
    + intros f Hf.
      apply (refines_bind_post (total_ok s t) py_number).
      * now apply refines_dinic_inner.
      * now apply dinic_inner_returns.
      * intros mf' Hmf'. now apply IH.
Qed.

Lemma refines_dinic (lim fuel : nat) (s t : Z) :
  refines py_number (dinic lim fuel s t) (PyNumber.dinic lim fuel s t).
Proof.
  unfold dinic, PyNumber.dinic.
  apply (refines_bind id); [apply refines_assert|]. intros _.
  apply (refines_dinic_while lim fuel s t fuel (Fin 0)). apply total_ok_zero.
Qed.

Lemma refines_add_edges (cs : list call) :
  refines (@id unit) (add_edges cs) (py_add_edges cs).
Proof.
  induction cs as [|c cs IH]; cbn [add_edges py_add_edges].
  - rstep.
  - apply (refines_bind id); [apply refines_add_edge|]. intros _. exact IH.
Qed.

(** X25: on integers the methods over Python numbers do what the integer
    embedding does.  Started from the image of an integer instance (every
    capacity and flow an int), add_edge with an int capacity, BFS,
    send_one_flow, DFS, edmonds_karp and dinic over Python numbers end
    with the image of the outcome of the integer method (the same value,
    the same exception, or the same loop cut off) in the image of the
    instance the integer method ends in.  The one outcome without an
    image is the integer embedding's refusal to store float('inf') as a
    flow. *)
Theorem integers_among_python_numbers :
  (forall u v capacity directed,
      refines id (add_edge u v capacity directed)
              (PyNumber.add_edge u v (PyNumber.PInt capacity) directed)) /\
  (forall n s t, refines id (BFS n s t) (PyNumber.BFS n s t)) /\
  (forall lim s t f,
      refines py_number (send_one_flow lim s t f)
              (PyNumber.send_one_flow lim s t (py_number f))) /\
  (forall lim u t f,
      refines py_number (DFS lim u t f) (PyNumber.DFS lim u t (py_number f))) /\
  (forall lim n s t,
      refines py_number (edmonds_karp lim n s t) (PyNumber.edmonds_karp lim n s t)) /\
  (forall lim n s t,
      refines py_number (dinic lim n s t) (PyNumber.dinic lim n s t)).
Proof.
  split; [exact refines_add_edge|]. split; [exact refines_BFS|].
  split; [intros; apply refines_send_one_flow|]. split; [intros; apply refines_DFS|].
  split; [exact refines_edmonds_karp|exact refines_dinic].
Qed.

Lemma stopped_has_image {A B} (f : A -> B) (r : res A) :
  stopped r \/ (exists x, r = Val x) -> exists r', py_res f r = Some r'.
Proof. intros [[->| ->]|[x ->]]; cbn [py_res]; eauto. Qed.

Lemma refines_run {A B} (f : A -> B) (m : M A) (m' : PyNumber.M B) (g : MaximumFlow) :
  refines f m m' -> stopped (fst (m g)) \/ (exists x, fst (m g) = Val x) ->
  exists r', py_res f (fst (m g)) = Some r' /\
             m' (py_instance g) = (r', py_instance (snd (m g))).
Proof.
  intros R H. destruct (stopped_has_image f _ H) as [r' E]. exists r'. split; auto.
  specialize (R g). now rewrite E in R.
Qed.

(** X26: a run of the Python methods on integer capacities is a run of
    the integer embedding.  For a graph built by add_edge calls between
    vertices in [0, V) with integer capacities, and s and t in [0, V):
    the same calls over Python numbers build the image of the graph, and
    edmonds_karp(s, t) and dinic(s, t) over Python numbers end with the
    image of the outcome of the integer run (the same integer returned,
    RecursionError raised, or the loop cut off at the same point) and
    leave the image of the instance it leaves: every flow is the same
    int. *)
Theorem python_run_on_integer_capacities (V : Z) (cs : list call) (g : MaximumFlow)
        (s t : Z) (lim n : nat) :
  built V cs g -> 0 <= s < V -> 0 <= t < V ->
  py_add_edges cs (PyNumber.init V) = (PyNumber.Val tt, py_instance g) /\
  (exists r',
      py_res py_number (fst (edmonds_karp lim n s t g)) = Some r' /\
      PyNumber.edmonds_karp lim n s t (py_instance g) =
      (r', py_instance (snd (edmonds_karp lim n s t g)))) /\
  (exists r',
      py_res py_number (fst (dinic lim n s t g)) = Some r' /\
      PyNumber.dinic lim n s t (py_instance g) =
      (r', py_instance (snd (dinic lim n s t g)))).
Proof.
  intros Hb Hs Ht.
  destruct (built_fresh V cs g ltac:(lia) Hb) as (F & Ev & _).
  rewrite <- Ev in Hs, Ht.
  split; [|split].
  - destruct Hb as [_ Eg]. pose proof (refines_add_edges cs (init V)) as R.
    rewrite Eg in R. exact R.
  - apply refines_run; [apply refines_edmonds_karp|].
    destruct (edmonds_karp lim n s t g) as [r g'] eqn:E. cbn [fst].
    pose proof (edmonds_karp_spec false lim n s t g r g' F ltac:(discriminate) Hs Ht E)
      as (_ & _ & _ & _ & _ & _ & _ & A8 & _).
    exact A8.
  - apply refines_run; [apply refines_dinic|].
    destruct (dinic lim n s t g) as [r g'] eqn:E. cbn [fst].
    pose proof (dinic_spec false lim n s t g r g' F ltac:(discriminate) Hs Ht E)
      as (_ & _ & _ & _ & _ & _ & _ & A8 & _).
    exact A8.
Qed.

Lemma python_run_on_integer_capacities_witness :
  built 3 example_calls example_graph /\
  py_add_edges example_calls (PyNumber.init 3) =
  (PyNumber.Val tt, py_instance example_graph) /\
  (exists r',
      py_res py_number (fst (edmonds_karp 3 13 0 2 example_graph)) = Some r' /\
      PyNumber.edmonds_karp 3 13 0 2 (py_instance example_graph) =
      (r', py_instance (snd (edmonds_karp 3 13 0 2 example_graph)))) /\
  (exists r',
      py_res py_number (fst (dinic 3 13 0 2 example_graph)) = Some r' /\
      PyNumber.dinic 3 13 0 2 (py_instance example_graph) =
      (r', py_instance (snd (dinic 3 13 0 2 example_graph)))).
Proof.
  split; [exact example_built|].
  apply (python_run_on_integer_capacities 3 example_calls example_graph 0 2 3 13
           example_built); lia.
Defined.

Lemma py_example_graph : PyNumber.example_graph = py_instance example_graph.
Proof. vm_compute. reflexivity. Qed.

(** X27: the docstring example over Python numbers.  MaximumFlow(3) with
    add_edge(0, 1, 3), add_edge(0, 2, 3) and add_edge(1, 2, 3), the
    capacities Python ints: edmonds_karp(0, 2) and dinic(0, 2) both return
    the int 6, when at least three nested calls are allowed. *)
Theorem python_example_returns_6 (lim n : nat) :
  (3 <= lim)%nat -> (13 <= n)%nat ->
  fst (PyNumber.edmonds_karp lim n 0 2 PyNumber.example_graph)
  = PyNumber.Val (PyNumber.PInt 6) /\
  fst (PyNumber.dinic lim n 0 2 PyNumber.example_graph)
  = PyNumber.Val (PyNumber.PInt 6).
Proof.
  intros Hl Hn.
  destruct (built_fresh 3 _ _ ltac:(lia) example_built) as (F & Ev & Hc).
  specialize (Hc example_nonneg).
  destruct (max_flow_value example_graph 0 2 F Hc) as [v Hv]; try (rewrite Ev; lia); try lia.
  assert (E : enough_fuel example_graph = 13%nat) by (vm_compute; reflexivity).
  rewrite E, Ev in Hv.
  assert (v = 6) as ->.
  { destruct (Hv 3%nat 13%nat ltac:(lia) (le_n _)) as [H _].
    assert (E2 : fst (edmonds_karp 3 13 0 2 example_graph) = Val (Fin 6))
      by (vm_compute; reflexivity).
    rewrite E2 in H. now injection H. }
  destruct (Hv lim n ltac:(lia) Hn) as [E1 E2].
  rewrite py_example_graph. split.
  - pose proof (refines_edmonds_karp lim n 0 2 example_graph) as R.
    rewrite E1 in R. cbn [py_res py_number] in R. now rewrite R.
  - pose proof (refines_dinic lim n 0 2 example_graph) as R.
    rewrite E2 in R. cbn [py_res py_number] in R. now rewrite R.
Qed.

Lemma python_example_returns_6_witness :
  (3 <= 3)%nat /\ (13 <= 13)%nat /\
  fst (PyNumber.edmonds_karp 3 13 0 2 PyNumber.example_graph)
  = PyNumber.Val (PyNumber.PInt 6) /\
  fst (PyNumber.dinic 3 13 0 2 PyNumber.example_graph)
  = PyNumber.Val (PyNumber.PInt 6).
Proof.
  split; [lia|]. split; [lia|]. apply (python_example_returns_6 3 13); lia.
Defined.
